(** * Pairwise sequence alignment (lab11): a shallow embedding with proofs

    The development follows [lab11/ex1.py] (global alignment,
    [needleman_wunsch]) and [lab11/ex2.py] (local alignment,
    [smith_waterman], and the windowed driver [chunked_alignment]).

    Conventions of the embedding:
    - a Python [int] is a [Z] (unbounded);
    - a Python [str] is a [list ascii], a list of characters;
    - a Python [list] is a [list], indexed the way Python indexes it
      ([py_getitem]: negative indices count from the end, anything out of
      range raises [IndexError]);
    - a Python [float] produced by the percentage formulas is the exact
      rational ([Q]) the formula denotes: rounding, and integers too large
      to convert to a float, are outside the model, so the statements on
      results of [smith_waterman] and [chunked_alignment] that may hold
      the percentages of a non-empty alignment carry [float_exact], the
      range where every integer these formulas convert is exact as a
      float;
    - a computation yields an [outcome]: a value, a raised exception, or
      [OutOfFuel] when a [while] loop was given too few iterations. *)

From stdpp Require Import base option list list_numbers strings.
From Stdlib Require Import ZArith QArith Ascii Lia.

Local Open Scope Z_scope.

(** ** Outcomes: a small error monad *)

Inductive exn : Set := IndexError | ValueError | ZeroDivisionError.

Inductive outcome (A : Type) : Type :=
| Ok (a : A)
| Raise (e : exn)
| OutOfFuel.
Arguments Ok {A} a.
Arguments Raise {A} e.
Arguments OutOfFuel {A}.

Definition outcome_bind {A B} (f : A → outcome B) (x : outcome A) : outcome B :=
  match x with
  | Ok a => f a
  | Raise e => Raise e
  | OutOfFuel => OutOfFuel
  end.

#[global] Instance outcome_mret : MRet outcome := @Ok.
#[global] Instance outcome_mbind : MBind outcome := @outcome_bind.

(** [for x in l: body] over a state [St]. *)
Fixpoint for_each {A St} (l : list A) (body : A → St → outcome St) (st : St)
  : outcome St :=
  match l with
  | [] => Ok st
  | x :: l' => st' ← body x st; for_each l' body st'
  end.

(** ** Python containers *)

Abbreviation str := (list ascii).

Definition gap_char : ascii := "-"%char.

Definition len {A} (l : list A) : Z := Z.of_nat (length l).

(** [range(a, b)] *)
Definition py_range (a b : Z) : list Z := seqZ a (b - a).

(** The position a Python index denotes in a sequence of length [n]. *)
Definition py_index (n k : Z) : option nat :=
  if decide (0 ≤ k < n) then Some (Z.to_nat k)
  else if decide (- n ≤ k < 0) then Some (Z.to_nat (n + k))
  else None.

(** [l[k]] *)
Definition py_getitem {A} (l : list A) (k : Z) : outcome A :=
  match py_index (len l) k with
  | Some p => match l !! p with Some x => Ok x | None => Raise IndexError end
  | None => Raise IndexError
  end.

(** [l[k] = v] *)
Definition py_setitem {A} (l : list A) (k : Z) (v : A) : outcome (list A) :=
  match py_index (len l) k with
  | Some p => Ok (<[p := v]> l)
  | None => Raise IndexError
  end.

(** [M[i][j]] *)
Definition py_getitem2 {A} (M : list (list A)) (i j : Z) : outcome A :=
  row ← py_getitem M i; py_getitem row j.

(** [M[i][j] = v]: the row object [M[i]] is updated in place.  The rows
    of the matrices below are built by a list comprehension, so they are
    distinct objects and updating one leaves the others as they are. *)
Definition py_setitem2 {A} (M : list (list A)) (i j : Z) (v : A)
  : outcome (list (list A)) :=
  row ← py_getitem M i; row' ← py_setitem row j v; py_setitem M i row'.

(** [l[lo:hi]] *)
Definition py_slice_bound (n k : Z) : Z :=
  Z.max 0 (Z.min n (if decide (k < 0) then k + n else k)).

Definition py_slice {A} (l : list A) (lo hi : Z) : list A :=
  let a := py_slice_bound (len l) lo in
  let b := py_slice_bound (len l) hi in
  take (Z.to_nat (b - a)) (drop (Z.to_nat a) l).

(** [[[x] * cols for _ in range(rows)]] *)
Definition py_matrix {A} (rows cols : Z) (x : A) : list (list A) :=
  replicate (Z.to_nat rows) (replicate (Z.to_nat cols) x).

(** [sum(p(x, y) for x, y in zip(s, t))] *)
Definition count_pairs (p : ascii → ascii → bool) (s t : str) : Z :=
  len (filter (λ xy, p xy.1 xy.2 = true) (zip s t)).

Definition char_eqb (x y : ascii) : bool := bool_decide (x = y).

(** [x / y] on numbers with a float on the left: the exact quotient, or
    [ZeroDivisionError].  The float the program computes is this quotient
    rounded, as long as both operands are integers a float holds exactly
    (see [float_exact]). *)
Definition py_truediv (x : Q) (y : Z) : outcome Q :=
  if decide (y = 0) then Raise ZeroDivisionError else Ok (x / inject_Z y)%Q.

(** [100.0 * num / den if guard else 0.0] *)
Definition percent (num den guard : Z) : outcome Q :=
  if decide (guard ≠ 0) then py_truediv (100 * inject_Z num)%Q den
  else Ok 0%Q.

(** ** Global alignment: [lab11/ex1.py] *)

(** The pointer strings [""], ["diag"], ["up"], ["left"]. *)
Inductive pointer : Set := PNone | PDiag | PUp | PLeft.

#[global] Instance pointer_eq_dec : EqDecision pointer.
Proof. solve_decision. Defined.

Record AlignmentResult := {
  aligned_seq1 : str;
  aligned_seq2 : str;
  matches : Z;
  aln_length : Z;          (* the field [length] *)
  similarity : Q;
  score_matrix : list (list Z);
  path : list (Z * Z)
}.

Section needleman_wunsch.
Variables (seq1 seq2 : str) (match_score mismatch_score gap_penalty : Z).

Local Abbreviation nw_state := (list (list Z) * list (list pointer))%type.

(** Lines 30-32: one step of the first border loop. *)
Definition nw_border_col (i : Z) (st : nw_state) : outcome nw_state :=
  let '(scores, pointers) := st in
  above ← py_getitem2 scores (i - 1) 0;
  scores ← py_setitem2 scores i 0 (above + gap_penalty);
  pointers ← py_setitem2 pointers i 0 PUp;
  Ok (scores, pointers).

(** Lines 33-35: one step of the second border loop. *)
Definition nw_border_row (j : Z) (st : nw_state) : outcome nw_state :=
  let '(scores, pointers) := st in
  before ← py_getitem2 scores 0 (j - 1);
  scores ← py_setitem2 scores 0 j (before + gap_penalty);
  pointers ← py_setitem2 pointers 0 j PLeft;
  Ok (scores, pointers).

(** Lines 39-53: the body of the double loop. *)
Definition nw_cell (i j : Z) (st : nw_state) : outcome nw_state :=
  let '(scores, pointers) := st in
  d ← py_getitem2 scores (i - 1) (j - 1);
  c1 ← py_getitem seq1 (i - 1);
  c2 ← py_getitem seq2 (j - 1);
  let diag := d + (if decide (c1 = c2) then match_score else mismatch_score) in
  u ← py_getitem2 scores (i - 1) j;
  let up := u + gap_penalty in
  l ← py_getitem2 scores i (j - 1);
  let left := l + gap_penalty in
  let best := Z.max (Z.max diag up) left in
  pointers ←
    (if decide (best = diag) then py_setitem2 pointers i j PDiag
     else if decide (best = up) then py_setitem2 pointers i j PUp
     else py_setitem2 pointers i j PLeft);
  scores ← py_setitem2 scores i j best;
  Ok (scores, pointers).

(** Lines 26-53: the two matrices after the three loops. *)
Definition nw_fill : outcome nw_state :=
  let n := len seq1 in
  let m := len seq2 in
  let scores := py_matrix (n + 1) (m + 1) 0 in
  let pointers := py_matrix (n + 1) (m + 1) PNone in
  st ← for_each (py_range 1 (n + 1)) nw_border_col (scores, pointers);
  st ← for_each (py_range 1 (m + 1)) nw_border_row st;
  for_each (py_range 1 (n + 1))
    (λ i, for_each (py_range 1 (m + 1)) (nw_cell i)) st.

(** Lines 59-74: the traceback loop; [fuel] bounds its iterations. *)
Fixpoint nw_traceback (fuel : nat) (pointers : list (list pointer))
    (i j : Z) (aligned1 aligned2 : str) (path : list (Z * Z))
  : outcome (str * str * list (Z * Z)) :=
  if decide (i > 0 ∨ j > 0) then
    match fuel with
    | O => OutOfFuel
    | S fuel =>
      let path := path ++ [(i, j)] in
      move ← py_getitem2 pointers i j;
      match move with
      | PDiag =>
        c1 ← py_getitem seq1 (i - 1);
        c2 ← py_getitem seq2 (j - 1);
        nw_traceback fuel pointers (i - 1) (j - 1)
          (aligned1 ++ [c1]) (aligned2 ++ [c2]) path
      | PUp =>
        c1 ← py_getitem seq1 (i - 1);
        nw_traceback fuel pointers (i - 1) j
          (aligned1 ++ [c1]) (aligned2 ++ [gap_char]) path
      | _ =>
        c2 ← py_getitem seq2 (j - 1);
        nw_traceback fuel pointers i (j - 1)
          (aligned1 ++ [gap_char]) (aligned2 ++ [c2]) path
      end
    end
  else Ok (aligned1, aligned2, path).

(** Lines 76-93. *)
Definition nw_result (scores : list (list Z)) (tb : str * str * list (Z * Z))
  : outcome AlignmentResult :=
  let '(aligned1, aligned2, path) := tb in
  let path := reverse (path ++ [(0, 0)]) in
  let aligned_seq1 := reverse aligned1 in
  let aligned_seq2 := reverse aligned2 in
  let matches := count_pairs char_eqb aligned_seq1 aligned_seq2 in
  let length := len aligned_seq1 in
  similarity ← percent matches length length;
  Ok
  {| aligned_seq1 := aligned_seq1;
     aligned_seq2 := aligned_seq2;
     matches := matches;
     aln_length := length;
     similarity := similarity;
     score_matrix := scores;
     path := path |}.

Definition needleman_wunsch_fuel (fuel : nat) : outcome AlignmentResult :=
  '(scores, pointers) ← nw_fill;
  tb ← nw_traceback fuel pointers (len seq1) (len seq2) [] [] [];
  nw_result scores tb.

(** Every iteration of the traceback loop lowers [i + j], so
    [len seq1 + len seq2] iterations are enough (see
    [needleman_wunsch_fuel_enough]). *)
Definition needleman_wunsch : outcome AlignmentResult :=
  needleman_wunsch_fuel (length seq1 + length seq2).

End needleman_wunsch.

(** [_match_bar], lines 96-97: a bar under every column whose two
    characters are equal. *)
Definition match_bar (row1 row2 : str) : str :=
  (λ ab : ascii * ascii, if decide (ab.1 = ab.2) then "|"%char else " "%char)
    <$> zip row1 row2.

(** ** Local alignment: [lab11/ex2.py] *)

Record LocalAlignment := {
  aligned_a : str;
  aligned_b : str;
  score : Z;
  start_a : Z;
  end_a : Z;
  start_b : Z;
  end_b : Z;
  identity : Q;
  penalty_similarity : Q;
  norm_score : Q;
  coverage : Q
}.

(** The pointer codes of [smith_waterman]: [0] (stop), [1] (diagonal),
    [2] (up), [3] (left). *)

Record sw_state := {
  sw_scores : list (list Z);
  sw_pointers : list (list Z);
  sw_best_score : Z;
  sw_best_pos : Z * Z
}.

Section smith_waterman.
Variables (a b : str) (match_ mismatch gap : Z).

(** Lines 46-61: the body of the double loop. *)
Definition sw_cell (i j : Z) (st : sw_state) : outcome sw_state :=
  let scores := sw_scores st in
  let pointers := sw_pointers st in
  d ← py_getitem2 scores (i - 1) (j - 1);
  c1 ← py_getitem a (i - 1);
  c2 ← py_getitem b (j - 1);
  let diag := d + (if decide (c1 = c2) then match_ else mismatch) in
  u ← py_getitem2 scores (i - 1) j;
  let up := u + gap in
  l ← py_getitem2 scores i (j - 1);
  let left := l + gap in
  let best := Z.max (Z.max (Z.max 0 diag) up) left in
  scores ← py_setitem2 scores i j best;
  pointers ←
    (if decide (best = 0) then py_setitem2 pointers i j 0
     else if decide (best = diag) then py_setitem2 pointers i j 1
     else if decide (best = up) then py_setitem2 pointers i j 2
     else py_setitem2 pointers i j 3);
  if decide (best > sw_best_score st) then
    Ok {| sw_scores := scores; sw_pointers := pointers;
          sw_best_score := best; sw_best_pos := (i, j) |}
  else
    Ok {| sw_scores := scores; sw_pointers := pointers;
          sw_best_score := sw_best_score st; sw_best_pos := sw_best_pos st |}.

(** Lines 37-61. *)
Definition sw_fill : outcome sw_state :=
  let na := len a in
  let nb := len b in
  for_each (py_range 1 (na + 1))
    (λ i, for_each (py_range 1 (nb + 1)) (sw_cell i))
    {| sw_scores := py_matrix (na + 1) (nb + 1) 0;
       sw_pointers := py_matrix (na + 1) (nb + 1) 0;
       sw_best_score := 0; sw_best_pos := (0, 0) |}.

(** Lines 67-81: the traceback loop; [fuel] bounds its iterations.  The
    loop test reads [scores[i][j]] only when [i > 0 and j > 0]. *)
Fixpoint sw_traceback (fuel : nat) (scores pointers : list (list Z))
    (i j : Z) (aligned_a aligned_b : str) : outcome (Z * Z * str * str) :=
  if decide (i > 0 ∧ j > 0) then
    cur ← py_getitem2 scores i j;
    if decide (cur > 0) then
      match fuel with
      | O => OutOfFuel
      | S fuel =>
        move ← py_getitem2 pointers i j;
        if decide (move = 1) then
          c1 ← py_getitem a (i - 1);
          c2 ← py_getitem b (j - 1);
          sw_traceback fuel scores pointers (i - 1) (j - 1)
            (aligned_a ++ [c1]) (aligned_b ++ [c2])
        else if decide (move = 2) then
          c1 ← py_getitem a (i - 1);
          sw_traceback fuel scores pointers (i - 1) j
            (aligned_a ++ [c1]) (aligned_b ++ [gap_char])
        else
          c2 ← py_getitem b (j - 1);
          sw_traceback fuel scores pointers i (j - 1)
            (aligned_a ++ [gap_char]) (aligned_b ++ [c2])
      end
    else Ok (i, j, aligned_a, aligned_b)
  else Ok (i, j, aligned_a, aligned_b).

(** The three tallies of lines 88-90. *)
Definition is_match (x y : ascii) : bool :=
  bool_decide (x = y) && bool_decide (x ≠ gap_char) && bool_decide (y ≠ gap_char).
Definition is_mismatch (x y : ascii) : bool :=
  bool_decide (x ≠ y) && bool_decide (x ≠ gap_char) && bool_decide (y ≠ gap_char).
Definition is_gap (x y : ascii) : bool :=
  bool_decide (x = gap_char) || bool_decide (y = gap_char).

(** Lines 83-111.  The four percentages are the exact quotients of the
    integers of lines 92-97.  The program computes them on floats: within
    [float_exact] its conversions and its products by [100.0] are exact
    and only the division rounds; beyond that range line 95 can also
    yield an infinity or raise [OverflowError], which this definition
    does not follow. *)
Definition sw_result (best_score end_a end_b : Z) (tb : Z * Z * str * str)
  : outcome LocalAlignment :=
  let '(start_a, start_b, aligned_a, aligned_b) := tb in
  let aligned_a_str := reverse aligned_a in
  let aligned_b_str := reverse aligned_b in
  let matches := count_pairs is_match aligned_a_str aligned_b_str in
  let mismatches := count_pairs is_mismatch aligned_a_str aligned_b_str in
  let gaps := count_pairs is_gap aligned_a_str aligned_b_str in
  let L := len aligned_a_str in
  identity ← percent matches L L;
  penalty_similarity ← percent (matches - mismatches - gaps) L L;
  let pos_score := matches * match_ + mismatches * mismatch + gaps * gap in
  norm_score ← percent pos_score (L * Z.max match_ 1) L;
  let aligned_a_len := len (filter (λ c, c ≠ gap_char) aligned_a_str) in
  coverage ← percent aligned_a_len (len a) (len a);
  Ok {| aligned_a := aligned_a_str;
        aligned_b := aligned_b_str;
        score := best_score;
        start_a := start_a;
        end_a := end_a;
        start_b := start_b;
        end_b := end_b;
        identity := identity;
        penalty_similarity := penalty_similarity;
        norm_score := norm_score;
        coverage := coverage |}.

Definition smith_waterman_fuel (fuel : nat) : outcome LocalAlignment :=
  st ← sw_fill;
  let '(i, j) := sw_best_pos st in
  tb ← sw_traceback fuel (sw_scores st) (sw_pointers st) i j [] [];
  sw_result (sw_best_score st) i j tb.

(** Every iteration of the traceback loop lowers [i + j], so
    [len a + len b] iterations are enough (see
    [smith_waterman_fuel_enough]). *)
Definition smith_waterman : outcome LocalAlignment :=
  smith_waterman_fuel (length a + length b).

End smith_waterman.

(** Lines 137-140: [res.start_a += offset] and the like. *)
Definition rebase (offset : Z) (res : LocalAlignment) : LocalAlignment :=
  {| aligned_a := aligned_a res;
     aligned_b := aligned_b res;
     score := score res;
     start_a := start_a res + offset;
     end_a := end_a res + offset;
     start_b := start_b res + offset;
     end_b := end_b res + offset;
     identity := identity res;
     penalty_similarity := penalty_similarity res;
     norm_score := norm_score res;
     coverage := coverage res |}.

Section chunked_alignment.
Variables (genome_a genome_b : str) (chunk_size overlap : Z).
Variables (match_ mismatch gap : Z).

(** Lines 131-142: the window loop; [fuel] bounds its iterations. *)
Fixpoint chunk_loop (fuel : nat) (step max_pos offset : Z)
    (results : list LocalAlignment) : outcome (list LocalAlignment) :=
  if decide (offset < max_pos) then
    match fuel with
    | O => OutOfFuel
    | S fuel =>
      let window_a := py_slice genome_a offset (offset + chunk_size) in
      let window_b := py_slice genome_b offset (offset + chunk_size) in
      if decide (window_a = [] ∨ window_b = []) then Ok results
      else
        res ← smith_waterman window_a window_b match_ mismatch gap;
        chunk_loop fuel step max_pos (offset + step)
          (results ++ [rebase offset res])
    end
  else Ok results.

Definition chunked_alignment_fuel (fuel : nat)
  : outcome (list LocalAlignment) :=
  if decide (chunk_size ≤ 0 ∨ overlap < 0 ∨ overlap >= chunk_size) then
    Raise ValueError
  else
    let step := chunk_size - overlap in
    let max_pos := Z.min (len genome_a) (len genome_b) in
    chunk_loop fuel step max_pos 0 [].

(** The offset grows by [step ≥ 1] at every iteration, so [max_pos]
    iterations are enough (see [chunked_alignment_fuel_enough]). *)
Definition chunked_alignment : outcome (list LocalAlignment) :=
  chunked_alignment_fuel (Z.to_nat (Z.min (len genome_a) (len genome_b))).

End chunked_alignment.

(** A string literal as a Python [str]. *)
Definition py_str (x : string) : str := String.list_ascii_of_string x.

(** * Vocabulary of the properties *)

(** The content of cell [(i, j)] of a list of rows, for indices counted
    from the front. *)
Definition cell {A} (M : list (list A)) (i j : Z) : option A :=
  row ← M !! Z.to_nat i; row !! Z.to_nat j.

(** A missing cell read as the [IndexError] the code would raise. *)
Definition outcome_of {A} (o : option A) : outcome A :=
  match o with Some x => Ok x | None => Raise IndexError end.

(** The pointer lines 46-51 of ex1.py record: diagonal first, then up,
    then left. *)
Definition nw_choice (best diag up : Z) : pointer :=
  if decide (best = diag) then PDiag
  else if decide (best = up) then PUp
  else PLeft.

Section nw_vocabulary.
Variables (seq1 seq2 : str) (match_score mismatch_score gap_penalty : Z).

Local Abbreviation n := (len seq1).
Local Abbreviation m := (len seq2).

(** Cell [(i, j)] holds what lines 39-53 compute from its three
    neighbours. *)
Definition nw_rec (S : list (list Z)) (P : list (list pointer)) (i j : Z)
  : Prop :=
  ∃ d u l c1 c2,
    cell S (i - 1) (j - 1) = Some d ∧
    cell S (i - 1) j = Some u ∧
    cell S i (j - 1) = Some l ∧
    seq1 !! Z.to_nat (i - 1) = Some c1 ∧
    seq2 !! Z.to_nat (j - 1) = Some c2 ∧
    let diag := d + (if decide (c1 = c2) then match_score else mismatch_score) in
    let up := u + gap_penalty in
    let left := l + gap_penalty in
    let best := Z.max (Z.max diag up) left in
    cell S i j = Some best ∧ cell P i j = Some (nw_choice best diag up).

(** The state of the matrices when the first border loop has reached
    [k1], the second [k2], and the double loop cell [(i, j)]. *)
Record nw_inv (k1 k2 i j : Z) (S : list (list Z)) (P : list (list pointer))
  : Prop := {
  nw_inv_S : ∀ a b, 0 ≤ a ≤ n → 0 ≤ b ≤ m → is_Some (cell S a b);
  nw_inv_P : ∀ a b, 0 ≤ a ≤ n → 0 ≤ b ≤ m → is_Some (cell P a b);
  nw_inv_col : ∀ a, 0 ≤ a < k1 → cell S a 0 = Some (a * gap_penalty);
  nw_inv_up : ∀ a, 1 ≤ a < k1 → cell P a 0 = Some PUp;
  nw_inv_row : ∀ b, 0 ≤ b < k2 → cell S 0 b = Some (b * gap_penalty);
  nw_inv_left : ∀ b, 1 ≤ b < k2 → cell P 0 b = Some PLeft;
  nw_inv_rec : ∀ a b, 1 ≤ a ≤ n → 1 ≤ b ≤ m →
    a < i ∨ (a = i ∧ b < j) → nw_rec S P a b
}.

(** What the traceback needs of the pointer matrix: its cells exist and
    its borders point up and left. *)
Record nw_pointers_ok (P : list (list pointer)) : Prop := {
  nw_ok_cells : ∀ a b, 0 ≤ a ≤ n → 0 ≤ b ≤ m → is_Some (cell P a b);
  nw_ok_up : ∀ a, 1 ≤ a ≤ n → cell P a 0 = Some PUp;
  nw_ok_left : ∀ b, 1 ≤ b ≤ m → cell P 0 b = Some PLeft
}.

End nw_vocabulary.

(** [gap_insertion s t]: the string [t] is [s] with gap characters
    inserted, all characters of [s] kept in order. *)
Inductive gap_insertion : str → str → Prop :=
| gap_insertion_nil : gap_insertion [] []
| gap_insertion_keep c s t :
    gap_insertion s t → gap_insertion (c :: s) (c :: t)
| gap_insertion_gap s t :
    gap_insertion s t → gap_insertion s (gap_char :: t).

(** [t] with its gap characters removed. *)
Definition ungap (t : str) : str := filter (λ c, c ≠ gap_char) t.

(** The guarded quotient [100.0 * num / den if guard else 0.0] as a
    number. *)
Definition percent_value (num den guard : Z) : Q :=
  if decide (guard = 0) then 0%Q else (100 * inject_Z num / inject_Z den)%Q.

(** The pointer code lines 51-58 of ex2.py record: stop on a zero cell,
    else diagonal first, then up, then left. *)
Definition sw_choice (best diag up : Z) : Z :=
  if decide (best = 0) then 0
  else if decide (best = diag) then 1
  else if decide (best = up) then 2
  else 3.

(** [(a, b)] comes before [(i, j)] in the row by row scan. *)
Definition scanned_before (a b i j : Z) : Prop := a < i ∨ (a = i ∧ b < j).

Section sw_vocabulary.
Variables (a b : str) (match_ mismatch gap : Z).

Local Abbreviation n := (len a).
Local Abbreviation m := (len b).

(** Cell [(i, j)] holds what lines 46-58 compute from its three
    neighbours. *)
Definition sw_rec (S P : list (list Z)) (i j : Z) : Prop :=
  ∃ d u l c1 c2,
    cell S (i - 1) (j - 1) = Some d ∧
    cell S (i - 1) j = Some u ∧
    cell S i (j - 1) = Some l ∧
    a !! Z.to_nat (i - 1) = Some c1 ∧
    b !! Z.to_nat (j - 1) = Some c2 ∧
    let diag := d + (if decide (c1 = c2) then match_ else mismatch) in
    let up := u + gap in
    let left := l + gap in
    let best := Z.max (Z.max (Z.max 0 diag) up) left in
    cell S i j = Some best ∧ cell P i j = Some (sw_choice best diag up).

(** The best score and its position when the scan has reached [(i, j)]:
    either nothing positive was seen and the position is still [(0, 0)],
    or the position is the first scanned cell holding the best score. *)
Definition sw_best_ok (S : list (list Z)) (i j best_score : Z)
    (best_pos : Z * Z) : Prop :=
  (∀ p q v, 1 ≤ p ≤ n → 1 ≤ q ≤ m → scanned_before p q i j →
     cell S p q = Some v → v ≤ best_score) ∧
  ((best_score = 0 ∧ best_pos = (0, 0)) ∨
   (0 < best_score ∧
    1 ≤ best_pos.1 ≤ n ∧ 1 ≤ best_pos.2 ≤ m ∧
    scanned_before best_pos.1 best_pos.2 i j ∧
    cell S best_pos.1 best_pos.2 = Some best_score ∧
    ∀ p q v, 1 ≤ p ≤ n → 1 ≤ q ≤ m →
      scanned_before p q best_pos.1 best_pos.2 →
      cell S p q = Some v → v < best_score)).

(** The state of [smith_waterman] when the double loop has reached cell
    [(i, j)]. *)
Record sw_inv (i j : Z) (st : sw_state) : Prop := {
  sw_inv_S : ∀ p q, 0 ≤ p ≤ n → 0 ≤ q ≤ m → is_Some (cell (sw_scores st) p q);
  sw_inv_P : ∀ p q, 0 ≤ p ≤ n → 0 ≤ q ≤ m → is_Some (cell (sw_pointers st) p q);
  sw_inv_border : ∀ p q, 0 ≤ p ≤ n → 0 ≤ q ≤ m → p = 0 ∨ q = 0 →
    cell (sw_scores st) p q = Some 0;
  sw_inv_rec : ∀ p q, 1 ≤ p ≤ n → 1 ≤ q ≤ m → scanned_before p q i j →
    sw_rec (sw_scores st) (sw_pointers st) p q;
  sw_inv_best :
    sw_best_ok (sw_scores st) i j (sw_best_score st) (sw_best_pos st)
}.

End sw_vocabulary.

(** The positional score of line 94. *)
Definition pos_score (match_ mismatch gap : Z) (s1 s2 : str) : Z :=
  count_pairs is_match s1 s2 * match_
  + count_pairs is_mismatch s1 s2 * mismatch
  + count_pairs is_gap s1 s2 * gap.

(** The record of lines 99-111, with the percentages as numbers. *)
Definition sw_record (na match_ mismatch gap : Z) (best_score : Z)
    (start_a end_a start_b end_b : Z) (s1 s2 : str) : LocalAlignment :=
  {| aligned_a := s1;
     aligned_b := s2;
     score := best_score;
     start_a := start_a;
     end_a := end_a;
     start_b := start_b;
     end_b := end_b;
     identity := percent_value (count_pairs is_match s1 s2) (len s1) (len s1);
     penalty_similarity :=
       percent_value
         (count_pairs is_match s1 s2 - count_pairs is_mismatch s1 s2
          - count_pairs is_gap s1 s2) (len s1) (len s1);
     norm_score :=
       percent_value (pos_score match_ mismatch gap s1 s2)
         (len s1 * Z.max match_ 1) (len s1);
     coverage := percent_value (len (ungap s1)) na na |}.

(** [ceil(x / y)] for a positive [y]. *)
Definition ceil_div (x y : Z) : Z := - ((- x) / y).

Section chunk_vocabulary.
Variables (genome_a genome_b : str) (chunk_size overlap : Z).
Variables (match_ mismatch gap : Z).

(** The result for the window at [offset]: lines 132-140. *)
Definition window_result (offset : Z) (res : LocalAlignment) : Prop :=
  ∃ r,
    smith_waterman (py_slice genome_a offset (offset + chunk_size))
      (py_slice genome_b offset (offset + chunk_size)) match_ mismatch gap
    = Ok r ∧
    res = rebase offset r.

End chunk_vocabulary.

(** The three candidates of a cell, read off a score matrix the way both
    aligners read them (ex1.py lines 39-43, ex2.py lines 46-48). *)
Definition candidates (seq1 seq2 : str) (match_score mismatch_score gap : Z)
    (scores : list (list Z)) (i j : Z) : outcome (Z * Z * Z) :=
  d ← py_getitem2 scores (i - 1) (j - 1);
  c1 ← py_getitem seq1 (i - 1);
  c2 ← py_getitem seq2 (j - 1);
  u ← py_getitem2 scores (i - 1) j;
  l ← py_getitem2 scores i (j - 1);
  Ok (d + (if decide (c1 = c2) then match_score else mismatch_score),
      u + gap, l + gap).

(** An alignment as the moves that build it from left to right: a
    diagonal move pairs the next characters of the two strings, an up move
    pairs the next character of the first string with a gap, a left move
    a gap with the next character of the second. *)
Inductive move : Set := MDiag | MUp | MLeft.

Section alignments.
Variables (match_score mismatch_score gap : Z).

(** The two rows and the score of the alignment of [s1] and [s2] that
    [moves] describes; [None] when the moves do not use up exactly the two
    strings. *)
Fixpoint run_moves (moves : list move) (s1 s2 : str)
  : option (str * str * Z) :=
  match moves, s1, s2 with
  | [], [], [] => Some ([], [], 0)
  | MDiag :: moves, c1 :: s1, c2 :: s2 =>
    '(t1, t2, sc) ← run_moves moves s1 s2;
    Some (c1 :: t1, c2 :: t2,
          (if decide (c1 = c2) then match_score else mismatch_score) + sc)
  | MUp :: moves, c1 :: s1, _ =>
    '(t1, t2, sc) ← run_moves moves s1 s2;
    Some (c1 :: t1, gap_char :: t2, gap + sc)
  | MLeft :: moves, _, c2 :: s2 =>
    '(t1, t2, sc) ← run_moves moves s1 s2;
    Some (gap_char :: t1, c2 :: t2, gap + sc)
  | _, _, _ => None
  end.

End alignments.

(** One step of a path through the matrix: down and right, down, or
    right. *)
Definition is_step (p q : Z * Z) : Prop :=
  (q.1 = p.1 + 1 ∧ q.2 = p.2 + 1) ∨
  (q.1 = p.1 + 1 ∧ q.2 = p.2) ∨
  (q.1 = p.1 ∧ q.2 = p.2 + 1).

(** [ascends l p]: [l] lists the cells of a path of such steps from
    [(0, 0)] to [p], both included. *)
Inductive ascends : list (Z * Z) → Z * Z → Prop :=
| ascends_start : ascends [(0, 0)] (0, 0)
| ascends_step l p q :
    ascends l p → is_step p q → ascends (l ++ [q]) q.

(** The largest absolute value among the three scores, and at least
    [1]. *)
Definition score_magnitude (match_ mismatch gap : Z) : Z :=
  Z.max 1 (Z.max (Z.abs match_) (Z.max (Z.abs mismatch) (Z.abs gap))).

(** [2 ^ 53]: every integer below it in absolute value is a binary64
    float. *)
Definition float_int_limit : Z := 9007199254740992.

(** The range in which lines 92-97 of ex2.py compute on exact values: an
    alignment of [a] and [b] has at most [len a + len b] columns, so
    within this bound every tally, every length, the positional score and
    the divisor [L * max(match, 1)], also multiplied by [100], stay below
    [2 ^ 53] in absolute value.  Their conversions to float and the
    products [100.0 * n] are then exact: no [OverflowError], no infinity,
    and each percentage is the quotient of the two integers the model
    divides, rounded once. *)
Definition float_exact (a b : str) (match_ mismatch gap : Z) : Prop :=
  100 * (len a + len b) * score_magnitude match_ mismatch gap
  < float_int_limit.

(** The same range for the windows of [chunked_alignment], none of which
    is longer than [chunk_size]. *)
Definition chunk_float_exact (chunk_size match_ mismatch gap : Z) : Prop :=
  100 * (2 * chunk_size) * score_magnitude match_ mismatch gap
  < float_int_limit.

(** * Properties *)

(** ** Reading and writing lists at positions inside their range *)

Lemma py_index_front n k : 0 ≤ k < n → py_index n k = Some (Z.to_nat k).
Proof. intros H. unfold py_index. by rewrite decide_True. Qed.

Lemma py_index_beyond n k : n ≤ k → 0 ≤ k → py_index n k = None.
Proof.
  intros H1 H2. unfold py_index.
  rewrite decide_False by lia. by rewrite decide_False by lia.
Qed.

Lemma py_getitem_front {A} (l : list A) k :
  0 ≤ k → py_getitem l k = outcome_of (l !! Z.to_nat k).
Proof.
  intros Hk. unfold py_getitem, len.
  destruct (decide (k < Z.of_nat (length l))) as [Hlt|Hge].
  - by rewrite py_index_front by lia.
  - rewrite py_index_beyond by lia.
    by rewrite (lookup_ge_None_2 l (Z.to_nat k)) by lia.
Qed.

Lemma py_getitem_Some {A} (l : list A) k x :
  0 ≤ k → l !! Z.to_nat k = Some x → py_getitem l k = Ok x.
Proof. intros Hk Hx. by rewrite py_getitem_front, Hx. Qed.

Lemma py_getitem_in_range {A} (l : list A) k :
  0 ≤ k < len l → ∃ x, l !! Z.to_nat k = Some x ∧ py_getitem l k = Ok x.
Proof.
  intros Hk. unfold len in Hk.
  destruct (lookup_lt_is_Some_2 l (Z.to_nat k)) as [x Hx]; [lia|].
  exists x. split; [done|]. apply py_getitem_Some; [lia|done].
Qed.

Lemma py_getitem2_cell {A} (M : list (list A)) i j :
  0 ≤ i → 0 ≤ j → py_getitem2 M i j = outcome_of (cell M i j).
Proof.
  intros Hi Hj. unfold py_getitem2, cell.
  rewrite py_getitem_front by done.
  destruct (M !! Z.to_nat i) as [row|]; simpl; [|done].
  by apply py_getitem_front.
Qed.

Lemma py_getitem2_Some {A} (M : list (list A)) i j x :
  0 ≤ i → 0 ≤ j → cell M i j = Some x → py_getitem2 M i j = Ok x.
Proof. intros Hi Hj Hx. by rewrite py_getitem2_cell, Hx. Qed.

Lemma py_getitem2_Ok {A} (M : list (list A)) i j x :
  0 ≤ i → 0 ≤ j → py_getitem2 M i j = Ok x → cell M i j = Some x.
Proof.
  intros Hi Hj. rewrite py_getitem2_cell by done.
  destruct (cell M i j); simpl; congruence.
Qed.

(** Writing a cell that exists succeeds, puts the value there and leaves
    every other cell as it was. *)
Lemma py_setitem2_cell {A} (M : list (list A)) i j v :
  0 ≤ i → 0 ≤ j → is_Some (cell M i j) →
  ∃ M', py_setitem2 M i j v = Ok M' ∧
    ∀ i' j', 0 ≤ i' → 0 ≤ j' →
      cell M' i' j' = if decide (i' = i ∧ j' = j) then Some v else cell M i' j'.
Proof.
  intros Hi Hj [x Hx]. unfold cell in Hx.
  destruct (M !! Z.to_nat i) as [row|] eqn:Hrow; simpl in Hx; [|done].
  assert (Z.to_nat i < length M)%nat as HiM by (by eapply lookup_lt_Some).
  assert (Z.to_nat j < length row)%nat as Hjr by (by eapply lookup_lt_Some).
  exists (<[Z.to_nat i := <[Z.to_nat j := v]> row]> M). split.
  - unfold py_setitem2. rewrite (py_getitem_Some M i row) by done. simpl.
    unfold py_setitem, len. rewrite py_index_front by lia. simpl.
    by rewrite py_index_front by lia.
  - intros i' j' Hi' Hj'. unfold cell.
    destruct (decide (i' = i ∧ j' = j)) as [[-> ->]|Hne].
    + rewrite list_lookup_insert_eq by done. simpl.
      by rewrite list_lookup_insert_eq by done.
    + destruct (decide (i' = i)) as [->|Hii].
      * rewrite list_lookup_insert_eq by done. rewrite Hrow. simpl.
        apply list_lookup_insert_ne. intros Heq. apply Hne. split; [done|lia].
      * rewrite list_lookup_insert_ne by lia. done.
Qed.

Lemma cell_py_matrix {A} (rows cols : Z) (x : A) i j :
  0 ≤ i < rows → 0 ≤ j < cols → cell (py_matrix rows cols x) i j = Some x.
Proof.
  intros Hi Hj. unfold cell, py_matrix.
  rewrite lookup_replicate_2 by lia. simpl.
  by rewrite lookup_replicate_2 by lia.
Qed.

(** Arithmetic with the lengths of the inputs. *)
Ltac len_lia := unfold len in *; lia.

(** ** Loops *)

(** A [for k in range(a, b)] loop whose body keeps an invariant and does
    not raise runs to its end. *)
Lemma for_each_range {St} (body : Z → St → outcome St) (I : Z → St → Prop)
    (a b : Z) (st : St) :
  a ≤ b → I a st →
  (∀ k st, a ≤ k < b → I k st → ∃ st', body k st = Ok st' ∧ I (k + 1) st') →
  ∃ st', for_each (py_range a b) body st = Ok st' ∧ I b st'.
Proof.
  intros Hab. unfold py_range.
  remember (Z.to_nat (b - a)) as d eqn:Hd.
  revert a st Hab Hd. induction d as [|d IH]; intros a st Hab Hd Ha Hstep.
  - assert (a = b) as -> by lia. rewrite seqZ_nil by lia. by exists st.
  - rewrite seqZ_cons by lia. simpl.
    destruct (Hstep a st) as (st1 & -> & H1); [lia|done|]. simpl.
    replace (Z.pred (b - a)) with (b - Z.succ a) by lia.
    replace (a + 1) with (Z.succ a) in H1 by lia.
    apply IH; [lia|lia|done|].
    intros k st2 Hk. apply Hstep. lia.
Qed.

Lemma outcome_bind_Ok {A B} (f : A → outcome B) (x : outcome A) (y : B) :
  x ≫= f = Ok y → ∃ a, x = Ok a ∧ f a = Ok y.
Proof. destruct x; simpl; [eauto|done|done]. Qed.

(** ** The matrices of the global aligner *)

Section nw_fill_proofs.
Variables (seq1 seq2 : str) (match_score mismatch_score gap_penalty : Z).

Local Abbreviation n := (len seq1).
Local Abbreviation m := (len seq2).

Local Abbreviation nw_rec :=
  (nw_rec seq1 seq2 match_score mismatch_score gap_penalty).
Local Abbreviation nw_inv :=
  (nw_inv seq1 seq2 match_score mismatch_score gap_penalty).

Lemma nw_inv_init :
  nw_inv 1 1 1 1 (py_matrix (n + 1) (m + 1) 0) (py_matrix (n + 1) (m + 1) PNone).
Proof.
  split; intros; try lia.
  - rewrite cell_py_matrix by lia. eauto.
  - rewrite cell_py_matrix by lia. eauto.
  - assert (a = 0) as -> by lia.
    rewrite cell_py_matrix by (unfold len; lia). done.
  - assert (b = 0) as -> by lia.
    rewrite cell_py_matrix by (unfold len; lia). done.
Qed.

(** A cell computed earlier in the scan is not affected by writing
    cell [(i, j)]. *)
Lemma nw_rec_frame S P S' P' i j vS vP a b :
  1 ≤ a → 1 ≤ b → a < i ∨ (a = i ∧ b < j) →
  (∀ i' j', 0 ≤ i' → 0 ≤ j' →
     cell S' i' j' = if decide (i' = i ∧ j' = j) then Some vS else cell S i' j') →
  (∀ i' j', 0 ≤ i' → 0 ≤ j' →
     cell P' i' j' = if decide (i' = i ∧ j' = j) then Some vP else cell P i' j') →
  nw_rec S P a b → nw_rec S' P' a b.
Proof.
  intros Ha Hb Hlt HS HP (d & u & l & c1 & c2 & Hd & Hu & Hl & H1 & H2 & Hs & Hp).
  exists d, u, l, c1, c2.
  cbv zeta. rewrite !HS, HP by lia.
  rewrite !(decide_False (P := _ ∧ _)) by lia.
  repeat split; done.
Qed.

Lemma nw_border_col_step k S P :
  1 ≤ k ≤ n → nw_inv k 1 1 1 S P →
  ∃ st', nw_border_col gap_penalty k (S, P) = Ok st' ∧
         nw_inv (k + 1) 1 1 1 st'.1 st'.2.
Proof.
  intros Hk [HS HP Hcol Hup Hrow Hleft Hrec].
  destruct (py_setitem2_cell S k 0 ((k - 1) * gap_penalty + gap_penalty))
    as (S' & HS' & HSc); [lia|lia|apply HS; len_lia|].
  destruct (py_setitem2_cell P k 0 PUp)
    as (P' & HP' & HPc); [lia|lia|apply HP; len_lia|].
  exists (S', P'). split.
  - unfold nw_border_col.
    rewrite (py_getitem2_Some S (k - 1) 0 ((k - 1) * gap_penalty))
      by (try apply Hcol; lia).
    simpl. rewrite HS'. simpl. rewrite HP'. done.
  - simpl. split; intros.
    + rewrite HSc by lia. case_decide; [eauto|by apply HS].
    + rewrite HPc by lia. case_decide; [eauto|by apply HP].
    + rewrite HSc by lia. case_decide as Hc.
      * destruct Hc as [-> _]. f_equal. lia.
      * apply Hcol. lia.
    + rewrite HPc by lia. case_decide; [done|]. apply Hup. lia.
    + rewrite HSc by lia. rewrite decide_False by lia. by apply Hrow.
    + lia.
    + lia.
Qed.

Lemma nw_border_row_step k S P :
  1 ≤ k ≤ m → nw_inv (n + 1) k 1 1 S P →
  ∃ st', nw_border_row gap_penalty k (S, P) = Ok st' ∧
         nw_inv (n + 1) (k + 1) 1 1 st'.1 st'.2.
Proof.
  intros Hk [HS HP Hcol Hup Hrow Hleft Hrec].
  destruct (py_setitem2_cell S 0 k ((k - 1) * gap_penalty + gap_penalty))
    as (S' & HS' & HSc); [lia|lia|apply HS; len_lia|].
  destruct (py_setitem2_cell P 0 k PLeft)
    as (P' & HP' & HPc); [lia|lia|apply HP; len_lia|].
  exists (S', P'). split.
  - unfold nw_border_row.
    rewrite (py_getitem2_Some S 0 (k - 1) ((k - 1) * gap_penalty))
      by (try apply Hrow; lia).
    simpl. rewrite HS'. simpl. rewrite HP'. done.
  - simpl. split; intros.
    + rewrite HSc by lia. case_decide; [eauto|by apply HS].
    + rewrite HPc by lia. case_decide; [eauto|by apply HP].
    + rewrite HSc by lia. rewrite decide_False by lia. by apply Hcol.
    + rewrite HPc by lia. rewrite decide_False by lia. by apply Hup.
    + rewrite HSc by lia. case_decide as Hc.
      * destruct Hc as [_ ->]. f_equal. lia.
      * apply Hrow. lia.
    + rewrite HPc by lia. case_decide; [done|]. apply Hleft. lia.
    + lia.
Qed.

Lemma nw_cell_step i j S P :
  1 ≤ i ≤ n → 1 ≤ j ≤ m → nw_inv (n + 1) (m + 1) i j S P →
  ∃ st', nw_cell seq1 seq2 match_score mismatch_score gap_penalty i j (S, P)
           = Ok st' ∧
         nw_inv (n + 1) (m + 1) i (j + 1) st'.1 st'.2.
Proof.
  intros Hi Hj [HS HP Hcol Hup Hrow Hleft Hrec].
  destruct (HS (i - 1) (j - 1)) as [d Hd]; [lia..|].
  destruct (HS (i - 1) j) as [u Hu]; [lia..|].
  destruct (HS i (j - 1)) as [l Hl]; [lia..|].
  destruct (py_getitem_in_range seq1 (i - 1)) as (c1 & Hc1 & Hg1); [lia|].
  destruct (py_getitem_in_range seq2 (j - 1)) as (c2 & Hc2 & Hg2); [lia|].
  set (diag := d + (if decide (c1 = c2) then match_score else mismatch_score)).
  set (up := u + gap_penalty).
  set (left := l + gap_penalty).
  set (best := Z.max (Z.max diag up) left).
  destruct (py_setitem2_cell P i j (nw_choice best diag up))
    as (P' & HP' & HPc); [lia|lia|apply HP; lia|].
  destruct (py_setitem2_cell S i j best)
    as (S' & HS' & HSc); [lia|lia|apply HS; lia|].
  exists (S', P'). split.
  - unfold nw_cell.
    rewrite (py_getitem2_Some S (i - 1) (j - 1) d) by (done || lia).
    rewrite (py_getitem2_Some S (i - 1) j u) by (done || lia).
    rewrite (py_getitem2_Some S i (j - 1) l) by (done || lia).
    rewrite Hg1, Hg2. simpl.
    fold diag up left best.
    replace (if decide (best = diag) then py_setitem2 P i j PDiag
             else if decide (best = up) then py_setitem2 P i j PUp
             else py_setitem2 P i j PLeft)
      with (py_setitem2 P i j (nw_choice best diag up))
      by (unfold nw_choice; repeat case_decide; done).
    rewrite HP'. simpl. rewrite HS'. done.
  - simpl. split; intros.
    + rewrite HSc by lia. case_decide; [eauto|by apply HS].
    + rewrite HPc by lia. case_decide; [eauto|by apply HP].
    + rewrite HSc by lia. rewrite decide_False by lia. by apply Hcol.
    + rewrite HPc by lia. rewrite decide_False by lia. by apply Hup.
    + rewrite HSc by lia. rewrite decide_False by lia. by apply Hrow.
    + rewrite HPc by lia. rewrite decide_False by lia. by apply Hleft.
    + destruct (decide (a = i ∧ b = j)) as [[-> ->]|Hne].
      * exists d, u, l, c1, c2.
        cbv zeta. rewrite !HSc, HPc by lia.
        rewrite !(decide_False (P := _ ∧ _)) by lia.
        rewrite !(decide_True (P := _ ∧ _)) by done. repeat split; done.
      * eapply nw_rec_frame; [| | |exact HSc|exact HPc|apply Hrec]; lia.
Qed.

(** The three loops of [needleman_wunsch] run to their end and leave the
    matrices in the state [nw_inv] describes. *)
Lemma nw_fill_spec :
  ∃ S P, nw_fill seq1 seq2 match_score mismatch_score gap_penalty = Ok (S, P) ∧
         nw_inv (n + 1) (m + 1) (n + 1) 1 S P.
Proof.
  unfold nw_fill.
  destruct (for_each_range (nw_border_col gap_penalty)
              (λ k st, nw_inv k 1 1 1 st.1 st.2) 1 (n + 1)
              (py_matrix (n + 1) (m + 1) 0, py_matrix (n + 1) (m + 1) PNone))
    as ([S1 P1] & -> & H1).
  { len_lia. }
  { apply nw_inv_init. }
  { intros k [S P] Hk HI. apply nw_border_col_step; [lia|done]. }
  simpl.
  destruct (for_each_range (nw_border_row gap_penalty)
              (λ k st, nw_inv (n + 1) k 1 1 st.1 st.2) 1 (m + 1) (S1, P1))
    as ([S2 P2] & -> & H2).
  { len_lia. }
  { done. }
  { intros k [S P] Hk HI. apply nw_border_row_step; [lia|done]. }
  simpl.
  destruct (for_each_range
              (λ i, for_each (py_range 1 (m + 1))
                 (nw_cell seq1 seq2 match_score mismatch_score gap_penalty i))
              (λ i st, nw_inv (n + 1) (m + 1) i 1 st.1 st.2) 1 (n + 1) (S2, P2))
    as ([S3 P3] & -> & H3).
  { len_lia. }
  { done. }
  { intros i [S P] Hi HI.
    destruct (for_each_range
                (nw_cell seq1 seq2 match_score mismatch_score gap_penalty i)
                (λ j st, nw_inv (n + 1) (m + 1) i j st.1 st.2) 1 (m + 1) (S, P))
      as ([S' P'] & -> & H').
    { len_lia. }
    { done. }
    { intros j [S0 P0] Hj HJ. apply nw_cell_step; [lia|lia|done]. }
    eexists; split; [done|]. simpl in *.
    destruct H' as [HS HP Hcol Hup Hrow Hleft Hrec].
    split; try done. intros a b Ha Hb Hlt. apply Hrec; lia. }
  by exists S3, P3.
Qed.

End nw_fill_proofs.

(** ** Aligned strings *)

Lemma gap_insertion_app s1 t1 s2 t2 :
  gap_insertion s1 t1 → gap_insertion s2 t2 →
  gap_insertion (s1 ++ s2) (t1 ++ t2).
Proof. induction 1; intros; simpl; [done|constructor; auto..]. Qed.

Lemma gap_insertion_snoc_keep s t c :
  gap_insertion s t → gap_insertion (s ++ [c]) (t ++ [c]).
Proof.
  intros. apply gap_insertion_app; [done|]. repeat constructor.
Qed.

Lemma gap_insertion_snoc_gap s t :
  gap_insertion s t → gap_insertion s (t ++ [gap_char]).
Proof.
  intros. rewrite <- (app_nil_r s).
  apply gap_insertion_app; [done|]. repeat constructor.
Qed.

Lemma gap_insertion_length s t :
  gap_insertion s t → (length s ≤ length t)%nat.
Proof. induction 1; simpl; lia. Qed.

Lemma gap_insertion_ungap s t :
  gap_insertion s t → gap_char ∉ s → ungap t = s.
Proof.
  unfold ungap. induction 1 as [|c s t _ IH|s t _ IH]; intros Hs.
  - done.
  - apply not_elem_of_cons in Hs as [Hc Hs].
    rewrite filter_cons_True by done. f_equal. auto.
  - rewrite filter_cons_False by (intros Hne; by apply Hne). auto.
Qed.

(** ** The traceback of the global aligner *)

Section nw_traceback_proofs.
Variables (seq1 seq2 : str).

Local Abbreviation n := (len seq1).
Local Abbreviation m := (len seq2).

Local Abbreviation nw_pointers_ok := (nw_pointers_ok seq1 seq2).

Lemma take_to_nat_snoc (l : str) i c :
  1 ≤ i → l !! Z.to_nat (i - 1) = Some c →
  take (Z.to_nat i) l = take (Z.to_nat (i - 1)) l ++ [c].
Proof.
  intros Hi Hc. replace (Z.to_nat i) with (S (Z.to_nat (i - 1))) by lia.
  by apply take_S_r.
Qed.

Lemma nw_traceback_spec P fuel : nw_pointers_ok P →
  ∀ i j aligned1 aligned2 path,
  0 ≤ i ≤ n → 0 ≤ j ≤ m → (Z.to_nat (i + j) ≤ fuel)%nat →
  ∃ t1 t2 path',
    nw_traceback seq1 seq2 fuel P i j aligned1 aligned2 path
      = Ok (aligned1 ++ t1, aligned2 ++ t2, path') ∧
    length t1 = length t2 ∧
    gap_insertion (take (Z.to_nat i) seq1) (reverse t1) ∧
    gap_insertion (take (Z.to_nat j) seq2) (reverse t2).
Proof.
  intros [Hcells Hup Hleft].
  induction fuel as [|fuel IH]; intros i j al1 al2 path Hi Hj Hfuel.
  - assert (i = 0 ∧ j = 0) as [-> ->] by lia. simpl.
    exists [], [], path. rewrite !app_nil_r. repeat split; constructor.
  - simpl. case_decide as Hgo.
    2:{ assert (i = 0 ∧ j = 0) as [-> ->] by lia.
        exists [], [], path. rewrite !app_nil_r. repeat split; constructor. }
    destruct (Hcells i j) as [mv Hmv]; [lia..|].
    rewrite (py_getitem2_Some P i j mv) by (done || lia). simpl.
    assert (mv = PDiag → 1 ≤ i ∧ 1 ≤ j) as Hdiag.
    { intros ->. destruct (decide (i = 0)) as [->|];
        [rewrite Hleft in Hmv by lia; done|].
      destruct (decide (j = 0)) as [->|];
        [rewrite Hup in Hmv by lia; done|]. lia. }
    assert (mv = PUp → 1 ≤ i) as Hmup.
    { intros ->. destruct (decide (i = 0)) as [->|];
        [rewrite Hleft in Hmv by lia; done|]. lia. }
    assert (mv ≠ PDiag → mv ≠ PUp → 1 ≤ j) as Hmleft.
    { intros ??. destruct (decide (j = 0)) as [->|];
        [rewrite Hup in Hmv by lia; congruence|]. lia. }
    destruct mv.
    + assert (1 ≤ j) by (apply Hmleft; done).
      destruct (py_getitem_in_range seq2 (j - 1))
        as (c2 & Hc2 & ->); [lia|]. simpl.
      destruct (IH i (j - 1) (al1 ++ [gap_char]) (al2 ++ [c2])
                  (path ++ [(i, j)]))
        as (t1 & t2 & path' & -> & Hlen & H1 & H2); [lia..|].
      exists (gap_char :: t1), (c2 :: t2), path'.
      rewrite <- !app_assoc. simpl. split; [done|]. split; [lia|].
      rewrite !reverse_cons, (take_to_nat_snoc seq2 j c2) by (done || lia).
      split; [by apply gap_insertion_snoc_gap|by apply gap_insertion_snoc_keep].
    + destruct Hdiag as [??]; [done|].
      destruct (py_getitem_in_range seq1 (i - 1))
        as (c1 & Hc1 & ->); [lia|]. simpl.
      destruct (py_getitem_in_range seq2 (j - 1))
        as (c2 & Hc2 & ->); [lia|]. simpl.
      destruct (IH (i - 1) (j - 1) (al1 ++ [c1]) (al2 ++ [c2])
                  (path ++ [(i, j)]))
        as (t1 & t2 & path' & -> & Hlen & H1 & H2); [lia..|].
      exists (c1 :: t1), (c2 :: t2), path'.
      rewrite <- !app_assoc. simpl. split; [done|]. split; [lia|].
      rewrite !reverse_cons, (take_to_nat_snoc seq1 i c1),
        (take_to_nat_snoc seq2 j c2) by (done || lia).
      split; by apply gap_insertion_snoc_keep.
    + assert (1 ≤ i) by (by apply Hmup).
      destruct (py_getitem_in_range seq1 (i - 1))
        as (c1 & Hc1 & ->); [lia|]. simpl.
      destruct (IH (i - 1) j (al1 ++ [c1]) (al2 ++ [gap_char])
                  (path ++ [(i, j)]))
        as (t1 & t2 & path' & -> & Hlen & H1 & H2); [lia..|].
      exists (c1 :: t1), (gap_char :: t2), path'.
      rewrite <- !app_assoc. simpl. split; [done|]. split; [lia|].
      rewrite !reverse_cons, (take_to_nat_snoc seq1 i c1) by (done || lia).
      split; [by apply gap_insertion_snoc_keep|by apply gap_insertion_snoc_gap].
    + assert (1 ≤ j) by (apply Hmleft; done).
      destruct (py_getitem_in_range seq2 (j - 1))
        as (c2 & Hc2 & ->); [lia|]. simpl.
      destruct (IH i (j - 1) (al1 ++ [gap_char]) (al2 ++ [c2])
                  (path ++ [(i, j)]))
        as (t1 & t2 & path' & -> & Hlen & H1 & H2); [lia..|].
      exists (gap_char :: t1), (c2 :: t2), path'.
      rewrite <- !app_assoc. simpl. split; [done|]. split; [lia|].
      rewrite !reverse_cons, (take_to_nat_snoc seq2 j c2) by (done || lia).
      split; [by apply gap_insertion_snoc_gap|by apply gap_insertion_snoc_keep].
Qed.

(** More fuel than the loop needs changes nothing. *)
Lemma nw_traceback_more_fuel P fuel fuel' i j aligned1 aligned2 path r :
  (fuel ≤ fuel')%nat →
  nw_traceback seq1 seq2 fuel P i j aligned1 aligned2 path = Ok r →
  nw_traceback seq1 seq2 fuel' P i j aligned1 aligned2 path = Ok r.
Proof.
  revert fuel' i j aligned1 aligned2 path.
  induction fuel as [|fuel IH]; intros fuel' i j al1 al2 path Hle.
  - simpl. case_decide; [done|]. intros <-.
    destruct fuel'; simpl; by rewrite decide_False.
  - destruct fuel' as [|fuel']; [lia|]. simpl.
    case_decide; [|done].
    destruct (py_getitem2 P i j) as [mv| |]; simpl; [|done..].
    destruct mv;
      repeat match goal with
      | |- context [py_getitem ?l ?k] =>
          destruct (py_getitem l k); simpl; [|done..]
      end; apply IH; lia.
Qed.

End nw_traceback_proofs.

(** ** Percentages and tallies *)

(** The division is never reached with a zero divisor when the divisor
    is zero only if the guard is. *)
Lemma percent_guarded num den guard :
  (den = 0 → guard = 0) →
  percent num den guard = Ok (percent_value num den guard).
Proof.
  intros Hden. unfold percent, percent_value, py_truediv.
  destruct (decide (guard = 0)) as [->|Hg].
  - by rewrite decide_False by (intros H; by apply H).
  - rewrite decide_True by done. rewrite decide_False by auto. done.
Qed.

Lemma count_pairs_diag (t : str) : count_pairs char_eqb t t = len t.
Proof.
  unfold count_pairs, len. f_equal.
  induction t as [|c t IH]; simpl; [done|].
  rewrite filter_cons_True by (simpl; unfold char_eqb; by rewrite bool_decide_true).
  simpl. by rewrite IH.
Qed.

(** ** The global aligner as a whole *)

Section nw_whole.
Variables (seq1 seq2 : str) (match_score mismatch_score gap_penalty : Z).

Local Abbreviation n := (len seq1).
Local Abbreviation m := (len seq2).

Lemma nw_inv_pointers_ok i j S P :
  nw_inv seq1 seq2 match_score mismatch_score gap_penalty (n + 1) (m + 1) i j S P →
  nw_pointers_ok seq1 seq2 P.
Proof.
  intros [HS HP Hcol Hup Hrow Hleft Hrec].
  split; [done|intros; apply Hup; lia|intros; apply Hleft; lia].
Qed.

(** The record [needleman_wunsch] returns, from the matrices and the
    strings the traceback collected. *)
Lemma needleman_wunsch_unfold fuel S P t1 t2 pth :
  nw_fill seq1 seq2 match_score mismatch_score gap_penalty = Ok (S, P) →
  nw_traceback seq1 seq2 fuel P n m [] [] [] = Ok (t1, t2, pth) →
  needleman_wunsch_fuel seq1 seq2 match_score mismatch_score gap_penalty fuel
  = Ok {| aligned_seq1 := reverse t1;
          aligned_seq2 := reverse t2;
          matches := count_pairs char_eqb (reverse t1) (reverse t2);
          aln_length := len (reverse t1);
          similarity :=
            percent_value (count_pairs char_eqb (reverse t1) (reverse t2))
              (len (reverse t1)) (len (reverse t1));
          score_matrix := S;
          path := reverse (pth ++ [(0, 0)]) |}.
Proof.
  intros Hfill Htb. unfold needleman_wunsch_fuel.
  rewrite Hfill. simpl. rewrite Htb. simpl.
  by rewrite percent_guarded.
Qed.

Lemma needleman_wunsch_fuel_spec fuel :
  (length seq1 + length seq2 ≤ fuel)%nat →
  ∃ r S P,
    nw_fill seq1 seq2 match_score mismatch_score gap_penalty = Ok (S, P) ∧
    needleman_wunsch_fuel seq1 seq2 match_score mismatch_score gap_penalty fuel
      = Ok r ∧
    score_matrix r = S ∧
    length (aligned_seq1 r) = length (aligned_seq2 r) ∧
    gap_insertion seq1 (aligned_seq1 r) ∧
    gap_insertion seq2 (aligned_seq2 r).
Proof.
  intros Hfuel.
  destruct (nw_fill_spec seq1 seq2 match_score mismatch_score gap_penalty)
    as (S & P & Hfill & Hinv).
  destruct (nw_traceback_spec seq1 seq2 P fuel
              (nw_inv_pointers_ok _ _ _ _ Hinv) n m [] [] [])
    as (t1 & t2 & pth & Htb & Hlen & H1 & H2); [len_lia..|].
  simpl in Htb.
  eexists _, S, P. split; [done|].
  split; [exact (needleman_wunsch_unfold fuel S P t1 t2 pth Hfill Htb)|]. simpl.
  unfold len in H1, H2. rewrite Nat2Z.id, firstn_all in H1, H2.
  rewrite !length_reverse. done.
Qed.

(** The fuel [needleman_wunsch] passes is enough: any larger amount
    gives the same result. *)
Lemma needleman_wunsch_fuel_enough fuel :
  (length seq1 + length seq2 ≤ fuel)%nat →
  needleman_wunsch_fuel seq1 seq2 match_score mismatch_score gap_penalty fuel
  = needleman_wunsch seq1 seq2 match_score mismatch_score gap_penalty.
Proof.
  intros Hfuel. unfold needleman_wunsch.
  destruct (needleman_wunsch_fuel_spec (length seq1 + length seq2))
    as (r & S & P & Hfill & Hr & _); [done|].
  rewrite Hr. revert Hr. unfold needleman_wunsch_fuel. rewrite Hfill. simpl.
  intros Hr. apply outcome_bind_Ok in Hr as (tb & Htb & Hres).
  by rewrite (nw_traceback_more_fuel _ _ _ _ fuel _ _ _ _ _ _ Hfuel Htb).
Qed.

End nw_whole.

(** ** Aligning a sequence with itself *)

Section nw_self.
Variables (seq : str) (S : list (list Z)) (P : list (list pointer)).

Local Abbreviation n := (len seq).

Hypothesis Hinv : nw_inv seq seq 1 (-1) 0 (n + 1) (n + 1) (n + 1) 1 S P.

(** With scores [1], [-1] and [0] no cell exceeds the smaller of its two
    coordinates. *)
Lemma nw_self_bound (k : nat) : ∀ i j v,
  0 ≤ i ≤ n → 0 ≤ j ≤ n → i + j ≤ Z.of_nat k →
  cell S i j = Some v → v ≤ Z.min i j.
Proof.
  destruct Hinv as [HS HP Hcol Hup Hrow Hleft Hrec].
  induction k as [|k IH]; intros i j v Hi Hj Hk Hv.
  - assert (i = 0 ∧ j = 0) as [-> ->] by lia.
    rewrite Hcol in Hv by lia. injection Hv as <-. lia.
  - destruct (decide (i = 0)) as [->|Hi0].
    { rewrite Hrow in Hv by lia. injection Hv as <-. lia. }
    destruct (decide (j = 0)) as [->|Hj0].
    { rewrite Hcol in Hv by lia. injection Hv as <-. lia. }
    destruct (Hrec i j) as (d & u & l & c1 & c2 & Hd & Hu & Hl & _ & _ & Hb & _);
      [lia..|].
    rewrite Hv in Hb. injection Hb as ->.
    apply IH in Hd; [|lia..]. apply IH in Hu; [|lia..].
    apply IH in Hl; [|lia..].
    case_decide; lia.
Qed.

(** The diagonal holds [0, 1, 2, ...] and points diagonally. *)
Lemma nw_self_diag (k : nat) :
  Z.of_nat k ≤ n →
  cell S (Z.of_nat k) (Z.of_nat k) = Some (Z.of_nat k) ∧
  (1 ≤ Z.of_nat k → cell P (Z.of_nat k) (Z.of_nat k) = Some PDiag).
Proof.
  pose proof Hinv as [HS HP Hcol Hup Hrow Hleft Hrec].
  induction k as [|k IH]; intros Hk.
  - split; [|lia]. rewrite Hcol by lia. done.
  - destruct IH as [IH _]; [lia|].
    destruct (Hrec (Z.of_nat (Datatypes.S k)) (Z.of_nat (Datatypes.S k)))
      as (d & u & l & c1 & c2 & Hd & Hu & Hl & Hc1 & Hc2 & Hb & Hp); [lia..|].
    replace (Z.of_nat (Datatypes.S k) - 1) with (Z.of_nat k) in * by lia.
    rewrite IH in Hd. injection Hd as <-.
    rewrite Hc1 in Hc2. injection Hc2 as <-.
    apply (nw_self_bound (k + Datatypes.S k)) in Hu; [|lia..].
    apply (nw_self_bound (Datatypes.S k + k)) in Hl; [|lia..].
    rewrite decide_True in Hb, Hp by done.
    replace (Z.max (Z.max (Z.of_nat k + 1) (u + 0)) (l + 0))
      with (Z.of_nat k + 1) in Hb, Hp by lia.
    split; [rewrite Hb; f_equal; lia|].
    intros _. rewrite Hp. unfold nw_choice. by rewrite decide_True.
Qed.

(** The traceback from a diagonal cell walks the diagonal. *)
Lemma nw_traceback_self fuel : ∀ (k : nat) aligned1 aligned2 pth,
  Z.of_nat k ≤ n → (k ≤ fuel)%nat →
  ∃ pth',
    nw_traceback seq seq fuel P (Z.of_nat k) (Z.of_nat k) aligned1 aligned2 pth
    = Ok (aligned1 ++ reverse (take k seq), aligned2 ++ reverse (take k seq),
          pth').
Proof.
  induction fuel as [|fuel IH]; intros k al1 al2 pth Hk Hfuel.
  - assert (k = 0%nat) as -> by lia. simpl.
    exists pth. by rewrite !app_nil_r.
  - simpl. case_decide as Hgo.
    2:{ assert (k = 0%nat) as -> by lia. exists pth. by rewrite !app_nil_r. }
    destruct (nw_self_diag k) as [_ Hp]; [done|].
    rewrite (py_getitem2_Some P _ _ PDiag) by (try apply Hp; lia). simpl.
    destruct k as [|k]; [lia|].
    replace (Z.of_nat (Datatypes.S k) - 1) with (Z.of_nat k) by lia.
    destruct (py_getitem_in_range seq (Z.of_nat k)) as (c & Hc & ->); [lia|].
    simpl. rewrite Nat2Z.id in Hc.
    destruct (IH k (al1 ++ [c]) (al2 ++ [c])
                (pth ++ [(Z.of_nat (Datatypes.S k), Z.of_nat (Datatypes.S k))]))
      as (pth' & ->); [lia..|].
    exists pth'. rewrite (take_S_r seq k c), reverse_snoc by done.
    by rewrite <- !app_assoc.
Qed.

End nw_self.

(** ** The matrices of the local aligner *)

Section sw_fill_proofs.
Variables (a b : str) (match_ mismatch gap : Z).

Local Abbreviation n := (len a).
Local Abbreviation m := (len b).

Local Abbreviation sw_rec := (sw_rec a b match_ mismatch gap).
Local Abbreviation sw_best_ok := (sw_best_ok a b).
Local Abbreviation sw_inv := (sw_inv a b match_ mismatch gap).

Lemma sw_inv_init :
  sw_inv 1 1 {| sw_scores := py_matrix (n + 1) (m + 1) 0;
                sw_pointers := py_matrix (n + 1) (m + 1) 0;
                sw_best_score := 0; sw_best_pos := (0, 0) |}.
Proof.
  split; simpl; unfold sw_best_ok, scanned_before; intros.
  - rewrite cell_py_matrix by lia. eauto.
  - rewrite cell_py_matrix by lia. eauto.
  - rewrite cell_py_matrix by lia. done.
  - lia.
  - split; [intros; lia|by left].
Qed.

Lemma sw_rec_frame S P S' P' i j vS vP p q :
  1 ≤ p → 1 ≤ q → scanned_before p q i j →
  (∀ i' j', 0 ≤ i' → 0 ≤ j' →
     cell S' i' j' = if decide (i' = i ∧ j' = j) then Some vS else cell S i' j') →
  (∀ i' j', 0 ≤ i' → 0 ≤ j' →
     cell P' i' j' = if decide (i' = i ∧ j' = j) then Some vP else cell P i' j') →
  sw_rec S P p q → sw_rec S' P' p q.
Proof.
  unfold scanned_before.
  intros Hp Hq Hlt HS HP (d & u & l & c1 & c2 & Hd & Hu & Hl & H1 & H2 & Hs & Hpt).
  exists d, u, l, c1, c2.
  cbv zeta. rewrite !HS, HP by lia.
  rewrite !(decide_False (P := _ ∧ _)) by lia.
  repeat split; done.
Qed.

Lemma sw_cell_step i j st :
  1 ≤ i ≤ n → 1 ≤ j ≤ m → sw_inv i j st →
  ∃ st', sw_cell a b match_ mismatch gap i j st = Ok st' ∧ sw_inv i (j + 1) st'.
Proof.
  intros Hi Hj [HS HP Hborder Hrec [Hmax Hpos]].
  destruct st as [S P bs pos]. simpl in *.
  destruct (HS (i - 1) (j - 1)) as [d Hd]; [lia..|].
  destruct (HS (i - 1) j) as [u Hu]; [lia..|].
  destruct (HS i (j - 1)) as [l Hl]; [lia..|].
  destruct (py_getitem_in_range a (i - 1)) as (c1 & Hc1 & Hg1); [lia|].
  destruct (py_getitem_in_range b (j - 1)) as (c2 & Hc2 & Hg2); [lia|].
  set (diag := d + (if decide (c1 = c2) then match_ else mismatch)).
  set (up := u + gap).
  set (left := l + gap).
  set (best := Z.max (Z.max (Z.max 0 diag) up) left).
  destruct (py_setitem2_cell S i j best)
    as (S' & HS' & HSc); [lia|lia|apply HS; lia|].
  destruct (py_setitem2_cell P i j (sw_choice best diag up))
    as (P' & HP' & HPc); [lia|lia|apply HP; lia|].
  assert (sw_cell a b match_ mismatch gap i j
            {| sw_scores := S; sw_pointers := P;
               sw_best_score := bs; sw_best_pos := pos |}
          = Ok (if decide (best > bs)
                then {| sw_scores := S'; sw_pointers := P';
                        sw_best_score := best; sw_best_pos := (i, j) |}
                else {| sw_scores := S'; sw_pointers := P';
                        sw_best_score := bs; sw_best_pos := pos |})) as Hrun.
  { unfold sw_cell. simpl.
    rewrite (py_getitem2_Some S (i - 1) (j - 1) d) by (done || lia).
    rewrite (py_getitem2_Some S (i - 1) j u) by (done || lia).
    rewrite (py_getitem2_Some S i (j - 1) l) by (done || lia).
    rewrite Hg1, Hg2. simpl.
    fold diag up left best. rewrite HS'. simpl.
    replace (if decide (best = 0) then py_setitem2 P i j 0
             else if decide (best = diag) then py_setitem2 P i j 1
             else if decide (best = up) then py_setitem2 P i j 2
             else py_setitem2 P i j 3)
      with (py_setitem2 P i j (sw_choice best diag up))
      by (unfold sw_choice; repeat case_decide; done).
    rewrite HP'. simpl. by destruct (decide (best > bs)). }
  rewrite Hrun. eexists; split; [done|].
  assert (0 ≤ bs) as Hbs by (destruct Hpos as [[-> _]|[? _]]; lia).
  assert (∀ p q, 1 ≤ p ≤ n → 1 ≤ q ≤ m → scanned_before p q i (j + 1) →
            sw_rec S' P' p q) as Hrec'.
  { intros p q Hp Hq Hlt.
    destruct (decide (p = i ∧ q = j)) as [[-> ->]|Hne].
    - exists d, u, l, c1, c2.
      cbv zeta. rewrite !HSc, HPc by lia.
      rewrite !(decide_False (P := _ ∧ _)) by lia.
      rewrite !(decide_True (P := _ ∧ _)) by done. repeat split; done.
    - unfold scanned_before in Hlt.
      eapply sw_rec_frame; [| | |exact HSc|exact HPc|apply Hrec];
        unfold scanned_before; lia. }
  assert (∀ p q, 0 ≤ p ≤ n → 0 ≤ q ≤ m → is_Some (cell S' p q)) as HS1.
  { intros p q ??. rewrite HSc by lia.
    destruct (decide (p = i ∧ q = j)); [eauto|by apply HS]. }
  assert (∀ p q, 0 ≤ p ≤ n → 0 ≤ q ≤ m → is_Some (cell P' p q)) as HP1.
  { intros p q ??. rewrite HPc by lia.
    destruct (decide (p = i ∧ q = j)); [eauto|by apply HP]. }
  assert (∀ p q, 0 ≤ p ≤ n → 0 ≤ q ≤ m → p = 0 ∨ q = 0 →
            cell S' p q = Some 0) as Hborder'.
  { intros. rewrite HSc by lia. rewrite decide_False by lia. by apply Hborder. }
  assert (∀ p q v, 1 ≤ p ≤ n → 1 ≤ q ≤ m → scanned_before p q i j →
            cell S' p q = Some v → v ≤ bs) as Hold.
  { unfold scanned_before. intros p q v Hp Hq Hlt.
    rewrite HSc by lia. rewrite decide_False by lia.
    apply Hmax; [lia..|done]. }
  destruct (decide (best > bs)) as [Hgt|Hgt]; split; simpl; try done.
  - split.
    + intros p q v Hp Hq Hlt Hv.
      destruct (decide (p = i ∧ q = j)) as [[-> ->]|Hne].
      * rewrite HSc, decide_True in Hv by (done || lia). injection Hv. lia.
      * apply Hold in Hv; [lia..|]. unfold scanned_before in *. lia.
    + right. simpl. split; [lia|]. split; [lia|]. split; [lia|].
      split; [unfold scanned_before; lia|].
      split; [rewrite HSc, decide_True by (done || lia); done|].
      intros p q v Hp Hq Hlt Hv. apply Hold in Hv; [lia..|done].
  - split.
    + intros p q v Hp Hq Hlt Hv.
      destruct (decide (p = i ∧ q = j)) as [[-> ->]|Hne].
      * rewrite HSc, decide_True in Hv by (done || lia). injection Hv. lia.
      * apply Hold in Hv; [lia..|]. unfold scanned_before in *. lia.
    + destruct Hpos as [[-> ->]|(Hpos & Hp1 & Hp2 & Hlt & Hcell & Hfirst)];
        [by left|right].
      unfold scanned_before in *.
      split; [done|]. split; [done|]. split; [done|]. split; [lia|].
      split.
      * rewrite HSc by lia. rewrite decide_False by lia. done.
      * intros p q v Hp Hq Hlt'. rewrite HSc by lia.
        rewrite decide_False by lia. apply Hfirst; [lia..].
Qed.

(** The double loop of [smith_waterman] runs to its end and leaves the
    state [sw_inv] describes. *)
Lemma sw_fill_spec :
  ∃ st, sw_fill a b match_ mismatch gap = Ok st ∧ sw_inv (n + 1) 1 st.
Proof.
  unfold sw_fill.
  apply (for_each_range
           (λ i, for_each (py_range 1 (m + 1)) (sw_cell a b match_ mismatch gap i))
           (λ i st, sw_inv i 1 st)).
  { len_lia. }
  { apply sw_inv_init. }
  intros i st Hi HI.
  destruct (for_each_range (sw_cell a b match_ mismatch gap i)
              (λ j st, sw_inv i j st) 1 (m + 1) st) as (st' & -> & H').
  { len_lia. }
  { done. }
  { intros j st0 Hj HJ. apply sw_cell_step; [lia|lia|done]. }
  exists st'. split; [done|].
  destruct H' as [HS HP Hborder Hrec [Hmax Hpos]].
  split; try done.
  - intros p q Hp Hq Hlt. apply Hrec; [lia..|].
    unfold scanned_before in *. lia.
  - split.
    + intros p q v Hp Hq Hlt. apply Hmax; [lia..|].
      unfold scanned_before in *. lia.
    + destruct Hpos as [?|(? & ? & ? & Hlt & ? & ?)]; [by left|right].
      repeat split; try done; try lia.
      unfold scanned_before in *. lia.
Qed.

End sw_fill_proofs.

(** ** The traceback of the local aligner *)

Section sw_traceback_proofs.
Variables (a b : str).

Local Abbreviation n := (len a).
Local Abbreviation m := (len b).

Lemma sw_traceback_spec S P fuel :
  (∀ p q, 0 ≤ p ≤ n → 0 ≤ q ≤ m → is_Some (cell S p q)) →
  (∀ p q, 0 ≤ p ≤ n → 0 ≤ q ≤ m → is_Some (cell P p q)) →
  ∀ i j aligned_a aligned_b,
  0 ≤ i ≤ n → 0 ≤ j ≤ m → (Z.to_nat (i + j) ≤ fuel)%nat →
  ∃ i' j' t1 t2,
    sw_traceback a b fuel S P i j aligned_a aligned_b
      = Ok (i', j', aligned_a ++ t1, aligned_b ++ t2) ∧
    length t1 = length t2 ∧ 0 ≤ i' ≤ i ∧ 0 ≤ j' ≤ j.
Proof.
  intros HS HP.
  assert (∀ fuel' i j al1 al2, ¬ (i > 0 ∧ j > 0) → 0 ≤ i → 0 ≤ j →
            ∃ i' j' t1 t2,
              sw_traceback a b fuel' S P i j al1 al2
                = Ok (i', j', al1 ++ t1, al2 ++ t2) ∧
              length t1 = length t2 ∧ 0 ≤ i' ≤ i ∧ 0 ≤ j' ≤ j) as Hstop.
  { intros fuel' i j al1 al2 Hno ??. exists i, j, [], [].
    rewrite !app_nil_r. split; [|split; [done|lia]].
    destruct fuel'; simpl; by rewrite decide_False. }
  induction fuel as [|fuel IH]; intros i j al1 al2 Hi Hj Hfuel.
  - apply Hstop; lia.
  - destruct (decide (i > 0 ∧ j > 0)) as [Hgo|Hno]; [|apply Hstop; lia].
    simpl. rewrite decide_True by done.
    destruct (HS i j) as [cur Hcur]; [lia..|].
    rewrite (py_getitem2_Some S i j cur) by (done || lia). simpl.
    case_decide as Hpos.
    2:{ exists i, j, [], []. rewrite !app_nil_r. split; [done|]. split; [done|lia]. }
    destruct (HP i j) as [mv Hmv]; [lia..|].
    rewrite (py_getitem2_Some P i j mv) by (done || lia). simpl.
    destruct (py_getitem_in_range a (i - 1)) as (c1 & Hc1 & Hg1); [lia|].
    destruct (py_getitem_in_range b (j - 1)) as (c2 & Hc2 & Hg2); [lia|].
    rewrite Hg1, Hg2. simpl.
    destruct (decide (mv = 1)); [|destruct (decide (mv = 2))].
    + destruct (IH (i - 1) (j - 1) (al1 ++ [c1]) (al2 ++ [c2]))
        as (i' & j' & t1 & t2 & -> & Hlen & ? & ?); [lia..|].
      exists i', j', (c1 :: t1), (c2 :: t2). rewrite <- !app_assoc. simpl.
      split; [done|]. split; lia.
    + destruct (IH (i - 1) j (al1 ++ [c1]) (al2 ++ [gap_char]))
        as (i' & j' & t1 & t2 & -> & Hlen & ? & ?); [lia..|].
      exists i', j', (c1 :: t1), (gap_char :: t2). rewrite <- !app_assoc. simpl.
      split; [done|]. split; lia.
    + destruct (IH i (j - 1) (al1 ++ [gap_char]) (al2 ++ [c2]))
        as (i' & j' & t1 & t2 & -> & Hlen & ? & ?); [lia..|].
      exists i', j', (gap_char :: t1), (c2 :: t2). rewrite <- !app_assoc. simpl.
      split; [done|]. split; lia.
Qed.

(** More fuel than the loop needs changes nothing. *)
Lemma sw_traceback_more_fuel S P fuel fuel' i j aligned_a aligned_b r :
  (fuel ≤ fuel')%nat →
  sw_traceback a b fuel S P i j aligned_a aligned_b = Ok r →
  sw_traceback a b fuel' S P i j aligned_a aligned_b = Ok r.
Proof.
  revert fuel' i j aligned_a aligned_b.
  induction fuel as [|fuel IH]; intros fuel' i j al1 al2 Hle.
  - destruct fuel'; simpl; [done|].
    case_decide; [|done].
    destruct (py_getitem2 S i j) as [cur| |]; simpl; [|done..].
    case_decide; done.
  - destruct fuel' as [|fuel']; [lia|]. simpl.
    case_decide; [|done].
    destruct (py_getitem2 S i j) as [cur| |]; simpl; [|done..].
    case_decide; [|done].
    destruct (py_getitem2 P i j) as [mv| |]; simpl; [|done..].
    repeat case_decide;
      repeat match goal with
      | |- context [py_getitem ?l ?k] =>
          destruct (py_getitem l k); simpl; [|done..]
      end; apply IH; lia.
Qed.

End sw_traceback_proofs.

(** ** The local aligner as a whole *)

Section sw_whole.
Variables (a b : str) (match_ mismatch gap : Z).

Local Abbreviation n := (len a).
Local Abbreviation m := (len b).

Lemma sw_result_record best_score ea eb sa sb t1 t2 :
  sw_result a match_ mismatch gap best_score ea eb (sa, sb, t1, t2)
  = Ok (sw_record n match_ mismatch gap best_score sa ea sb eb
          (reverse t1) (reverse t2)).
Proof.
  unfold sw_result.
  rewrite !percent_guarded by (lia || nia). done.
Qed.

Lemma smith_waterman_unfold fuel st sa sb t1 t2 :
  sw_fill a b match_ mismatch gap = Ok st →
  sw_traceback a b fuel (sw_scores st) (sw_pointers st)
    (sw_best_pos st).1 (sw_best_pos st).2 [] [] = Ok (sa, sb, t1, t2) →
  smith_waterman_fuel a b match_ mismatch gap fuel
  = Ok (sw_record n match_ mismatch gap (sw_best_score st)
          sa (sw_best_pos st).1 sb (sw_best_pos st).2
          (reverse t1) (reverse t2)).
Proof.
  intros Hfill Htb. unfold smith_waterman_fuel. rewrite Hfill. simpl.
  destruct (sw_best_pos st) as [i j]. simpl in *. rewrite Htb. simpl.
  apply sw_result_record.
Qed.

(** The best position lies inside the matrix. *)
Lemma sw_best_pos_range i j st :
  sw_inv a b match_ mismatch gap i j st →
  0 ≤ (sw_best_pos st).1 ≤ n ∧ 0 ≤ (sw_best_pos st).2 ≤ m.
Proof.
  intros [_ _ _ _ [_ [[_ ->]|(_ & ? & ? & _)]]]; simpl; len_lia.
Qed.

Lemma smith_waterman_fuel_spec fuel :
  (length a + length b ≤ fuel)%nat →
  ∃ st sa sb t1 t2,
    sw_fill a b match_ mismatch gap = Ok st ∧
    sw_inv a b match_ mismatch gap (n + 1) 1 st ∧
    sw_traceback a b fuel (sw_scores st) (sw_pointers st)
      (sw_best_pos st).1 (sw_best_pos st).2 [] [] = Ok (sa, sb, t1, t2) ∧
    smith_waterman_fuel a b match_ mismatch gap fuel
    = Ok (sw_record n match_ mismatch gap (sw_best_score st)
            sa (sw_best_pos st).1 sb (sw_best_pos st).2
            (reverse t1) (reverse t2)) ∧
    length t1 = length t2 ∧
    0 ≤ sa ≤ (sw_best_pos st).1 ∧ 0 ≤ sb ≤ (sw_best_pos st).2.
Proof.
  intros Hfuel.
  destruct (sw_fill_spec a b match_ mismatch gap) as (st & Hfill & Hinv).
  pose proof (sw_best_pos_range _ _ _ Hinv) as [Hi Hj].
  destruct (sw_traceback_spec a b (sw_scores st) (sw_pointers st) fuel
              (sw_inv_S _ _ _ _ _ _ _ _ Hinv) (sw_inv_P _ _ _ _ _ _ _ _ Hinv)
              (sw_best_pos st).1 (sw_best_pos st).2 [] [])
    as (sa & sb & t1 & t2 & Htb & Hlen & Hsa & Hsb); [done|done|len_lia|].
  simpl in Htb.
  exists st, sa, sb, t1, t2.
  split; [done|]. split; [done|]. split; [done|].
  split; [by apply smith_waterman_unfold|done].
Qed.

(** The fuel [smith_waterman] passes is enough: any larger amount gives
    the same result. *)
Lemma smith_waterman_fuel_enough fuel :
  (length a + length b ≤ fuel)%nat →
  smith_waterman_fuel a b match_ mismatch gap fuel
  = smith_waterman a b match_ mismatch gap.
Proof.
  intros Hfuel. unfold smith_waterman.
  destruct (smith_waterman_fuel_spec (length a + length b))
    as (st & sa & sb & t1 & t2 & Hfill & _ & Htb & -> & _); [done|].
  apply smith_waterman_unfold; [done|].
  by apply (sw_traceback_more_fuel a b _ _ (length a + length b)).
Qed.

(** Every cell of the final score matrix is at least [0]. *)
Lemma sw_cell_nonneg st p q v :
  sw_inv a b match_ mismatch gap (n + 1) 1 st →
  0 ≤ p ≤ n → 0 ≤ q ≤ m → cell (sw_scores st) p q = Some v → 0 ≤ v.
Proof.
  intros [_ _ Hborder Hrec _] Hp Hq Hv.
  destruct (decide (p = 0 ∨ q = 0)) as [H0|Hint].
  - rewrite Hborder in Hv by done. injection Hv. lia.
  - destruct (Hrec p q) as (d & u & l & c1 & c2 & _ & _ & _ & _ & _ & Hb & _);
      [lia|lia|unfold scanned_before; lia|].
    rewrite Hv in Hb. injection Hb. lia.
Qed.

(** The best score bounds every cell of the final score matrix. *)
Lemma sw_cell_le_best st p q v :
  sw_inv a b match_ mismatch gap (n + 1) 1 st →
  0 ≤ p ≤ n → 0 ≤ q ≤ m → cell (sw_scores st) p q = Some v →
  v ≤ sw_best_score st.
Proof.
  intros [_ _ Hborder _ [Hmax Hpos]] Hp Hq Hv.
  destruct (decide (p = 0 ∨ q = 0)) as [H0|Hint].
  - rewrite Hborder in Hv by done. injection Hv as <-.
    destruct Hpos as [[-> _]|[? _]]; lia.
  - apply (Hmax p q); [lia|lia|unfold scanned_before; lia|done].
Qed.

End sw_whole.

(** ** The windowed driver *)

Lemma ceil_div_bounds x y :
  0 < y → (ceil_div x y - 1) * y < x ≤ ceil_div x y * y.
Proof.
  intros Hy. unfold ceil_div.
  pose proof (Z.div_mod (- x) y) as Hdm.
  pose proof (Z.mod_pos_bound (- x) y Hy). nia.
Qed.

Lemma ceil_div_unique x y k :
  0 < y → (k - 1) * y < x ≤ k * y → ceil_div x y = k.
Proof.
  intros Hy Hk. pose proof (ceil_div_bounds x y Hy). nia.
Qed.

Lemma py_slice_length {A} (l : list A) lo hi :
  0 ≤ lo ≤ len l → lo ≤ hi →
  len (py_slice l lo hi) = Z.min hi (len l) - lo.
Proof.
  intros Hlo Hhi. unfold py_slice, py_slice_bound, len in *.
  rewrite !decide_False by lia.
  rewrite length_take, length_drop. lia.
Qed.

Lemma py_slice_nonempty {A} (l : list A) lo hi :
  0 ≤ lo < len l → lo < hi → py_slice l lo hi ≠ [].
Proof.
  intros Hlo Hhi Hnil.
  pose proof (py_slice_length l lo hi) as Hlen.
  rewrite Hnil in Hlen. unfold len in *. simpl in Hlen. lia.
Qed.

Section chunk_proofs.
Variables (genome_a genome_b : str) (chunk_size overlap : Z).
Variables (match_ mismatch gap : Z).

Local Abbreviation step := (chunk_size - overlap).
Local Abbreviation max_pos := (Z.min (len genome_a) (len genome_b)).

Local Abbreviation window_result :=
  (window_result genome_a genome_b chunk_size match_ mismatch gap).

Lemma smith_waterman_total (a b : str) :
  ∃ r, smith_waterman a b match_ mismatch gap = Ok r.
Proof.
  destruct (smith_waterman_fuel_spec a b match_ mismatch gap
              (length a + length b))
    as (st & sa & sb & t1 & t2 & _ & _ & _ & Hr & _); [done|].
  eauto.
Qed.

Lemma chunk_loop_spec fuel : ∀ offset results,
  0 < chunk_size → 0 < step → 0 ≤ offset →
  (Z.to_nat (max_pos - offset) ≤ fuel)%nat →
  ∃ rs,
    chunk_loop genome_a genome_b chunk_size match_ mismatch gap
      fuel step max_pos offset results = Ok (results ++ rs) ∧
    len rs = ceil_div (Z.max 0 (max_pos - offset)) step ∧
    ∀ k : nat, (k < length rs)%nat →
      ∃ res, rs !! k = Some res ∧
             window_result (offset + Z.of_nat k * step) res.
Proof.
  induction fuel as [|fuel IH]; intros offset results Hcs Hstep Hoff Hfuel.
  - simpl. rewrite decide_False by lia. exists [].
    rewrite app_nil_r. split; [done|]. split.
    + symmetry. apply ceil_div_unique; [done|]. unfold len in *. simpl. lia.
    + simpl. intros; lia.
  - simpl. case_decide as Hgo.
    2:{ exists []. rewrite app_nil_r. split; [done|]. split.
        - symmetry. apply ceil_div_unique; [done|]. unfold len in *. simpl. lia.
        - simpl. intros; lia. }
    rewrite decide_False.
    2:{ intros [Hnil|Hnil]; revert Hnil; apply py_slice_nonempty; lia. }
    destruct (smith_waterman_total
                (py_slice genome_a offset (offset + chunk_size))
                (py_slice genome_b offset (offset + chunk_size)))
      as [r Hr].
    rewrite Hr. simpl.
    destruct (IH (offset + step) (results ++ [rebase offset r]))
      as (rs & -> & Hlen & Hwin); [lia..|].
    exists (rebase offset r :: rs). rewrite <- app_assoc. simpl.
    split; [done|]. split.
    + symmetry. apply ceil_div_unique; [done|].
      pose proof (ceil_div_bounds (Z.max 0 (max_pos - (offset + step))) step
                    Hstep) as Hb.
      rewrite <- Hlen in Hb.
      replace (len (rebase offset r :: rs)) with (len rs + 1)
        by (unfold len; simpl; lia).
      assert (0 ≤ len rs) by (unfold len; lia).
      revert Hb H Hgo Hstep.
      generalize (len rs) max_pos step. intros L M s Hb HL Hgo Hs.
      destruct (decide (0 < M - (offset + s))).
      * rewrite Z.max_r in Hb by lia. rewrite Z.max_r by lia. nia.
      * rewrite Z.max_l in Hb by lia. rewrite Z.max_r by lia.
        assert (L = 0) as -> by nia. lia.
    + intros [|k] Hk.
      * exists (rebase offset r). split; [done|]. exists r.
        replace (offset + Z.of_nat 0 * step) with offset by lia. done.
      * destruct (Hwin k) as (res & Hres & Hw); [simpl in Hk; lia|].
        exists res. split; [done|].
        replace (offset + Z.of_nat (S k) * step)
          with (offset + step + Z.of_nat k * step) by lia.
        done.
Qed.

(** More fuel than the loop needs changes nothing. *)
Lemma chunk_loop_more_fuel fuel fuel' max offset results rs :
  (fuel ≤ fuel')%nat →
  chunk_loop genome_a genome_b chunk_size match_ mismatch gap
    fuel step max offset results = Ok rs →
  chunk_loop genome_a genome_b chunk_size match_ mismatch gap
    fuel' step max offset results = Ok rs.
Proof.
  revert fuel' offset results.
  induction fuel as [|fuel IH]; intros fuel' offset results Hle.
  - simpl. case_decide; [done|]. intros <-.
    destruct fuel'; simpl; by rewrite decide_False.
  - destruct fuel' as [|fuel']; [lia|]. simpl.
    case_decide; [|done]. case_decide; [done|].
    destruct (smith_waterman _ _ _ _ _); simpl; [|done..].
    apply IH. lia.
Qed.

(** With valid parameters the driver returns one result per window, the
    windows starting at [0], [step], [2 * step], ... below [max_pos]. *)
Lemma chunked_alignment_spec :
  0 < chunk_size → 0 ≤ overlap < chunk_size →
  ∃ rs,
    chunked_alignment genome_a genome_b chunk_size overlap match_ mismatch gap
      = Ok rs ∧
    len rs = ceil_div max_pos step ∧
    ∀ k : nat, (k < length rs)%nat →
      ∃ res, rs !! k = Some res ∧ window_result (Z.of_nat k * step) res.
Proof.
  intros Hcs Hov. unfold chunked_alignment, chunked_alignment_fuel.
  rewrite decide_False by lia.
  destruct (chunk_loop_spec (Z.to_nat max_pos) 0 [])
    as (rs & Hrs & Hlen & Hwin); [lia..|].
  exists rs. split; [done|]. split.
  - rewrite Hlen. f_equal. len_lia.
  - intros k Hk. destruct (Hwin k Hk) as (res & ? & ?). by exists res.
Qed.

(** The fuel [chunked_alignment] passes is enough: any larger amount
    gives the same result. *)
Lemma chunked_alignment_fuel_enough fuel :
  (Z.to_nat max_pos ≤ fuel)%nat →
  chunked_alignment_fuel genome_a genome_b chunk_size overlap
    match_ mismatch gap fuel
  = chunked_alignment genome_a genome_b chunk_size overlap match_ mismatch gap.
Proof.
  intros Hfuel. unfold chunked_alignment, chunked_alignment_fuel.
  case_decide as Hbad; [done|].
  destruct (chunk_loop_spec (Z.to_nat max_pos) 0 [])
    as (rs & Hrs & _); [lia..|].
  rewrite Hrs. by apply (chunk_loop_more_fuel (Z.to_nat max_pos)).
Qed.

End chunk_proofs.

(** * The claims *)

Lemma candidates_cells seq1 seq2 ms mm g (S : list (list Z)) i j d u l c1 c2 :
  1 ≤ i → 1 ≤ j →
  cell S (i - 1) (j - 1) = Some d → cell S (i - 1) j = Some u →
  cell S i (j - 1) = Some l →
  seq1 !! Z.to_nat (i - 1) = Some c1 → seq2 !! Z.to_nat (j - 1) = Some c2 →
  candidates seq1 seq2 ms mm g S i j
  = Ok (d + (if decide (c1 = c2) then ms else mm), u + g, l + g).
Proof.
  intros Hi Hj Hd Hu Hl H1 H2. unfold candidates.
  rewrite (py_getitem2_Some S (i - 1) (j - 1) d) by (done || lia).
  rewrite (py_getitem2_Some S (i - 1) j u) by (done || lia).
  rewrite (py_getitem2_Some S i (j - 1) l) by (done || lia).
  rewrite (py_getitem_Some seq1 (i - 1) c1) by (done || lia).
  rewrite (py_getitem_Some seq2 (j - 1) c2) by (done || lia).
  done.
Qed.

(** C1, as stated, fails: on two 10-character sequences with
    [chunk_size = 4] and [overlap = 2] the driver does not return
    [ceil((10 - 4) / 2) + 1 = 4] windows. *)
Lemma chunk_count_counterexample :
  ¬ ∃ rs,
      chunked_alignment (py_str "ACGTACGTAC") (py_str "ACGTACGTAC") 4 2 2 (-1) (-2)
        = Ok rs ∧
      len rs = ceil_div (Z.min 10 10 - 4) (4 - 2) + 1.
Proof.
  intros (rs & Hrs & Hlen). vm_compute in Hrs. injection Hrs as <-.
  vm_compute in Hlen. discriminate.
Qed.

(** C2, as stated, fails: with [match_score = 0] the claim makes
    [norm_score] zero, the code returns [100]. *)
Lemma norm_score_counterexample :
  ¬ ∀ r, smith_waterman (py_str "A") (py_str "C") 0 1 (-1) = Ok r →
         (norm_score r == 0)%Q.
Proof.
  intros H. specialize (H _ eq_refl). vm_compute in H. discriminate.
Qed.

(** C3, as stated, fails for the local aligner: on ["A"] against ["C"]
    with scores [2], [-1], [-2] the maximum of the three candidates of
    cell [(1, 1)] is the diagonal one, and the cell does not record the
    diagonal code [1]. *)
Lemma tie_break_counterexample :
  ¬ ∀ st diag up left,
      sw_fill (py_str "A") (py_str "C") 2 (-1) (-2) = Ok st →
      candidates (py_str "A") (py_str "C") 2 (-1) (-2) (sw_scores st) 1 1
        = Ok (diag, up, left) →
      Z.max (Z.max diag up) left = diag →
      py_getitem2 (sw_pointers st) 1 1 = Ok 1.
Proof.
  intros H. specialize (H _ (-1) (-2) (-2) eq_refl eq_refl eq_refl).
  vm_compute in H. discriminate.
Qed.

(** C3, amended: in [needleman_wunsch] every interior cell records the
    diagonal if the maximum of its three candidates is the diagonal one,
    else up if it is the up one, else left.  In [smith_waterman] the cell
    holds the maximum of [0] and the three candidates; if that is [0] the
    cell records the stop code [0], and otherwise it is the maximum of the
    three candidates and the same priority applies (codes [1], [2],
    [3]).  Both for every pair of sequences and all scores. *)
Theorem tie_break_priority (seq1 seq2 : str) (match_ mismatch gap : Z) :
  (∃ S P,
     nw_fill seq1 seq2 match_ mismatch gap = Ok (S, P) ∧
     ∀ i j, 1 ≤ i ≤ len seq1 → 1 ≤ j ≤ len seq2 →
       ∃ diag up left ptr,
         candidates seq1 seq2 match_ mismatch gap S i j = Ok (diag, up, left) ∧
         py_getitem2 P i j = Ok ptr ∧
         let best := Z.max (Z.max diag up) left in
         py_getitem2 S i j = Ok best ∧
         (best = diag → ptr = PDiag) ∧
         (best ≠ diag → best = up → ptr = PUp) ∧
         (best ≠ diag → best ≠ up → ptr = PLeft)) ∧
  (∃ st,
     sw_fill seq1 seq2 match_ mismatch gap = Ok st ∧
     ∀ i j, 1 ≤ i ≤ len seq1 → 1 ≤ j ≤ len seq2 →
       ∃ diag up left ptr,
         candidates seq1 seq2 match_ mismatch gap (sw_scores st) i j
           = Ok (diag, up, left) ∧
         py_getitem2 (sw_pointers st) i j = Ok ptr ∧
         let best := Z.max (Z.max (Z.max 0 diag) up) left in
         py_getitem2 (sw_scores st) i j = Ok best ∧
         (best = 0 → ptr = 0) ∧
         (best ≠ 0 → best = Z.max (Z.max diag up) left) ∧
         (best ≠ 0 → best = diag → ptr = 1) ∧
         (best ≠ 0 → best ≠ diag → best = up → ptr = 2) ∧
         (best ≠ 0 → best ≠ diag → best ≠ up → ptr = 3)).
Proof.
  split.
  - destruct (nw_fill_spec seq1 seq2 match_ mismatch gap)
      as (S & P & Hfill & [_ _ _ _ _ _ Hrec]).
    exists S, P. split; [done|]. intros i j Hi Hj.
    destruct (Hrec i j)
      as (d & u & l & c1 & c2 & Hd & Hu & Hl & H1 & H2 & Hb & Hp); [lia..|].
    eexists _, _, _, _.
    split; [by apply (candidates_cells _ _ _ _ _ S i j d u l c1 c2); try lia|].
    split; [apply py_getitem2_Some; [lia|lia|exact Hp]|].
    cbv zeta. split; [apply py_getitem2_Some; [lia|lia|exact Hb]|].
    unfold nw_choice. repeat case_decide; repeat split; intros; congruence.
  - destruct (sw_fill_spec seq1 seq2 match_ mismatch gap)
      as (st & Hfill & [_ _ _ Hrec _]).
    exists st. split; [done|]. intros i j Hi Hj.
    destruct (Hrec i j)
      as (d & u & l & c1 & c2 & Hd & Hu & Hl & H1 & H2 & Hb & Hp);
      [lia|lia|unfold scanned_before; lia|].
    eexists _, _, _, _.
    split; [by apply (candidates_cells _ _ _ _ _ _ i j d u l c1 c2); try lia|].
    split; [apply py_getitem2_Some; [lia|lia|exact Hp]|].
    cbv zeta. split; [apply py_getitem2_Some; [lia|lia|exact Hb]|].
    unfold sw_choice. repeat case_decide; repeat split; intros; try congruence;
      lia.
Qed.

Lemma tie_break_priority_witness :
  ∃ S P,
    nw_fill (py_str "GA") (py_str "GC") 1 (-1) 0 = Ok (S, P) ∧
    py_getitem2 P 1 1 = Ok PDiag.
Proof.
  destruct (proj1 (tie_break_priority (py_str "GA") (py_str "GC") 1 (-1) 0))
    as (S & P & HSP & Hcells).
  exists S, P. split; [exact HSP|].
  destruct (Hcells 1 1) as (diag & up & left & ptr & Hc & Hp & _ & Hd & _);
    [vm_compute; split; discriminate..|].
  assert (Ok (S, P) = nw_fill (py_str "GA") (py_str "GC") 1 (-1) 0)
    as Heq by (symmetry; exact HSP).
  vm_compute in Heq. injection Heq as -> ->.
  vm_compute in Hc. injection Hc as <- <- <-.
  rewrite Hp. f_equal. apply Hd. reflexivity.
Defined.

(** C4: for every non-empty sequence [seq],
    [needleman_wunsch(seq, seq, 1, -1, 0)] returns a result whose
    similarity is 100 and whose two aligned strings are [seq]. *)
Theorem self_alignment_identity (seq : str) :
  seq ≠ [] →
  ∃ r,
    needleman_wunsch seq seq 1 (-1) 0 = Ok r ∧
    (similarity r == 100)%Q ∧
    aligned_seq1 r = seq ∧ aligned_seq2 r = seq.
Proof.
  intros Hne.
  destruct (nw_fill_spec seq seq 1 (-1) 0) as (S & P & Hfill & Hinv).
  destruct (nw_traceback_self seq S P Hinv (length seq + length seq)
              (length seq) [] [] []) as (pth & Htb); [len_lia|lia|].
  simpl in Htb. rewrite firstn_all in Htb.
  eexists. split.
  { unfold needleman_wunsch.
    exact (needleman_wunsch_unfold seq seq 1 (-1) 0 _ S P _ _ pth Hfill Htb). }
  simpl. rewrite reverse_involutive, count_pairs_diag.
  split; [|done].
  assert (len seq ≠ 0) as Hlen by (destruct seq; [done|unfold len; simpl; lia]).
  unfold percent_value. rewrite decide_False by done.
  apply Qdiv_mult_l. intros Hz. apply Hlen.
  unfold Qeq in Hz. simpl in Hz. lia.
Qed.

Lemma self_alignment_identity_witness :
  py_str "ACGT" ≠ [] ∧
  ∃ r,
    needleman_wunsch (py_str "ACGT") (py_str "ACGT") 1 (-1) 0 = Ok r ∧
    (similarity r == 100)%Q ∧
    aligned_seq1 r = py_str "ACGT" ∧ aligned_seq2 r = py_str "ACGT".
Proof.
  split; [discriminate|]. apply self_alignment_identity. discriminate.
Defined.

(** C7: [chunked_alignment] raises [ValueError] (the spec's
    [InvalidParameter]) exactly when [chunk_size ≤ 0], [overlap < 0] or
    [overlap ≥ chunk_size], so with [chunk_size = 5] and [overlap = 5] it
    does; and it raises before the window loop runs once, whatever the
    sequences: the raise needs no loop iteration and carries no
    results. *)
Theorem invalid_parameters_raise
    (a b : str) (chunk_size overlap match_ mismatch gap : Z) :
  (chunked_alignment a b chunk_size overlap match_ mismatch gap
     = Raise ValueError
   ↔ chunk_size ≤ 0 ∨ overlap < 0 ∨ overlap >= chunk_size) ∧
  (chunk_size ≤ 0 ∨ overlap < 0 ∨ overlap >= chunk_size →
   chunked_alignment_fuel a b chunk_size overlap match_ mismatch gap 0
     = Raise ValueError) ∧
  chunked_alignment a b 5 5 match_ mismatch gap = Raise ValueError.
Proof.
  split; [|split].
  - split.
    + intros Hraise.
      destruct (decide (chunk_size ≤ 0 ∨ overlap < 0 ∨ overlap >= chunk_size))
        as [|Hok]; [done|].
      destruct (chunked_alignment_spec a b chunk_size overlap match_ mismatch gap)
        as (rs & Hrs & _); [lia..|].
      congruence.
    + intros Hbad. unfold chunked_alignment, chunked_alignment_fuel.
      by rewrite decide_True.
  - intros Hbad. unfold chunked_alignment_fuel. by rewrite decide_True.
  - unfold chunked_alignment, chunked_alignment_fuel.
    by rewrite decide_True by lia.
Qed.

Lemma invalid_parameters_raise_witness :
  chunked_alignment_fuel (py_str "ACGTACGTAC") (py_str "ACGTACGTAC") 5 5 2 (-1) (-2) 0
  = Raise ValueError.
Proof.
  apply (proj1 (proj2 (invalid_parameters_raise
                         (py_str "ACGTACGTAC") (py_str "ACGTACGTAC") 5 5 2 (-1) (-2)))).
  lia.
Defined.

(** C9: when no cell of the score matrix of [smith_waterman] exceeds
    zero, the call does not raise and returns empty aligned strings,
    score [0] and all four coordinates [0]. *)
Theorem no_positive_cell_result (a b : str) (match_ mismatch gap : Z) st :
  sw_fill a b match_ mismatch gap = Ok st →
  Forall (Forall (λ v, v ≤ 0)) (sw_scores st) →
  ∃ r,
    smith_waterman a b match_ mismatch gap = Ok r ∧
    aligned_a r = [] ∧ aligned_b r = [] ∧ score r = 0 ∧
    start_a r = 0 ∧ end_a r = 0 ∧ start_b r = 0 ∧ end_b r = 0.
Proof.
  intros Hfill Hcells.
  destruct (sw_fill_spec a b match_ mismatch gap) as (st' & Hfill' & Hinv).
  assert (st' = st) as -> by congruence.
  pose proof Hinv as [_ _ _ _ [_ Hbest]].
  assert (sw_best_score st = 0 ∧ sw_best_pos st = (0, 0)) as [Hbs Hpos].
  { destruct Hbest as [?|(Hpos & _ & _ & _ & Hcell & _)]; [done|].
    unfold cell in Hcell.
    destruct (sw_scores st !! Z.to_nat (sw_best_pos st).1) as [row|] eqn:Hrow;
      [|done].
    simpl in Hcell.
    eapply Forall_lookup_1 in Hcells; [|exact Hrow].
    eapply Forall_lookup_1 in Hcells; [|exact Hcell].
    simpl in Hcells. lia. }
  eexists. split.
  { unfold smith_waterman.
    apply (smith_waterman_unfold a b match_ mismatch gap _ st 0 0 [] []);
      [done|].
    rewrite Hpos. by destruct (length a + length b)%nat. }
  rewrite Hbs, Hpos. simpl. done.
Qed.

Lemma no_positive_cell_result_witness :
  ∃ r,
    smith_waterman (py_str "A") (py_str "C") 2 (-1) (-2) = Ok r ∧
    aligned_a r = [] ∧ aligned_b r = [] ∧ score r = 0 ∧
    start_a r = 0 ∧ end_a r = 0 ∧ start_b r = 0 ∧ end_b r = 0.
Proof.
  apply (no_positive_cell_result (py_str "A") (py_str "C") 2 (-1) (-2)
           {| sw_scores := [[0; 0]; [0; 0]];
              sw_pointers := [[0; 0]; [0; 0]];
              sw_best_score := 0; sw_best_pos := (0, 0) |}).
  - reflexivity.
  - simpl. repeat constructor; lia.
Defined.

(** C10, as stated, fails: an input may itself contain ['-'], and
    removing every ['-'] from its aligned string removes those too. *)
Lemma ungap_counterexample :
  ¬ ∀ r, needleman_wunsch (py_str "A-C") (py_str "AC") 1 (-1) 0 = Ok r →
         ungap (aligned_seq1 r) = py_str "A-C".
Proof.
  intros H. specialize (H _ eq_refl). vm_compute in H. discriminate.
Qed.

(** C10, amended: for every pair of sequences and all scores, each
    aligned string of [needleman_wunsch] is its input with gap characters
    inserted, every input character kept in order; so for an input that
    contains no ['-'], removing all ['-'] from its aligned string gives
    back the input. *)
Theorem ungap_recovers_inputs (seq1 seq2 : str) (match_ mismatch gap : Z) :
  ∃ r,
    needleman_wunsch seq1 seq2 match_ mismatch gap = Ok r ∧
    gap_insertion seq1 (aligned_seq1 r) ∧
    gap_insertion seq2 (aligned_seq2 r) ∧
    (gap_char ∉ seq1 → ungap (aligned_seq1 r) = seq1) ∧
    (gap_char ∉ seq2 → ungap (aligned_seq2 r) = seq2).
Proof.
  destruct (needleman_wunsch_fuel_spec seq1 seq2 match_ mismatch gap
              (length seq1 + length seq2))
    as (r & S & P & _ & Hr & _ & _ & H1 & H2); [done|].
  exists r. split; [done|]. split; [done|]. split; [done|].
  split; by apply gap_insertion_ungap.
Qed.

Lemma ungap_recovers_inputs_witness :
  ∃ r,
    needleman_wunsch (py_str "ACCGTG") (py_str "AGCGTGC") 1 (-1) 0 = Ok r ∧
    ungap (aligned_seq1 r) = py_str "ACCGTG" ∧
    ungap (aligned_seq2 r) = py_str "AGCGTGC".
Proof.
  destruct (ungap_recovers_inputs (py_str "ACCGTG") (py_str "AGCGTGC") 1 (-1) 0)
    as (r & Hr & _ & _ & H1 & H2).
  exists r. split; [exact Hr|].
  split; [apply H1|apply H2]; vm_compute;
    intros H; repeat (apply elem_of_cons in H as [H|H]; [discriminate H|]);
    by apply not_elem_of_nil in H.
Defined.

(** * Further properties *)

(** ** Alignments as moves *)

Section run_moves_proofs.
Variables (match_score mismatch_score gap : Z).

Local Abbreviation run_moves := (run_moves match_score mismatch_score gap).

Lemma run_moves_nil s1 s2 r :
  run_moves [] s1 s2 = Some r → s1 = [] ∧ s2 = [] ∧ r = ([], [], 0).
Proof. destruct s1, s2; simpl; intros [= <-]; done. Qed.

Lemma run_moves_diag moves s1 s2 r :
  run_moves (MDiag :: moves) s1 s2 = Some r →
  ∃ c1 c2 s1' s2' t1 t2 sc,
    s1 = c1 :: s1' ∧ s2 = c2 :: s2' ∧
    run_moves moves s1' s2' = Some (t1, t2, sc) ∧
    r = (c1 :: t1, c2 :: t2,
         (if decide (c1 = c2) then match_score else mismatch_score) + sc).
Proof.
  destruct s1 as [|c1 s1], s2 as [|c2 s2]; simpl; try done.
  destruct (run_moves moves s1 s2) as [[[t1 t2] sc]|] eqn:Hrec; simpl; [|done].
  intros [= <-]. by exists c1, c2, s1, s2, t1, t2, sc.
Qed.

Lemma run_moves_up moves s1 s2 r :
  run_moves (MUp :: moves) s1 s2 = Some r →
  ∃ c1 s1' t1 t2 sc,
    s1 = c1 :: s1' ∧ run_moves moves s1' s2 = Some (t1, t2, sc) ∧
    r = (c1 :: t1, gap_char :: t2, gap + sc).
Proof.
  destruct s1 as [|c1 s1]; simpl; [by destruct s2|].
  destruct (run_moves moves s1 s2) as [[[t1 t2] sc]|] eqn:Hrec; simpl; [|done].
  intros [= <-]. by exists c1, s1, t1, t2, sc.
Qed.

Lemma run_moves_left moves s1 s2 r :
  run_moves (MLeft :: moves) s1 s2 = Some r →
  ∃ c2 s2' t1 t2 sc,
    s2 = c2 :: s2' ∧ run_moves moves s1 s2' = Some (t1, t2, sc) ∧
    r = (gap_char :: t1, c2 :: t2, gap + sc).
Proof.
  destruct s2 as [|c2 s2]; simpl; [by destruct s1|].
  destruct s1 as [|c1 s1];
    (destruct (run_moves moves _ s2) as [[[t1 t2] sc]|] eqn:Hrec; simpl; [|done]);
    intros [= <-]; by exists c2, s2, t1, t2, sc.
Qed.

(** Alignments of two pairs of strings, put one after the other. *)
Lemma run_moves_app moves moves' :
  ∀ s1 s2 s1' s2' t1 t2 sc t1' t2' sc',
  run_moves moves s1 s2 = Some (t1, t2, sc) →
  run_moves moves' s1' s2' = Some (t1', t2', sc') →
  run_moves (moves ++ moves') (s1 ++ s1') (s2 ++ s2')
  = Some (t1 ++ t1', t2 ++ t2', sc + sc').
Proof.
  induction moves as [|mv moves IH];
    intros s1 s2 s1' s2' t1 t2 sc t1' t2' sc' H H'.
  - apply run_moves_nil in H as (-> & -> & [= -> -> ->]). done.
  - destruct mv.
    + apply run_moves_diag in H
        as (c1 & c2 & r1 & r2 & u1 & u2 & sc0 & -> & -> & Hrec & [= -> -> ->]).
      simpl. rewrite (IH _ _ _ _ _ _ _ _ _ _ Hrec H'). simpl.
      do 2 f_equal. lia.
    + apply run_moves_up in H
        as (c1 & r1 & u1 & u2 & sc0 & -> & Hrec & [= -> -> ->]).
      simpl. rewrite (IH _ _ _ _ _ _ _ _ _ _ Hrec H'). simpl.
      do 2 f_equal. lia.
    + apply run_moves_left in H
        as (c2 & r2 & u1 & u2 & sc0 & -> & Hrec & [= -> -> ->]).
      simpl. rewrite (IH _ _ _ _ _ _ _ _ _ _ Hrec H').
      destruct (s1 ++ s1'); simpl; do 2 f_equal; lia.
Qed.

(** The rows of an alignment are its two strings with gaps inserted, and
    have one column per move. *)
Lemma run_moves_rows moves : ∀ s1 s2 t1 t2 sc,
  run_moves moves s1 s2 = Some (t1, t2, sc) →
  gap_insertion s1 t1 ∧ gap_insertion s2 t2 ∧
  length t1 = length moves ∧ length t2 = length moves.
Proof.
  induction moves as [|mv moves IH]; intros s1 s2 t1 t2 sc H.
  - apply run_moves_nil in H as (-> & -> & [= -> -> ->]).
    repeat split; constructor.
  - destruct mv.
    + apply run_moves_diag in H
        as (c1 & c2 & r1 & r2 & u1 & u2 & sc0 & -> & -> & Hrec & [= -> -> ->]).
      destruct (IH _ _ _ _ _ Hrec) as (? & ? & ? & ?).
      repeat split; simpl; try (by constructor); lia.
    + apply run_moves_up in H
        as (c1 & r1 & u1 & u2 & sc0 & -> & Hrec & [= -> -> ->]).
      destruct (IH _ _ _ _ _ Hrec) as (? & ? & ? & ?).
      repeat split; simpl; try (by constructor); lia.
    + apply run_moves_left in H
        as (c2 & r2 & u1 & u2 & sc0 & -> & Hrec & [= -> -> ->]).
      destruct (IH _ _ _ _ _ Hrec) as (? & ? & ? & ?).
      repeat split; simpl; try (by constructor); lia.
Qed.

End run_moves_proofs.

(** ** No alignment beats the matrix *)

Section matrix_bound.
Variables (seq1 seq2 : str) (match_score mismatch_score gap : Z).
Variable (S : list (list Z)).

Local Abbreviation n := (len seq1).
Local Abbreviation m := (len seq2).

(** Each cell is at least each of its three candidates. *)
Hypothesis Hcells : ∀ i j, 0 ≤ i ≤ n → 0 ≤ j ≤ m → is_Some (cell S i j).
Hypothesis Hdiag : ∀ i j c1 c2 v v',
  0 ≤ i < n → 0 ≤ j < m →
  seq1 !! Z.to_nat i = Some c1 → seq2 !! Z.to_nat j = Some c2 →
  cell S i j = Some v → cell S (i + 1) (j + 1) = Some v' →
  v + (if decide (c1 = c2) then match_score else mismatch_score) ≤ v'.
Hypothesis Hup : ∀ i j v v',
  0 ≤ i < n → 0 ≤ j ≤ m →
  cell S i j = Some v → cell S (i + 1) j = Some v' → v + gap ≤ v'.
Hypothesis Hleft : ∀ i j v v',
  0 ≤ i ≤ n → 0 ≤ j < m →
  cell S i j = Some v → cell S i (j + 1) = Some v' → v + gap ≤ v'.

(** An alignment of the substrings that start at [(i, j)] adds to cell
    [(i, j)] at most what the cell at their end holds. *)
Lemma run_moves_bounded moves : ∀ (i j : nat) s1 s2 r1 r2 t1 t2 sc v,
  drop i seq1 = s1 ++ r1 → drop j seq2 = s2 ++ r2 →
  (i ≤ length seq1)%nat → (j ≤ length seq2)%nat →
  run_moves match_score mismatch_score gap moves s1 s2 = Some (t1, t2, sc) →
  cell S (Z.of_nat i) (Z.of_nat j) = Some v →
  ∃ v',
    cell S (Z.of_nat (i + length s1)) (Z.of_nat (j + length s2)) = Some v' ∧
    v + sc ≤ v'.
Proof.
  assert (∀ (l : str) (i : nat) c s r, drop i l = (c :: s) ++ r →
            l !! i = Some c ∧ drop (Datatypes.S i) l = s ++ r ∧
            (i < length l)%nat) as Hdrop.
  { intros l i c s r H.
    assert (l !! i = Some c) as Hc.
    { rewrite <- (Nat.add_0_r i), <- lookup_drop, H. done. }
    split; [done|]. split; [|by eapply lookup_lt_Some].
    rewrite <- (Nat.add_1_r i), <- drop_drop, H. done. }
  induction moves as [|mv moves IH];
    intros i j s1 s2 r1 r2 t1 t2 sc v H1 H2 Hi Hj Hrun Hv.
  - apply run_moves_nil in Hrun as (-> & -> & [= -> -> ->]).
    exists v. simpl. rewrite !Nat.add_0_r. split; [done|lia].
  - destruct mv.
    + apply run_moves_diag in Hrun
        as (c1 & c2 & q1 & q2 & u1 & u2 & sc0 & -> & -> & Hrec & [= -> -> ->]).
      apply Hdrop in H1 as (Hc1 & H1 & ?). apply Hdrop in H2 as (Hc2 & H2 & ?).
      destruct (Hcells (Z.of_nat (Datatypes.S i)) (Z.of_nat (Datatypes.S j)))
        as [w Hw]; [len_lia..|].
      destruct (IH _ _ _ _ _ _ _ _ _ _ H1 H2 ltac:(lia) ltac:(lia) Hrec Hw)
        as (v' & Hv' & Hle).
      exists v'. simpl. rewrite <- !Nat.add_succ_comm. split; [done|].
      pose proof (Hdiag (Z.of_nat i) (Z.of_nat j) c1 c2 v w) as Hd.
      rewrite !Nat2Z.id in Hd.
      replace (Z.of_nat i + 1) with (Z.of_nat (Datatypes.S i)) in Hd by lia.
      replace (Z.of_nat j + 1) with (Z.of_nat (Datatypes.S j)) in Hd by lia.
      specialize (Hd ltac:(len_lia) ltac:(len_lia) Hc1 Hc2 Hv Hw). lia.
    + apply run_moves_up in Hrun
        as (c1 & q1 & u1 & u2 & sc0 & -> & Hrec & [= -> -> ->]).
      apply Hdrop in H1 as (Hc1 & H1 & ?).
      destruct (Hcells (Z.of_nat (Datatypes.S i)) (Z.of_nat j))
        as [w Hw]; [len_lia..|].
      destruct (IH _ _ _ _ _ _ _ _ _ _ H1 H2 ltac:(lia) ltac:(lia) Hrec Hw)
        as (v' & Hv' & Hle).
      exists v'. simpl. rewrite <- !Nat.add_succ_comm. split; [done|].
      pose proof (Hup (Z.of_nat i) (Z.of_nat j) v w) as Hu.
      replace (Z.of_nat i + 1) with (Z.of_nat (Datatypes.S i)) in Hu by lia.
      specialize (Hu ltac:(len_lia) ltac:(len_lia) Hv Hw). lia.
    + apply run_moves_left in Hrun
        as (c2 & q2 & u1 & u2 & sc0 & -> & Hrec & [= -> -> ->]).
      apply Hdrop in H2 as (Hc2 & H2 & ?).
      destruct (Hcells (Z.of_nat i) (Z.of_nat (Datatypes.S j)))
        as [w Hw]; [len_lia..|].
      destruct (IH _ _ _ _ _ _ _ _ _ _ H1 H2 ltac:(lia) ltac:(lia) Hrec Hw)
        as (v' & Hv' & Hle).
      exists v'. simpl. rewrite <- !Nat.add_succ_comm. split; [done|].
      pose proof (Hleft (Z.of_nat i) (Z.of_nat j) v w) as Hl.
      replace (Z.of_nat j + 1) with (Z.of_nat (Datatypes.S j)) in Hl by lia.
      specialize (Hl ltac:(len_lia) ltac:(len_lia) Hv Hw). lia.
Qed.

End matrix_bound.

(** ** The global alignment is optimal *)

Section nw_optimal.
Variables (seq1 seq2 : str) (match_score mismatch_score gap : Z).
Variables (S : list (list Z)) (P : list (list pointer)).

Local Abbreviation n := (len seq1).
Local Abbreviation m := (len seq2).

Hypothesis Hinv :
  nw_inv seq1 seq2 match_score mismatch_score gap (n + 1) (m + 1) (n + 1) 1 S P.

(** What the traceback finds at a cell other than [(0, 0)]: the pointer,
    and the neighbour the cell's score was computed from. *)
Lemma nw_step_back i j :
  0 ≤ i ≤ n → 0 ≤ j ≤ m → i > 0 ∨ j > 0 →
  ∃ mv v,
    cell P i j = Some mv ∧ cell S i j = Some v ∧
    match mv with
    | PDiag =>
      1 ≤ i ∧ 1 ≤ j ∧
      ∃ c1 c2 d,
        seq1 !! Z.to_nat (i - 1) = Some c1 ∧
        seq2 !! Z.to_nat (j - 1) = Some c2 ∧
        cell S (i - 1) (j - 1) = Some d ∧
        v = d + (if decide (c1 = c2) then match_score else mismatch_score)
    | PUp =>
      1 ≤ i ∧
      ∃ c1 u,
        seq1 !! Z.to_nat (i - 1) = Some c1 ∧
        cell S (i - 1) j = Some u ∧ v = u + gap
    | PLeft =>
      1 ≤ j ∧
      ∃ c2 l,
        seq2 !! Z.to_nat (j - 1) = Some c2 ∧
        cell S i (j - 1) = Some l ∧ v = l + gap
    | PNone => False
    end.
Proof.
  destruct Hinv as [HS HP Hcol Hup Hrow Hleft Hrec].
  intros Hi Hj Hgo.
  destruct (decide (j = 0)) as [->|Hj0].
  { exists PUp, (i * gap). rewrite Hup, Hcol by lia.
    split; [done|]. split; [done|]. split; [lia|].
    destruct (py_getitem_in_range seq1 (i - 1)) as (c1 & Hc1 & _); [lia|].
    exists c1, ((i - 1) * gap). rewrite Hcol by lia.
    split; [done|]. split; [done|]. lia. }
  destruct (decide (i = 0)) as [->|Hi0].
  { exists PLeft, (j * gap). rewrite Hleft, Hrow by lia.
    split; [done|]. split; [done|]. split; [lia|].
    destruct (py_getitem_in_range seq2 (j - 1)) as (c2 & Hc2 & _); [lia|].
    exists c2, ((j - 1) * gap). rewrite Hrow by lia.
    split; [done|]. split; [done|]. lia. }
  destruct (Hrec i j)
    as (d & u & l & c1 & c2 & Hd & Hu & Hl & H1 & H2 & Hb & Hp); [lia..|].
  cbv zeta in Hb, Hp.
  set (sub := if decide (c1 = c2) then match_score else mismatch_score) in *.
  eexists _, _. split; [exact Hp|]. split; [exact Hb|].
  unfold nw_choice.
  destruct (decide (Z.max (Z.max (d + sub) (u + gap)) (l + gap) = d + sub));
    [|destruct (decide (Z.max (Z.max (d + sub) (u + gap)) (l + gap) = u + gap))].
  - split; [lia|]. split; [lia|]. by exists c1, c2, d.
  - split; [lia|]. by exists c1, u.
  - split; [lia|]. exists c2, l. split; [done|]. split; [done|]. lia.
Qed.

(** The traceback from [(i, j)]: it ends, the strings it collects are the
    rows of an alignment of the two prefixes that scores what the cell
    holds, and the cells it visits form a path back to [(0, 0)]. *)
Lemma nw_traceback_full fuel : ∀ i j aligned1 aligned2 pth,
  0 ≤ i ≤ n → 0 ≤ j ≤ m → (Z.to_nat (i + j) ≤ fuel)%nat →
  ∃ t1 t2 pts moves v,
    nw_traceback seq1 seq2 fuel P i j aligned1 aligned2 pth
      = Ok (aligned1 ++ t1, aligned2 ++ t2, pth ++ pts) ∧
    run_moves match_score mismatch_score gap moves
      (take (Z.to_nat i) seq1) (take (Z.to_nat j) seq2)
      = Some (reverse t1, reverse t2, v) ∧
    cell S i j = Some v ∧
    length pts = length t1 ∧
    ascends (reverse (pts ++ [(0, 0)])) (i, j).
Proof.
  pose proof Hinv as [HS HP Hcol Hup Hrow Hleft Hrec].
  assert (∀ fuel' al1 al2 pth,
            ∃ t1 t2 pts moves v,
              nw_traceback seq1 seq2 fuel' P 0 0 al1 al2 pth
                = Ok (al1 ++ t1, al2 ++ t2, pth ++ pts) ∧
              run_moves match_score mismatch_score gap moves
                (take (Z.to_nat 0) seq1) (take (Z.to_nat 0) seq2)
                = Some (reverse t1, reverse t2, v) ∧
              cell S 0 0 = Some v ∧
              length pts = length t1 ∧
              ascends (reverse (pts ++ [(0, 0)])) (0, 0)) as Hstop.
  { intros fuel' al1 al2 pth. exists [], [], [], [], 0.
    rewrite !app_nil_r. split; [by destruct fuel'|].
    split; [done|]. split; [by rewrite Hcol by len_lia|]. split; [done|].
    constructor. }
  induction fuel as [|fuel IH]; intros i j al1 al2 pth Hi Hj Hfuel.
  { assert (i = 0 ∧ j = 0) as [-> ->] by lia. apply Hstop. }
  destruct (decide (i > 0 ∨ j > 0)) as [Hgo|Hno].
  2:{ assert (i = 0 ∧ j = 0) as [-> ->] by lia. apply Hstop. }
  simpl. rewrite decide_True by done.
  destruct (nw_step_back i j) as (mv & v & Hmv & Hv & Hback); [done..|].
  rewrite (py_getitem2_Some P i j mv) by (done || lia). simpl.
  destruct mv; [done| | |].
  - destruct Hback as (? & ? & c1 & c2 & d & Hc1 & Hc2 & Hd & ->).
    rewrite (py_getitem_Some seq1 (i - 1) c1) by (done || lia).
    rewrite (py_getitem_Some seq2 (j - 1) c2) by (done || lia). simpl.
    destruct (IH (i - 1) (j - 1) (al1 ++ [c1]) (al2 ++ [c2]) (pth ++ [(i, j)]))
      as (t1 & t2 & pts & moves & v & -> & Hrun & Hv' & Hlen & Hasc); [lia..|].
    rewrite Hd in Hv'. injection Hv' as <-.
    eexists (c1 :: t1), (c2 :: t2), ((i, j) :: pts), (moves ++ [MDiag]), _.
    rewrite <- !app_assoc. simpl. split; [done|]. split; [|split; [done|]].
    + rewrite (take_to_nat_snoc seq1 i c1), (take_to_nat_snoc seq2 j c2)
        by (done || lia).
      rewrite !reverse_cons.
      erewrite run_moves_app; [|exact Hrun|simpl; reflexivity].
      do 2 f_equal. lia.
    + split; [lia|]. rewrite reverse_cons.
      eapply ascends_step; [exact Hasc|]. unfold is_step. simpl. lia.
  - destruct Hback as (? & c1 & u & Hc1 & Hu & ->).
    rewrite (py_getitem_Some seq1 (i - 1) c1) by (done || lia). simpl.
    destruct (IH (i - 1) j (al1 ++ [c1]) (al2 ++ [gap_char]) (pth ++ [(i, j)]))
      as (t1 & t2 & pts & moves & v & -> & Hrun & Hv' & Hlen & Hasc); [lia..|].
    rewrite Hu in Hv'. injection Hv' as <-.
    eexists (c1 :: t1), (gap_char :: t2), ((i, j) :: pts), (moves ++ [MUp]), _.
    rewrite <- !app_assoc. simpl. split; [done|]. split; [|split; [done|]].
    + rewrite (take_to_nat_snoc seq1 i c1) by (done || lia).
      rewrite !reverse_cons.
      rewrite <- (app_nil_r (take (Z.to_nat j) seq2)).
      erewrite run_moves_app; [|exact Hrun|simpl; reflexivity].
      do 2 f_equal. lia.
    + split; [lia|]. rewrite reverse_cons.
      eapply ascends_step; [exact Hasc|]. unfold is_step. simpl. lia.
  - destruct Hback as (? & c2 & l & Hc2 & Hl & ->).
    rewrite (py_getitem_Some seq2 (j - 1) c2) by (done || lia). simpl.
    destruct (IH i (j - 1) (al1 ++ [gap_char]) (al2 ++ [c2]) (pth ++ [(i, j)]))
      as (t1 & t2 & pts & moves & v & -> & Hrun & Hv' & Hlen & Hasc); [lia..|].
    rewrite Hl in Hv'. injection Hv' as <-.
    eexists (gap_char :: t1), (c2 :: t2), ((i, j) :: pts), (moves ++ [MLeft]), _.
    rewrite <- !app_assoc. simpl. split; [done|]. split; [|split; [done|]].
    + rewrite (take_to_nat_snoc seq2 j c2) by (done || lia).
      rewrite !reverse_cons.
      rewrite <- (app_nil_r (take (Z.to_nat i) seq1)).
      erewrite run_moves_app; [|exact Hrun|simpl; reflexivity].
      do 2 f_equal. lia.
    + split; [lia|]. rewrite reverse_cons.
      eapply ascends_step; [exact Hasc|]. unfold is_step. simpl. lia.
Qed.

(** No alignment of the two sequences scores more than the last cell of
    the matrix. *)
Lemma nw_corner_bound moves t1 t2 sc :
  run_moves match_score mismatch_score gap moves seq1 seq2 = Some (t1, t2, sc) →
  ∃ v, cell S n m = Some v ∧ sc ≤ v.
Proof.
  pose proof Hinv as [HS HP Hcol Hup Hrow Hleft Hrec].
  intros Hrun.
  destruct (run_moves_bounded seq1 seq2 match_score mismatch_score gap S)
    with (moves := moves) (i := 0%nat) (j := 0%nat) (s1 := seq1) (s2 := seq2)
         (r1 := @nil ascii) (r2 := @nil ascii) (t1 := t1) (t2 := t2)
         (sc := sc) (v := 0)
    as (v' & Hv' & Hle); try done; try lia.
  - intros i j c1 c2 v v' Hi Hj Hc1 Hc2 Hv Hv'.
    destruct (Hrec (i + 1) (j + 1))
      as (d & u & l & d1 & d2 & Hd & _ & _ & H1 & H2 & Hb & _); [lia..|].
    replace (i + 1 - 1) with i in * by lia.
    replace (j + 1 - 1) with j in * by lia.
    rewrite Hv in Hd. rewrite Hv' in Hb. rewrite Hc1 in H1. rewrite Hc2 in H2.
    injection Hd as <-. injection Hb as ->.
    injection H1 as <-. injection H2 as <-. lia.
  - intros i j v v' Hi Hj Hv Hv'.
    destruct (decide (j = 0)) as [->|].
    + rewrite Hcol in Hv, Hv' by lia. injection Hv as <-. injection Hv' as <-.
      lia.
    + destruct (Hrec (i + 1) j)
        as (d & u & l & d1 & d2 & _ & Hu & _ & _ & _ & Hb & _); [lia..|].
      replace (i + 1 - 1) with i in * by lia.
      rewrite Hv in Hu. rewrite Hv' in Hb.
      injection Hu as <-. injection Hb as ->. lia.
  - intros i j v v' Hi Hj Hv Hv'.
    destruct (decide (i = 0)) as [->|].
    + rewrite Hrow in Hv, Hv' by lia. injection Hv as <-. injection Hv' as <-.
      lia.
    + destruct (Hrec i (j + 1))
        as (d & u & l & d1 & d2 & _ & _ & Hl & _ & _ & Hb & _); [lia..|].
      replace (j + 1 - 1) with j in * by lia.
      rewrite Hv in Hl. rewrite Hv' in Hb.
      injection Hl as <-. injection Hb as ->. lia.
  - by rewrite !app_nil_r.
  - by rewrite !app_nil_r.
  - by rewrite Hcol by len_lia.
  - exists v'. simpl in Hv'. split; [exact Hv'|lia].
Qed.

End nw_optimal.

(** ** The global aligner's result, in full *)

Section nw_result_proofs.
Variables (seq1 seq2 : str) (match_score mismatch_score gap : Z).

Local Abbreviation n := (len seq1).
Local Abbreviation m := (len seq2).

Lemma needleman_wunsch_full :
  ∃ S P t1 t2 pts moves v,
    nw_inv seq1 seq2 match_score mismatch_score gap (n + 1) (m + 1) (n + 1) 1
      S P ∧
    needleman_wunsch seq1 seq2 match_score mismatch_score gap
    = Ok {| aligned_seq1 := reverse t1;
            aligned_seq2 := reverse t2;
            matches := count_pairs char_eqb (reverse t1) (reverse t2);
            aln_length := len (reverse t1);
            similarity :=
              percent_value (count_pairs char_eqb (reverse t1) (reverse t2))
                (len (reverse t1)) (len (reverse t1));
            score_matrix := S;
            path := reverse (pts ++ [(0, 0)]) |} ∧
    run_moves match_score mismatch_score gap moves seq1 seq2
      = Some (reverse t1, reverse t2, v) ∧
    cell S n m = Some v ∧
    length pts = length t1 ∧
    ascends (reverse (pts ++ [(0, 0)])) (n, m).
Proof.
  destruct (nw_fill_spec seq1 seq2 match_score mismatch_score gap)
    as (S & P & Hfill & Hinv).
  destruct (nw_traceback_full seq1 seq2 match_score mismatch_score gap S P Hinv
              (length seq1 + length seq2) n m [] [] [])
    as (t1 & t2 & pts & moves & v & Htb & Hrun & Hv & Hlen & Hasc);
    [len_lia..|].
  simpl in Htb. unfold len in Hrun. rewrite !Nat2Z.id, !firstn_all in Hrun.
  exists S, P, t1, t2, pts, moves, v. split; [done|].
  split; [|done].
  exact (needleman_wunsch_unfold seq1 seq2 match_score mismatch_score gap
           _ S P t1 t2 pts Hfill Htb).
Qed.

End nw_result_proofs.

Lemma count_pairs_bounds p (t1 t2 : str) :
  0 ≤ count_pairs p t1 t2 ≤ Z.min (len t1) (len t2).
Proof.
  unfold count_pairs, len.
  pose proof (length_filter (λ xy : ascii * ascii, p xy.1 xy.2 = true) (zip t1 t2)).
  pose proof (length_zip_with pair t1 t2) as Hz. lia.
Qed.

Lemma percent_value_bounds num den :
  0 ≤ num ≤ den →
  (0 <= percent_value num den den)%Q ∧ (percent_value num den den <= 100)%Q.
Proof.
  intros Hnum. unfold percent_value. case_decide as Hden; [done|].
  destruct den as [|den|den]; [done| |lia].
  unfold Qle, Qdiv, Qmult, Qinv. simpl. split; nia.
Qed.

Lemma gap_insertion_nil_l t : gap_insertion [] t → t = replicate (length t) gap_char.
Proof.
  remember [] as e eqn:He. induction 1 as [| |e t _ IH]; [done|done|].
  simpl. f_equal. auto.
Qed.

Lemma run_moves_empty_right ms mm g moves : ∀ s1 t1 t2 sc,
  run_moves ms mm g moves s1 [] = Some (t1, t2, sc) →
  t1 = s1 ∧ t2 = replicate (length s1) gap_char ∧ sc = len s1 * g.
Proof.
  induction moves as [|mv moves IH]; intros s1 t1 t2 sc H.
  - apply run_moves_nil in H as (-> & _ & [= -> -> ->]). done.
  - destruct mv.
    + apply run_moves_diag in H as (? & ? & ? & ? & ? & ? & ? & _ & ? & _); done.
    + apply run_moves_up in H as (c1 & r1 & u1 & u2 & sc0 & -> & Hrec & [= -> -> ->]).
      apply IH in Hrec as (-> & -> & ->). unfold len. simpl.
      repeat split; lia.
    + apply run_moves_left in H as (? & ? & ? & ? & ? & ? & _); done.
Qed.

Lemma run_moves_empty_left ms mm g moves : ∀ s2 t1 t2 sc,
  run_moves ms mm g moves [] s2 = Some (t1, t2, sc) →
  t1 = replicate (length s2) gap_char ∧ t2 = s2 ∧ sc = len s2 * g.
Proof.
  induction moves as [|mv moves IH]; intros s2 t1 t2 sc H.
  - apply run_moves_nil in H as (_ & -> & [= -> -> ->]). done.
  - destruct mv.
    + apply run_moves_diag in H as (? & ? & ? & ? & ? & ? & ? & ? & _); done.
    + apply run_moves_up in H as (? & ? & ? & ? & ? & ? & _); done.
    + apply run_moves_left in H as (c2 & r2 & u1 & u2 & sc0 & -> & Hrec & [= -> -> ->]).
      apply IH in Hrec as (-> & -> & ->). unfold len. simpl.
      repeat split; lia.
Qed.

Lemma match_bar_lookup (row1 row2 : str) k c1 c2 :
  row1 !! k = Some c1 → row2 !! k = Some c2 →
  match_bar row1 row2 !! k
  = Some (if decide (c1 = c2) then "|"%char else " "%char).
Proof.
  intros H1 H2. unfold match_bar.
  rewrite list_lookup_fmap.
  assert (zip row1 row2 !! k = Some (c1, c2)) as ->; [|done].
  by rewrite lookup_zip_with, H1, H2.
Qed.

Lemma match_bar_count (row1 row2 : str) :
  len (filter (λ c, c = "|"%char) (match_bar row1 row2))
  = count_pairs char_eqb row1 row2.
Proof.
  unfold match_bar, count_pairs, len. f_equal.
  induction (zip row1 row2) as [|[x y] l IH]; [done|].
  rewrite fmap_cons. simpl fst. simpl snd.
  unfold char_eqb in *. destruct (decide (x = y)) as [Heq|Hne].
  - rewrite !filter_cons_True;
      [|simpl; by rewrite bool_decide_true|done].
    simpl. by rewrite IH.
  - rewrite !filter_cons_False;
      [done|simpl; by rewrite bool_decide_false|done].
Qed.

(** ** Properties of [needleman_wunsch] and [_match_bar] *)

(** X1: the alignment [needleman_wunsch] returns is an alignment of the
    two whole sequences, its score is the last cell of the score matrix,
    and no alignment of the two sequences scores more. *)
Theorem global_alignment_optimal (seq1 seq2 : str) (match_ mismatch gap : Z) :
  ∃ r moves best,
    needleman_wunsch seq1 seq2 match_ mismatch gap = Ok r ∧
    py_getitem2 (score_matrix r) (len seq1) (len seq2) = Ok best ∧
    run_moves match_ mismatch gap moves seq1 seq2
      = Some (aligned_seq1 r, aligned_seq2 r, best) ∧
    ∀ moves' t1 t2 sc,
      run_moves match_ mismatch gap moves' seq1 seq2 = Some (t1, t2, sc) →
      sc ≤ best.
Proof.
  destruct (needleman_wunsch_full seq1 seq2 match_ mismatch gap)
    as (S & P & t1 & t2 & pts & moves & v & Hinv & Hr & Hrun & Hv & _).
  eexists _, moves, v. split; [exact Hr|]. simpl.
  split; [apply py_getitem2_Some; [len_lia..|done]|].
  split; [done|].
  intros moves' u1 u2 sc Hrun'.
  destruct (nw_corner_bound seq1 seq2 match_ mismatch gap S P Hinv
              moves' u1 u2 sc Hrun') as (v' & Hv' & Hle).
  congruence.
Qed.

Lemma global_alignment_optimal_witness :
  ∃ r best,
    needleman_wunsch (py_str "GATTACA") (py_str "GCATGCU") 1 (-1) (-1) = Ok r ∧
    py_getitem2 (score_matrix r) 7 7 = Ok best ∧
    0 ≤ best.
Proof.
  destruct (global_alignment_optimal (py_str "GATTACA") (py_str "GCATGCU")
              1 (-1) (-1)) as (r & moves & best & Hr & Hbest & _ & Hopt).
  exists r, best. split; [exact Hr|]. split; [exact Hbest|].
  apply (Hopt [MDiag; MLeft; MDiag; MDiag; MUp; MDiag; MDiag; MDiag]
           (py_str "G-ATTACA") (py_str "GCAT-GCU")).
  reflexivity.
Defined.

(** X2: the path [needleman_wunsch] returns leads from [(0, 0)] to
    [(len(seq1), len(seq2))] by steps down, right or down and right, and
    has one cell more than the alignment has columns. *)
Theorem global_path_ascends (seq1 seq2 : str) (match_ mismatch gap : Z) :
  ∃ r,
    needleman_wunsch seq1 seq2 match_ mismatch gap = Ok r ∧
    ascends (path r) (len seq1, len seq2) ∧
    len (path r) = aln_length r + 1.
Proof.
  destruct (needleman_wunsch_full seq1 seq2 match_ mismatch gap)
    as (S & P & t1 & t2 & pts & moves & v & _ & Hr & _ & _ & Hlen & Hasc).
  eexists. split; [exact Hr|]. simpl. split; [done|].
  unfold len. rewrite !length_reverse, length_app. simpl. lia.
Qed.

(** X3: the first column and the first row of the score matrix hold the
    multiples of the gap penalty: [score_matrix[i][0] = i * gap] and
    [score_matrix[0][j] = j * gap]. *)
Theorem global_matrix_borders (seq1 seq2 : str) (match_ mismatch gap : Z) :
  ∃ r,
    needleman_wunsch seq1 seq2 match_ mismatch gap = Ok r ∧
    (∀ i, 0 ≤ i ≤ len seq1 → py_getitem2 (score_matrix r) i 0 = Ok (i * gap)) ∧
    (∀ j, 0 ≤ j ≤ len seq2 → py_getitem2 (score_matrix r) 0 j = Ok (j * gap)).
Proof.
  destruct (needleman_wunsch_full seq1 seq2 match_ mismatch gap)
    as (S & P & t1 & t2 & pts & moves & v & Hinv & Hr & _).
  destruct Hinv as [_ _ Hcol _ Hrow _ _].
  eexists. split; [exact Hr|]. simpl. split.
  - intros i Hi. apply py_getitem2_Some; [lia..|]. apply Hcol. lia.
  - intros j Hj. apply py_getitem2_Some; [lia..|]. apply Hrow. lia.
Qed.

(** X4: in the result of [needleman_wunsch] the field [length] is the
    length of both aligned strings, [matches] lies between [0] and
    [length], and [similarity] between [0] and [100]. *)
Theorem global_similarity_bounds (seq1 seq2 : str) (match_ mismatch gap : Z) :
  ∃ r,
    needleman_wunsch seq1 seq2 match_ mismatch gap = Ok r ∧
    aln_length r = len (aligned_seq1 r) ∧
    aln_length r = len (aligned_seq2 r) ∧
    0 ≤ matches r ≤ aln_length r ∧
    (0 <= similarity r)%Q ∧ (similarity r <= 100)%Q.
Proof.
  destruct (needleman_wunsch_full seq1 seq2 match_ mismatch gap)
    as (S & P & t1 & t2 & pts & moves & v & _ & Hr & Hrun & _).
  apply run_moves_rows in Hrun as (_ & _ & Hl1 & Hl2).
  pose proof (count_pairs_bounds char_eqb (reverse t1) (reverse t2)) as Hc.
  eexists. split; [exact Hr|]. simpl.
  split; [done|]. split; [unfold len; lia|].
  split; [lia|]. apply percent_value_bounds. lia.
Qed.

(** X5: against an empty second sequence [needleman_wunsch] returns the
    first sequence over a row of gaps, and against an empty first
    sequence a row of gaps over the second; the last cell of the matrix is
    then the length times the gap penalty. *)
Theorem global_against_empty (seq : str) (match_ mismatch gap : Z) :
  (∃ r,
     needleman_wunsch seq [] match_ mismatch gap = Ok r ∧
     aligned_seq1 r = seq ∧
     aligned_seq2 r = replicate (length seq) gap_char ∧
     py_getitem2 (score_matrix r) (len seq) 0 = Ok (len seq * gap)) ∧
  (∃ r,
     needleman_wunsch [] seq match_ mismatch gap = Ok r ∧
     aligned_seq1 r = replicate (length seq) gap_char ∧
     aligned_seq2 r = seq ∧
     py_getitem2 (score_matrix r) 0 (len seq) = Ok (len seq * gap)).
Proof.
  split.
  - destruct (needleman_wunsch_full seq [] match_ mismatch gap)
      as (S & P & t1 & t2 & pts & moves & v & _ & Hr & Hrun & Hv & _).
    apply run_moves_empty_right in Hrun as (H1 & H2 & ->).
    eexists. split; [exact Hr|]. simpl.
    split; [done|]. split; [done|].
    apply py_getitem2_Some; [len_lia..|done].
  - destruct (needleman_wunsch_full [] seq match_ mismatch gap)
      as (S & P & t1 & t2 & pts & moves & v & _ & Hr & Hrun & Hv & _).
    apply run_moves_empty_left in Hrun as (H1 & H2 & ->).
    eexists. split; [exact Hr|]. simpl.
    split; [done|]. split; [done|].
    apply py_getitem2_Some; [len_lia..|done].
Qed.

(** X6: [_match_bar] puts a bar exactly under the columns whose two
    characters are equal and a space under the others, as many characters
    as the shorter row has; under the rows [needleman_wunsch] returns it
    is as long as the alignment and has [matches] bars. *)
Theorem match_bar_marks_matches :
  (∀ (row1 row2 : str) k c1 c2,
     row1 !! k = Some c1 → row2 !! k = Some c2 →
     match_bar row1 row2 !! k
     = Some (if decide (c1 = c2) then "|"%char else " "%char)) ∧
  (∀ row1 row2 : str,
     len (match_bar row1 row2) = Z.min (len row1) (len row2)) ∧
  (∀ (seq1 seq2 : str) (match_ mismatch gap : Z),
     ∃ r,
       needleman_wunsch seq1 seq2 match_ mismatch gap = Ok r ∧
       len (match_bar (aligned_seq1 r) (aligned_seq2 r)) = aln_length r ∧
       len (filter (λ c, c = "|"%char)
              (match_bar (aligned_seq1 r) (aligned_seq2 r)))
       = matches r).
Proof.
  assert (∀ row1 row2 : str,
            len (match_bar row1 row2) = Z.min (len row1) (len row2)) as Hlen.
  { intros. unfold match_bar, len. rewrite length_fmap, length_zip_with. lia. }
  split; [apply match_bar_lookup|]. split; [done|].
  intros seq1 seq2 match_ mismatch gap.
  destruct (needleman_wunsch_full seq1 seq2 match_ mismatch gap)
    as (S & P & t1 & t2 & pts & moves & v & _ & Hr & Hrun & _).
  apply run_moves_rows in Hrun as (_ & _ & Hl1 & Hl2).
  eexists. split; [exact Hr|]. simpl.
  split; [rewrite Hlen; unfold len; lia|apply match_bar_count].
Qed.

Lemma match_bar_marks_matches_witness :
  match_bar (py_str "A-CG") (py_str "AGCT") = py_str "| | ".
Proof.
  apply list_eq. intros k.
  destruct k as [|[|[|[|k]]]]; [| | | |reflexivity];
    (erewrite (proj1 match_bar_marks_matches); [|reflexivity..]); reflexivity.
Defined.

(** ** The local alignment and its coordinates *)

Lemma py_slice_inside {A} (l : list A) lo hi :
  0 ≤ lo ≤ hi → hi ≤ len l →
  py_slice l lo hi = take (Z.to_nat (hi - lo)) (drop (Z.to_nat lo) l).
Proof.
  intros Hlo Hhi. unfold py_slice, py_slice_bound.
  rewrite !decide_False by lia. do 2 f_equal; lia.
Qed.

Lemma py_slice_empty {A} (l : list A) i : 0 ≤ i ≤ len l → py_slice l i i = [].
Proof.
  intros Hi. rewrite py_slice_inside by lia.
  by replace (Z.to_nat (i - i)) with 0%nat by lia.
Qed.

Lemma py_slice_snoc {A} (l : list A) lo hi c :
  0 ≤ lo ≤ hi - 1 → hi ≤ len l → l !! Z.to_nat (hi - 1) = Some c →
  py_slice l lo hi = py_slice l lo (hi - 1) ++ [c].
Proof.
  intros Hlo Hhi Hc. rewrite !py_slice_inside by lia.
  replace (Z.to_nat (hi - lo)) with (Datatypes.S (Z.to_nat (hi - 1 - lo))) by lia.
  apply take_S_r. rewrite lookup_drop. rewrite <- Hc. f_equal. lia.
Qed.

(** A slice is a stretch of the list: something comes before it and
    something after. *)
Lemma py_slice_stretch {A} (l : list A) lo hi :
  ∃ (p : nat) rest, (p ≤ length l)%nat ∧ drop p l = py_slice l lo hi ++ rest.
Proof.
  unfold py_slice.
  set (p := Z.to_nat (py_slice_bound (len l) lo)).
  exists p, (drop (Z.to_nat (py_slice_bound (len l) hi
                              - py_slice_bound (len l) lo)) (drop p l)).
  split; [|by rewrite take_drop].
  unfold p, py_slice_bound, len. lia.
Qed.

Section sw_optimal.
Variables (a b : str) (match_ mismatch gap : Z) (st : sw_state).

Local Abbreviation n := (len a).
Local Abbreviation m := (len b).
Local Abbreviation S := (sw_scores st).
Local Abbreviation P := (sw_pointers st).

Hypothesis Hinv : sw_inv a b match_ mismatch gap (n + 1) 1 st.

(** What the traceback finds at a cell with a positive score: the
    pointer, and the neighbour the score was computed from. *)
Lemma sw_step_back i j v :
  1 ≤ i ≤ n → 1 ≤ j ≤ m → cell S i j = Some v → 0 < v →
  ∃ mv c1 c2 d u l,
    cell P i j = Some mv ∧
    a !! Z.to_nat (i - 1) = Some c1 ∧
    b !! Z.to_nat (j - 1) = Some c2 ∧
    cell S (i - 1) (j - 1) = Some d ∧
    cell S (i - 1) j = Some u ∧
    cell S i (j - 1) = Some l ∧
    (mv = 1 → v = d + (if decide (c1 = c2) then match_ else mismatch)) ∧
    (mv ≠ 1 → mv = 2 → v = u + gap) ∧
    (mv ≠ 1 → mv ≠ 2 → v = l + gap).
Proof.
  destruct Hinv as [_ _ _ Hrec _].
  intros Hi Hj Hv Hpos.
  destruct (Hrec i j)
    as (d & u & l & c1 & c2 & Hd & Hu & Hl & H1 & H2 & Hb & Hp);
    [lia|lia|unfold scanned_before; lia|].
  cbv zeta in Hb, Hp.
  set (sub := if decide (c1 = c2) then match_ else mismatch) in *.
  rewrite Hv in Hb. injection Hb as Hb.
  eexists _, c1, c2, d, u, l. split; [exact Hp|]. repeat split; try done.
  - unfold sw_choice. repeat case_decide; lia.
  - unfold sw_choice. repeat case_decide; lia.
  - unfold sw_choice. repeat case_decide; lia.
Qed.

(** The traceback from [(i, j)]: it ends at a cell [(i', j')] above and
    left of it, the strings it collects are the rows of an alignment of
    [a[i':i]] and [b[j':j]] that scores what cell [(i, j)] holds, and it
    collects nothing exactly when that is [0]. *)
Lemma sw_traceback_full fuel : ∀ i j aligned_a aligned_b,
  0 ≤ i ≤ n → 0 ≤ j ≤ m → (Z.to_nat (i + j) ≤ fuel)%nat →
  ∃ i' j' t1 t2 moves v,
    sw_traceback a b fuel S P i j aligned_a aligned_b
      = Ok (i', j', aligned_a ++ t1, aligned_b ++ t2) ∧
    0 ≤ i' ≤ i ∧ 0 ≤ j' ≤ j ∧
    run_moves match_ mismatch gap moves (py_slice a i' i) (py_slice b j' j)
      = Some (reverse t1, reverse t2, v) ∧
    cell S i j = Some v ∧
    (t1 = [] ↔ v = 0).
Proof.
  pose proof Hinv as [HS HP Hborder Hrec _].
  assert (∀ fuel' i j al1 al2 v, 0 ≤ i ≤ n → 0 ≤ j ≤ m →
            cell S i j = Some v → ¬ (i > 0 ∧ j > 0 ∧ v > 0) →
            ∃ i' j' t1 t2 moves v,
              sw_traceback a b fuel' S P i j al1 al2
                = Ok (i', j', al1 ++ t1, al2 ++ t2) ∧
              0 ≤ i' ≤ i ∧ 0 ≤ j' ≤ j ∧
              run_moves match_ mismatch gap moves
                (py_slice a i' i) (py_slice b j' j)
                = Some (reverse t1, reverse t2, v) ∧
              cell S i j = Some v ∧
              (t1 = [] ↔ v = 0)) as Hstop.
  { intros fuel' i j al1 al2 v Hi Hj Hv Hno.
    exists i, j, [], [], [], 0. rewrite !app_nil_r, !py_slice_empty by lia.
    assert (v = 0) as ->.
    { pose proof (sw_cell_nonneg a b match_ mismatch gap st i j v Hinv Hi Hj Hv).
      destruct (decide (i = 0 ∨ j = 0)) as [H0|H0]; [|lia].
      rewrite Hborder in Hv by done. by injection Hv. }
    split; [|repeat split; (done || lia)].
    destruct fuel'; simpl.
    - case_decide; [|done].
      rewrite (py_getitem2_Some S i j 0) by (done || lia). by simpl.
    - case_decide; [|done].
      rewrite (py_getitem2_Some S i j 0) by (done || lia). by simpl. }
  induction fuel as [|fuel IH]; intros i j al1 al2 Hi Hj Hfuel.
  { destruct (HS i j) as [v Hv]; [lia..|]. eapply Hstop; [done..|lia]. }
  destruct (HS i j) as [v Hv]; [lia..|].
  destruct (decide (i > 0 ∧ j > 0 ∧ v > 0)) as [(? & ? & ?)|Hno];
    [|by eapply Hstop].
  simpl. rewrite decide_True by done.
  rewrite (py_getitem2_Some S i j v) by (done || lia). simpl.
  rewrite decide_True by done.
  destruct (sw_step_back i j v)
    as (mv & c1 & c2 & d & u & l & Hmv & Hc1 & Hc2 & Hd & Hu & Hl
        & Hdiag & Hup & Hleft); [lia..|done|lia|].
  rewrite (py_getitem2_Some P i j mv) by (done || lia). simpl.
  rewrite (py_getitem_Some a (i - 1) c1) by (done || lia).
  rewrite (py_getitem_Some b (j - 1) c2) by (done || lia). simpl.
  destruct (decide (mv = 1)) as [Hm1|Hm1];
    [|destruct (decide (mv = 2)) as [Hm2|Hm2]].
  - destruct (IH (i - 1) (j - 1) (al1 ++ [c1]) (al2 ++ [c2]))
      as (i' & j' & t1 & t2 & moves & v' & -> & Hi' & Hj' & Hrun & Hv' & _);
      [lia..|].
    rewrite Hd in Hv'. injection Hv' as <-.
    exists i', j', (c1 :: t1), (c2 :: t2), (moves ++ [MDiag]), v.
    rewrite <- !app_assoc. simpl. split; [done|].
    split; [lia|]. split; [lia|]. split; [|split; [done|split; [done|lia]]].
    rewrite (py_slice_snoc a i' i c1), (py_slice_snoc b j' j c2) by (done || lia).
    rewrite !reverse_cons.
    erewrite run_moves_app; [|exact Hrun|simpl; reflexivity].
    do 2 f_equal. rewrite (Hdiag Hm1). lia.
  - destruct (IH (i - 1) j (al1 ++ [c1]) (al2 ++ [gap_char]))
      as (i' & j' & t1 & t2 & moves & v' & -> & Hi' & Hj' & Hrun & Hv' & _);
      [lia..|].
    rewrite Hu in Hv'. injection Hv' as <-.
    exists i', j', (c1 :: t1), (gap_char :: t2), (moves ++ [MUp]), v.
    rewrite <- !app_assoc. simpl. split; [done|].
    split; [lia|]. split; [lia|]. split; [|split; [done|split; [done|lia]]].
    rewrite (py_slice_snoc a i' i c1) by (done || lia).
    rewrite !reverse_cons.
    rewrite <- (app_nil_r (py_slice b j' j)).
    erewrite run_moves_app; [|exact Hrun|simpl; reflexivity].
    do 2 f_equal. rewrite (Hup Hm1 Hm2). lia.
  - destruct (IH i (j - 1) (al1 ++ [gap_char]) (al2 ++ [c2]))
      as (i' & j' & t1 & t2 & moves & v' & -> & Hi' & Hj' & Hrun & Hv' & _);
      [lia..|].
    rewrite Hl in Hv'. injection Hv' as <-.
    exists i', j', (gap_char :: t1), (c2 :: t2), (moves ++ [MLeft]), v.
    rewrite <- !app_assoc. simpl. split; [done|].
    split; [lia|]. split; [lia|]. split; [|split; [done|split; [done|lia]]].
    rewrite (py_slice_snoc b j' j c2) by (done || lia).
    rewrite !reverse_cons.
    rewrite <- (app_nil_r (py_slice a i' i)).
    erewrite run_moves_app; [|exact Hrun|simpl; reflexivity].
    do 2 f_equal. rewrite (Hleft Hm1 Hm2). lia.
Qed.

(** The best score is held by the cell at the best position. *)
Lemma sw_best_cell :
  cell S (sw_best_pos st).1 (sw_best_pos st).2 = Some (sw_best_score st).
Proof.
  destruct Hinv as [_ _ Hborder _ [_ [[-> ->]|(_ & _ & _ & _ & Hc & _)]]];
    [|done].
  apply Hborder; simpl; len_lia.
Qed.

(** With a gap penalty that is not positive, no alignment of a stretch of
    [a] with a stretch of [b] scores more than the best score. *)
Lemma sw_best_bound moves (p q : nat) s1 s2 r1 r2 t1 t2 sc :
  gap ≤ 0 →
  drop p a = s1 ++ r1 → drop q b = s2 ++ r2 →
  (p ≤ length a)%nat → (q ≤ length b)%nat →
  run_moves match_ mismatch gap moves s1 s2 = Some (t1, t2, sc) →
  sc ≤ sw_best_score st.
Proof.
  pose proof Hinv as [HS HP Hborder Hrec _].
  intros Hgap H1 H2 Hp Hq Hrun.
  destruct (HS (Z.of_nat p) (Z.of_nat q)) as [v Hv]; [len_lia..|].
  destruct (run_moves_bounded a b match_ mismatch gap S)
    with (moves := moves) (i := p) (j := q) (s1 := s1) (s2 := s2)
         (r1 := r1) (r2 := r2) (t1 := t1) (t2 := t2) (sc := sc) (v := v)
    as (v' & Hv' & Hle); try done.
  - intros i j c1 c2 w w' Hi Hj Hc1 Hc2 Hw Hw'.
    destruct (Hrec (i + 1) (j + 1))
      as (d & u & l & d1 & d2 & Hd & _ & _ & Hd1 & Hd2 & Hb & _);
      [lia|lia|unfold scanned_before; lia|].
    replace (i + 1 - 1) with i in * by lia.
    replace (j + 1 - 1) with j in * by lia.
    rewrite Hw in Hd. rewrite Hw' in Hb. rewrite Hc1 in Hd1. rewrite Hc2 in Hd2.
    injection Hd as <-. injection Hb as ->.
    injection Hd1 as <-. injection Hd2 as <-. lia.
  - intros i j w w' Hi Hj Hw Hw'.
    destruct (decide (j = 0)) as [->|].
    + rewrite Hborder in Hw, Hw' by lia.
      injection Hw as <-. injection Hw' as <-. lia.
    + destruct (Hrec (i + 1) j)
        as (d & u & l & d1 & d2 & _ & Hu & _ & _ & _ & Hb & _);
        [lia|lia|unfold scanned_before; lia|].
      replace (i + 1 - 1) with i in * by lia.
      rewrite Hw in Hu. rewrite Hw' in Hb.
      injection Hu as <-. injection Hb as ->. lia.
  - intros i j w w' Hi Hj Hw Hw'.
    destruct (decide (i = 0)) as [->|].
    + rewrite Hborder in Hw, Hw' by lia.
      injection Hw as <-. injection Hw' as <-. lia.
    + destruct (Hrec i (j + 1))
        as (d & u & l & d1 & d2 & _ & _ & Hl & _ & _ & Hb & _);
        [lia|lia|unfold scanned_before; lia|].
      replace (j + 1 - 1) with j in * by lia.
      rewrite Hw in Hl. rewrite Hw' in Hb.
      injection Hl as <-. injection Hb as ->. lia.
  - assert (length s1 ≤ length (drop p a))%nat
      by (rewrite H1, length_app; lia).
    assert (length s2 ≤ length (drop q b))%nat
      by (rewrite H2, length_app; lia).
    rewrite length_drop in *.
    pose proof (sw_cell_nonneg a b match_ mismatch gap st
                  (Z.of_nat p) (Z.of_nat q) v Hinv
                  ltac:(len_lia) ltac:(len_lia) Hv).
    pose proof (sw_cell_le_best a b match_ mismatch gap st
                  (Z.of_nat (p + length s1)) (Z.of_nat (q + length s2)) v' Hinv
                  ltac:(len_lia) ltac:(len_lia) Hv').
    lia.
Qed.

End sw_optimal.

(** ** The local aligner's result, in full *)

Lemma smith_waterman_full (a b : str) (match_ mismatch gap : Z) :
  ∃ st sa sb t1 t2 moves,
    sw_inv a b match_ mismatch gap (len a + 1) 1 st ∧
    smith_waterman a b match_ mismatch gap
    = Ok (sw_record (len a) match_ mismatch gap (sw_best_score st)
            sa (sw_best_pos st).1 sb (sw_best_pos st).2
            (reverse t1) (reverse t2)) ∧
    0 ≤ sa ≤ (sw_best_pos st).1 ∧ (sw_best_pos st).1 ≤ len a ∧
    0 ≤ sb ≤ (sw_best_pos st).2 ∧ (sw_best_pos st).2 ≤ len b ∧
    run_moves match_ mismatch gap moves
      (py_slice a sa (sw_best_pos st).1) (py_slice b sb (sw_best_pos st).2)
      = Some (reverse t1, reverse t2, sw_best_score st) ∧
    (t1 = [] ↔ sw_best_score st = 0).
Proof.
  destruct (sw_fill_spec a b match_ mismatch gap) as (st & Hfill & Hinv).
  pose proof (sw_best_pos_range _ _ _ _ _ _ _ _ Hinv) as [Hi Hj].
  destruct (sw_traceback_full a b match_ mismatch gap st Hinv
              (length a + length b) (sw_best_pos st).1 (sw_best_pos st).2 [] [])
    as (sa & sb & t1 & t2 & moves & v & Htb & Hsa & Hsb & Hrun & Hv & Hnil);
    [done|done|len_lia|].
  rewrite (sw_best_cell a b match_ mismatch gap st Hinv) in Hv.
  injection Hv as <-. simpl in Htb.
  exists st, sa, sb, t1, t2, moves. split; [done|].
  split; [by apply smith_waterman_unfold|].
  repeat split; try done; try lia; apply Hnil.
Qed.

Lemma count_pairs_cons p x y (t1 t2 : str) :
  count_pairs p (x :: t1) (y :: t2)
  = (if p x y then 1 else 0) + count_pairs p t1 t2.
Proof.
  unfold count_pairs, len. simpl zip_with.
  destruct (p x y) eqn:Hp.
  - rewrite filter_cons_True by done. simpl length. lia.
  - rewrite filter_cons_False by (simpl; congruence). lia.
Qed.

Lemma count_pairs_nil p : count_pairs p [] [] = 0.
Proof. done. Qed.

Lemma tally_cases x y :
  (is_match x y = true ∧ is_mismatch x y = false ∧ is_gap x y = false) ∨
  (is_match x y = false ∧ is_mismatch x y = true ∧ is_gap x y = false) ∨
  (is_match x y = false ∧ is_mismatch x y = false ∧ is_gap x y = true).
Proof.
  unfold is_match, is_mismatch, is_gap.
  repeat case_bool_decide; simpl; auto; congruence.
Qed.

Lemma tally_no_gap x y :
  x ≠ gap_char → y ≠ gap_char →
  is_match x y = bool_decide (x = y) ∧
  is_mismatch x y = negb (bool_decide (x = y)) ∧
  is_gap x y = false.
Proof.
  intros. unfold is_match, is_mismatch, is_gap.
  repeat case_bool_decide; simpl; auto; congruence.
Qed.

Lemma tally_gap x y :
  x = gap_char ∨ y = gap_char →
  is_match x y = false ∧ is_mismatch x y = false ∧ is_gap x y = true.
Proof.
  intros. unfold is_match, is_mismatch, is_gap.
  repeat case_bool_decide; simpl; auto; try congruence; tauto.
Qed.

(** Every column is a match, a mismatch or a gap, and only one of them. *)
Lemma tallies_partition (t1 t2 : str) :
  length t1 = length t2 →
  count_pairs is_match t1 t2 + count_pairs is_mismatch t1 t2
  + count_pairs is_gap t1 t2 = len t1.
Proof.
  revert t2. induction t1 as [|x t1 IH]; intros [|y t2] Hlen; try done.
  rewrite !count_pairs_cons. injection Hlen as Hlen.
  specialize (IH _ Hlen). unfold len in *. simpl length.
  destruct (tally_cases x y) as [(-> & -> & ->)|[(-> & -> & ->)|(-> & -> & ->)]];
    lia.
Qed.

(** For strings without ['-'] the tallies of the rows give the score of
    the alignment. *)
Lemma run_moves_pos_score ms mm g moves : ∀ s1 s2 t1 t2 sc,
  run_moves ms mm g moves s1 s2 = Some (t1, t2, sc) →
  gap_char ∉ s1 → gap_char ∉ s2 →
  pos_score ms mm g t1 t2 = sc.
Proof.
  unfold pos_score.
  induction moves as [|mv moves IH]; intros s1 s2 t1 t2 sc H Hg1 Hg2.
  - apply run_moves_nil in H as (-> & -> & [= -> -> ->]). done.
  - destruct mv.
    + apply run_moves_diag in H
        as (c1 & c2 & r1 & r2 & u1 & u2 & sc0 & -> & -> & Hrec & [= -> -> ->]).
      apply not_elem_of_cons in Hg1 as [? Hg1].
      apply not_elem_of_cons in Hg2 as [? Hg2].
      specialize (IH _ _ _ _ _ Hrec Hg1 Hg2).
      rewrite !count_pairs_cons.
      destruct (tally_no_gap c1 c2) as (-> & -> & ->); [by auto..|].
      case_decide.
      * rewrite bool_decide_true by done. simpl. lia.
      * rewrite bool_decide_false by done. simpl. lia.
    + apply run_moves_up in H
        as (c1 & r1 & u1 & u2 & sc0 & -> & Hrec & [= -> -> ->]).
      apply not_elem_of_cons in Hg1 as [? Hg1].
      specialize (IH _ _ _ _ _ Hrec Hg1 Hg2).
      rewrite !count_pairs_cons.
      destruct (tally_gap c1 gap_char) as (-> & -> & ->); [by right|]. lia.
    + apply run_moves_left in H
        as (c2 & r2 & u1 & u2 & sc0 & -> & Hrec & [= -> -> ->]).
      apply not_elem_of_cons in Hg2 as [? Hg2].
      specialize (IH _ _ _ _ _ Hrec Hg1 Hg2).
      rewrite !count_pairs_cons.
      destruct (tally_gap gap_char c2) as (-> & -> & ->); [by left|]. lia.
Qed.

Lemma gap_insertion_ungap_length s t :
  gap_insertion s t → (length (ungap t) ≤ length s)%nat.
Proof.
  unfold ungap. induction 1 as [|c s t _ IH|s t _ IH]; [done| |].
  - destruct (decide (c = gap_char)).
    + rewrite filter_cons_False by (intros Hne; by apply Hne). simpl. lia.
    + rewrite filter_cons_True by done. simpl. lia.
  - rewrite filter_cons_False by (intros Hne; by apply Hne). done.
Qed.

Lemma percent_value_range num den guard :
  (guard ≠ 0 → 0 < den ∧ 0 ≤ num ≤ den) →
  (0 <= percent_value num den guard)%Q ∧
  (percent_value num den guard <= 100)%Q.
Proof.
  intros H. unfold percent_value. case_decide as Hg; [done|].
  destruct (H Hg) as [Hden Hnum].
  destruct den as [|den|den]; [lia| |lia].
  unfold Qle, Qdiv, Qmult, Qinv. simpl. split; nia.
Qed.

Lemma percent_value_upper num den guard :
  (guard ≠ 0 → 0 < den ∧ num ≤ den) →
  (percent_value num den guard <= 100)%Q.
Proof.
  intros H. unfold percent_value. case_decide as Hg; [done|].
  destruct (H Hg) as [Hden Hnum].
  destruct den as [|den|den]; [lia| |lia].
  unfold Qle, Qdiv, Qmult, Qinv. simpl. nia.
Qed.

Lemma py_slice_subseteq (l : str) lo hi c : c ∈ py_slice l lo hi → c ∈ l.
Proof.
  unfold py_slice. intros Hc.
  apply elem_of_take in Hc as (i & Hc & _).
  rewrite lookup_drop in Hc. by eapply list_elem_of_lookup_2.
Qed.

(** ** Scores under conventional parameters *)

Section conventional_scores.
Variables (match_ mismatch gap : Z).

(** With no positive score, no alignment scores above [0]. *)
Lemma run_moves_nonpositive moves : ∀ s1 s2 t1 t2 sc,
  match_ ≤ 0 → mismatch ≤ 0 → gap ≤ 0 →
  run_moves match_ mismatch gap moves s1 s2 = Some (t1, t2, sc) → sc ≤ 0.
Proof.
  induction moves as [|mv moves IH]; intros s1 s2 t1 t2 sc Hm Hx Hg H.
  - apply run_moves_nil in H as (_ & _ & [= _ _ ->]). done.
  - destruct mv.
    + apply run_moves_diag in H
        as (c1 & c2 & r1 & r2 & u1 & u2 & sc0 & _ & _ & Hrec & [= _ _ ->]).
      apply IH in Hrec; [|done..]. case_decide; lia.
    + apply run_moves_up in H
        as (c1 & r1 & u1 & u2 & sc0 & _ & Hrec & [= _ _ ->]).
      apply IH in Hrec; [|done..]. lia.
    + apply run_moves_left in H
        as (c2 & r2 & u1 & u2 & sc0 & _ & Hrec & [= _ _ ->]).
      apply IH in Hrec; [|done..]. lia.
Qed.

Hypothesis Hmatch : 0 ≤ match_.
Hypothesis Hmismatch : mismatch ≤ match_.
Hypothesis Hgap : gap ≤ 0.

(** An alignment scores at most the match score for every character of
    the shorter string. *)
Lemma run_moves_upper moves : ∀ s1 s2 t1 t2 sc,
  run_moves match_ mismatch gap moves s1 s2 = Some (t1, t2, sc) →
  sc ≤ match_ * Z.min (len s1) (len s2).
Proof.
  induction moves as [|mv moves IH]; intros s1 s2 t1 t2 sc H.
  - apply run_moves_nil in H as (-> & -> & [= _ _ ->]). unfold len. simpl. lia.
  - destruct mv.
    + apply run_moves_diag in H
        as (c1 & c2 & r1 & r2 & u1 & u2 & sc0 & -> & -> & Hrec & [= _ _ ->]).
      apply IH in Hrec. unfold len in *. simpl length. case_decide; nia.
    + apply run_moves_up in H
        as (c1 & r1 & u1 & u2 & sc0 & -> & Hrec & [= _ _ ->]).
      apply IH in Hrec. unfold len in *. simpl length. nia.
    + apply run_moves_left in H
        as (c2 & r2 & u1 & u2 & sc0 & -> & Hrec & [= _ _ ->]).
      apply IH in Hrec. unfold len in *. simpl length. nia.
Qed.

(** Two strings of one length aligned at the full match score are
    aligned character by character. *)
Lemma run_moves_full_score moves : ∀ s1 s2 t1 t2 sc,
  0 < match_ →
  run_moves match_ mismatch gap moves s1 s2 = Some (t1, t2, sc) →
  length s1 = length s2 → sc = match_ * len s1 →
  t1 = s1 ∧ t2 = s2.
Proof.
  induction moves as [|mv moves IH]; intros s1 s2 t1 t2 sc Hpos H Hlen Hsc.
  - apply run_moves_nil in H as (-> & -> & [= -> -> ->]). done.
  - destruct mv.
    + apply run_moves_diag in H
        as (c1 & c2 & r1 & r2 & u1 & u2 & sc0 & -> & -> & Hrec & [= -> -> ->]).
      pose proof (run_moves_upper _ _ _ _ _ _ Hrec) as Hup.
      injection Hlen as Hlen.
      destruct (IH _ _ _ _ _ Hpos Hrec Hlen) as [-> ->]; [|done].
      unfold len in *. simpl length in *. rewrite <- Hlen in Hup.
      case_decide; nia.
    + apply run_moves_up in H
        as (c1 & r1 & u1 & u2 & sc0 & -> & Hrec & [= -> -> ->]).
      pose proof (run_moves_upper _ _ _ _ _ _ Hrec) as Hup.
      unfold len in *. simpl length in *. nia.
    + apply run_moves_left in H
        as (c2 & r2 & u1 & u2 & sc0 & -> & Hrec & [= -> -> ->]).
      pose proof (run_moves_upper _ _ _ _ _ _ Hrec) as Hup.
      unfold len in *. simpl length in *. nia.
Qed.

(** A string aligned with itself character by character. *)
Lemma run_moves_identity (t : str) :
  run_moves match_ mismatch gap (replicate (length t) MDiag) t t
  = Some (t, t, match_ * len t).
Proof.
  induction t as [|c t IH];
    [simpl; do 2 f_equal; unfold len; simpl; lia|].
  simpl. rewrite IH. simpl. rewrite decide_True by done.
  do 2 f_equal. unfold len. simpl length. lia.
Qed.

End conventional_scores.

Lemma py_slice_whole {A} (l : list A) : py_slice l 0 (len l) = l.
Proof.
  rewrite py_slice_inside by (unfold len; lia).
  unfold len. rewrite Z.sub_0_r, Nat2Z.id. simpl. apply firstn_all.
Qed.

Lemma py_slice_full_length {A} (l : list A) lo hi :
  0 ≤ lo ≤ hi → hi ≤ len l → len l ≤ len (py_slice l lo hi) →
  lo = 0 ∧ hi = len l.
Proof.
  intros Hlo Hhi Hlen. rewrite py_slice_length in Hlen by lia. lia.
Qed.

(** The coordinates of a local alignment lie inside the sequences. *)
Lemma smith_waterman_coordinates (a b : str) (match_ mismatch gap : Z) r :
  smith_waterman a b match_ mismatch gap = Ok r →
  0 ≤ start_a r ≤ end_a r ∧ end_a r ≤ len a ∧
  0 ≤ start_b r ≤ end_b r ∧ end_b r ≤ len b.
Proof.
  destruct (smith_waterman_full a b match_ mismatch gap)
    as (st & sa & sb & t1 & t2 & moves & _ & -> & Hsa & Hea & Hsb & Heb & _).
  intros [= <-]. simpl. done.
Qed.

(** ** Properties of [smith_waterman] under conventional parameters *)

(** X12: when the match score, the mismatch score and the gap penalty
    are all at most [0], [smith_waterman] returns the empty alignment:
    score [0], empty aligned strings, all coordinates [0]. *)
Theorem local_nonpositive_scores (a b : str) (match_ mismatch gap : Z) :
  match_ ≤ 0 → mismatch ≤ 0 → gap ≤ 0 →
  ∃ r,
    smith_waterman a b match_ mismatch gap = Ok r ∧
    score r = 0 ∧ aligned_a r = [] ∧ aligned_b r = [] ∧
    start_a r = 0 ∧ end_a r = 0 ∧ start_b r = 0 ∧ end_b r = 0.
Proof.
  intros Hm Hx Hg.
  destruct (smith_waterman_full a b match_ mismatch gap)
    as (st & sa & sb & t1 & t2 & moves & Hinv & Hr & Hsa & _ & Hsb & _
        & Hrun & Hnil).
  pose proof (run_moves_nonpositive _ _ _ _ _ _ _ _ _ Hm Hx Hg Hrun) as Hle.
  pose proof (run_moves_rows _ _ _ _ _ _ _ _ _ Hrun) as (_ & _ & Hl1 & Hl2).
  destruct Hinv as [_ _ _ _ [_ [[Hbs Hpos]|[? _]]]]; [|lia].
  assert (t1 = []) as -> by (by apply Hnil).
  assert (t2 = []) as ->.
  { rewrite !length_reverse in *. destruct t2; [done|]. simpl in *. lia. }
  eexists. split; [exact Hr|]. rewrite Hpos in *. simpl in *.
  repeat split; (done || lia).
Qed.

Lemma local_nonpositive_scores_witness :
  ∃ r,
    smith_waterman (py_str "GATTACA") (py_str "GCATGCU") 0 (-1) (-2) = Ok r ∧
    score r = 0 ∧ aligned_a r = [] ∧ aligned_b r = [] ∧
    start_a r = 0 ∧ end_a r = 0 ∧ start_b r = 0 ∧ end_b r = 0.
Proof.
  apply local_nonpositive_scores; lia.
Defined.

(** ** The positional score of the global alignment *)

(** For strings without ['-'] a column pairs two equal characters only
    when it is a match. *)
Lemma run_moves_matches ms mm g moves : ∀ s1 s2 t1 t2 sc,
  run_moves ms mm g moves s1 s2 = Some (t1, t2, sc) →
  gap_char ∉ s1 → gap_char ∉ s2 →
  count_pairs char_eqb t1 t2 = count_pairs is_match t1 t2.
Proof.
  induction moves as [|mv moves IH]; intros s1 s2 t1 t2 sc H Hg1 Hg2.
  - apply run_moves_nil in H as (-> & -> & [= -> -> ->]). done.
  - destruct mv.
    + apply run_moves_diag in H
        as (c1 & c2 & r1 & r2 & u1 & u2 & sc0 & -> & -> & Hrec & [= -> -> ->]).
      apply not_elem_of_cons in Hg1 as [? Hg1].
      apply not_elem_of_cons in Hg2 as [? Hg2].
      rewrite !count_pairs_cons, (IH _ _ _ _ _ Hrec Hg1 Hg2).
      destruct (tally_no_gap c1 c2) as (-> & _); [by auto..|]. done.
    + apply run_moves_up in H
        as (c1 & r1 & u1 & u2 & sc0 & -> & Hrec & [= -> -> ->]).
      apply not_elem_of_cons in Hg1 as [? Hg1].
      rewrite !count_pairs_cons, (IH _ _ _ _ _ Hrec Hg1 Hg2).
      destruct (tally_gap c1 gap_char) as (-> & _); [by right|].
      unfold char_eqb. by rewrite bool_decide_false by auto.
    + apply run_moves_left in H
        as (c2 & r2 & u1 & u2 & sc0 & -> & Hrec & [= -> -> ->]).
      apply not_elem_of_cons in Hg2 as [? Hg2].
      rewrite !count_pairs_cons, (IH _ _ _ _ _ Hrec Hg1 Hg2).
      destruct (tally_gap gap_char c2) as (-> & _); [by left|].
      unfold char_eqb. by rewrite bool_decide_false by auto.
Qed.

(** X17: for sequences that contain no ['-'], the field [matches] of
    [needleman_wunsch] counts the columns that pair two equal characters
    of the sequences, and with the mismatch and gap columns of the
    returned alignment it gives the last cell of the score matrix:
    [matches×match + mismatches×mismatch + gaps×gap]. *)
Theorem global_score_is_positional
    (seq1 seq2 : str) (match_ mismatch gap : Z) :
  gap_char ∉ seq1 → gap_char ∉ seq2 →
  ∃ r,
    needleman_wunsch seq1 seq2 match_ mismatch gap = Ok r ∧
    matches r = count_pairs is_match (aligned_seq1 r) (aligned_seq2 r) ∧
    py_getitem2 (score_matrix r) (len seq1) (len seq2)
    = Ok (matches r * match_
          + count_pairs is_mismatch (aligned_seq1 r) (aligned_seq2 r) * mismatch
          + count_pairs is_gap (aligned_seq1 r) (aligned_seq2 r) * gap).
Proof.
  intros Hg1 Hg2.
  destruct (needleman_wunsch_full seq1 seq2 match_ mismatch gap)
    as (S & P & t1 & t2 & pts & moves & v & _ & Hr & Hrun & Hv & _).
  pose proof (run_moves_matches _ _ _ _ _ _ _ _ _ Hrun Hg1 Hg2) as Hm.
  pose proof (run_moves_pos_score _ _ _ _ _ _ _ _ _ Hrun Hg1 Hg2) as Hpos.
  eexists. split; [exact Hr|]. simpl. split; [done|].
  rewrite Hm. unfold pos_score in Hpos. rewrite Hpos.
  apply py_getitem2_Some; [len_lia..|done].
Qed.

Lemma global_score_is_positional_witness :
  ∃ r,
    needleman_wunsch (py_str "ACCGTG") (py_str "AGCGTGC") 1 (-1) 0 = Ok r ∧
    matches r = count_pairs is_match (aligned_seq1 r) (aligned_seq2 r).
Proof.
  destruct (global_score_is_positional (py_str "ACCGTG") (py_str "AGCGTGC")
              1 (-1) 0) as (r & Hr & Hm & _).
  - vm_compute. intros H.
    repeat (apply elem_of_cons in H as [H|H]; [discriminate H|]).
    by apply not_elem_of_nil in H.
  - vm_compute. intros H.
    repeat (apply elem_of_cons in H as [H|H]; [discriminate H|]).
    by apply not_elem_of_nil in H.
  - exists r. split; [exact Hr|exact Hm].
Defined.

(** * The local aligner and the windowed driver *)

(** What follows is stated of the results of [smith_waterman] and
    [chunked_alignment], which hold percentages: each statement carries
    [float_exact] (or [chunk_float_exact]), the range in which lines 92-97
    of ex2.py convert and multiply exact integers only. *)

(** ** The operands of the percentages *)

(** An alignment has at most as many columns as its two strings have
    characters. *)
Lemma run_moves_columns (match_ mismatch gap : Z) moves : ∀ s1 s2 t1 t2 sc,
  run_moves match_ mismatch gap moves s1 s2 = Some (t1, t2, sc) →
  (length moves ≤ length s1 + length s2)%nat.
Proof.
  induction moves as [|mv moves IH]; intros s1 s2 t1 t2 sc H; [simpl; lia|].
  destruct mv.
  - apply run_moves_diag in H
      as (c1 & c2 & r1 & r2 & u1 & u2 & sc0 & -> & -> & Hrec & _).
    apply IH in Hrec. simpl. lia.
  - apply run_moves_up in H as (c1 & r1 & u1 & u2 & sc0 & -> & Hrec & _).
    apply IH in Hrec. simpl. lia.
  - apply run_moves_left in H as (c2 & r2 & u1 & u2 & sc0 & -> & Hrec & _).
    apply IH in Hrec. simpl. lia.
Qed.

Lemma score_magnitude_bounds (match_ mismatch gap : Z) :
  1 ≤ score_magnitude match_ mismatch gap ∧
  Z.abs match_ ≤ score_magnitude match_ mismatch gap ∧
  Z.abs mismatch ≤ score_magnitude match_ mismatch gap ∧
  Z.abs gap ≤ score_magnitude match_ mismatch gap.
Proof. unfold score_magnitude. lia. Qed.

(** A sum of [m], [x] and [g] scores, none larger than [M] in absolute
    value, is at most [(m + x + g) * M] in absolute value. *)
Lemma weighted_sum_bound (m x g match_ mismatch gap M : Z) :
  0 ≤ m → 0 ≤ x → 0 ≤ g →
  Z.abs match_ ≤ M → Z.abs mismatch ≤ M → Z.abs gap ≤ M →
  Z.abs (m * match_ + x * mismatch + g * gap) ≤ (m + x + g) * M.
Proof.
  intros Hm Hx Hg H1 H2 H3.
  assert (Z.abs (m * match_) ≤ m * M) by (rewrite Z.abs_mul; nia).
  assert (Z.abs (x * mismatch) ≤ x * M) by (rewrite Z.abs_mul; nia).
  assert (Z.abs (g * gap) ≤ g * M) by (rewrite Z.abs_mul; nia).
  lia.
Qed.

(** Within [float_exact], the result of [smith_waterman] has at most
    [len a + len b] columns, and the two operands of the division of line
    95, [100 * pos_score] and [L * max(match, 1)], are below [2 ^ 53] in
    absolute value. *)
Lemma float_exact_operands (a b : str) (match_ mismatch gap : Z) r :
  float_exact a b match_ mismatch gap →
  smith_waterman a b match_ mismatch gap = Ok r →
  let L := len (aligned_a r) in
  let raw :=
    count_pairs is_match (aligned_a r) (aligned_b r) * match_
    + count_pairs is_mismatch (aligned_a r) (aligned_b r) * mismatch
    + count_pairs is_gap (aligned_a r) (aligned_b r) * gap in
  L ≤ len a + len b ∧
  100 * Z.abs raw < float_int_limit ∧
  0 ≤ L * Z.max match_ 1 < float_int_limit.
Proof.
  intros Hfe.
  destruct (smith_waterman_full a b match_ mismatch gap)
    as (st & sa & sb & t1 & t2 & moves & _ & -> & Hsa & Hea & Hsb & Heb
        & Hrun & _).
  intros [= <-]. simpl.
  pose proof (run_moves_columns _ _ _ _ _ _ _ _ _ Hrun) as Hcol.
  apply run_moves_rows in Hrun as (_ & _ & Hl1 & Hl2).
  pose proof (py_slice_length a sa (sw_best_pos st).1 ltac:(lia) ltac:(lia))
    as Hla.
  pose proof (py_slice_length b sb (sw_best_pos st).2 ltac:(lia) ltac:(lia))
    as Hlb.
  pose proof (tallies_partition (reverse t1) (reverse t2) ltac:(lia)) as Htal.
  pose proof (count_pairs_bounds is_match (reverse t1) (reverse t2)) as Hm.
  pose proof (count_pairs_bounds is_mismatch (reverse t1) (reverse t2)) as Hx.
  pose proof (count_pairs_bounds is_gap (reverse t1) (reverse t2)) as Hg.
  pose proof (score_magnitude_bounds match_ mismatch gap) as (HM & H1 & H2 & H3).
  pose proof (weighted_sum_bound _ _ _ _ _ _ _ (proj1 Hm) (proj1 Hx) (proj1 Hg)
                H1 H2 H3) as Hsum.
  rewrite Htal in Hsum.
  assert (len (reverse t1) ≤ len a + len b) as HL by (unfold len in *; lia).
  assert (0 ≤ len (reverse t1)) as HL0 by (unfold len; lia).
  unfold float_exact in Hfe.
  revert Hsum Hfe H1 HM HL HL0.
  generalize (score_magnitude match_ mismatch gap) as M.
  generalize (len (reverse t1)) as L.
  generalize (count_pairs is_match (reverse t1) (reverse t2) * match_
              + count_pairs is_mismatch (reverse t1) (reverse t2) * mismatch
              + count_pairs is_gap (reverse t1) (reverse t2) * gap) as raw.
  generalize (len a + len b) as n.
  intros n raw L M Hsum Hfe H1' HM' HL' HL0'.
  assert (0 ≤ Z.max match_ 1 ≤ M) as Hmax by lia.
  revert Hmax. generalize (Z.max match_ 1) as d. intros d Hd.
  assert (L * M ≤ n * M) by nia.
  assert (L * d ≤ L * M) by nia.
  split; [done|]. split; [lia|]. split; [nia|lia].
Qed.

(** Within [chunk_float_exact], each window of [chunked_alignment] is
    within [float_exact]. *)
Lemma chunk_float_exact_window (a b : str) (chunk_size match_ mismatch gap : Z)
    (offset : Z) :
  chunk_float_exact chunk_size match_ mismatch gap →
  0 < chunk_size → 0 ≤ offset ≤ len a → 0 ≤ offset ≤ len b →
  float_exact (py_slice a offset (offset + chunk_size))
    (py_slice b offset (offset + chunk_size)) match_ mismatch gap.
Proof.
  unfold chunk_float_exact, float_exact. intros Hfe Hcs Ha Hb.
  rewrite !py_slice_length by lia.
  pose proof (score_magnitude_bounds match_ mismatch gap) as (HM & _).
  revert Hfe HM. generalize (score_magnitude match_ mismatch gap) as M.
  intros M Hfe HM. nia.
Qed.

(** ** The claims on [smith_waterman] and [chunked_alignment] *)

(** C1, amended: with valid parameters, and scores and a chunk size within
    [chunk_float_exact], [chunked_alignment] returns
    [ceil(min(len(a), len(b)) / step)] windows, [step = chunk_size -
    overlap], the [k]-th being the rebased local alignment of the two
    slices starting at offset [k * step]; in particular, with
    [chunk_size = 4] and [overlap = 2] on two 10-character sequences it
    returns exactly 5 windows, at offsets 0, 2, 4, 6 and 8, the last one
    over slices of 2 characters. *)
Theorem chunk_coverage :
  (∀ (a b : str) (chunk_size overlap match_ mismatch gap : Z),
     0 < chunk_size → 0 ≤ overlap < chunk_size →
     chunk_float_exact chunk_size match_ mismatch gap →
     ∃ rs,
       chunked_alignment a b chunk_size overlap match_ mismatch gap = Ok rs ∧
       len rs = ceil_div (Z.min (len a) (len b)) (chunk_size - overlap) ∧
       ∀ k : nat, (k < length rs)%nat →
         ∃ res, rs !! k = Some res ∧
                window_result a b chunk_size match_ mismatch gap
                  (Z.of_nat k * (chunk_size - overlap)) res) ∧
  (∀ (a b : str) (match_ mismatch gap : Z),
     len a = 10 → len b = 10 →
     chunk_float_exact 4 match_ mismatch gap →
     ∃ r0 r2 r4 r6 r8,
       chunked_alignment a b 4 2 match_ mismatch gap
         = Ok [r0; r2; r4; r6; r8] ∧
       window_result a b 4 match_ mismatch gap 0 r0 ∧
       window_result a b 4 match_ mismatch gap 2 r2 ∧
       window_result a b 4 match_ mismatch gap 4 r4 ∧
       window_result a b 4 match_ mismatch gap 6 r6 ∧
       window_result a b 4 match_ mismatch gap 8 r8 ∧
       len (py_slice a 8 (8 + 4)) = 2 ∧ len (py_slice b 8 (8 + 4)) = 2).
Proof.
  split.
  - intros. by apply chunked_alignment_spec.
  - intros a b match_ mismatch gap Ha Hb _.
    destruct (chunked_alignment_spec a b 4 2 match_ mismatch gap)
      as (rs & Hrs & Hlen & Hwin); [lia..|].
    rewrite Ha, Hb in Hlen.
    assert (length rs = 5%nat) as Hn.
    { unfold len in Hlen. change (ceil_div (Z.min 10 10) (4 - 2)) with 5 in Hlen.
      lia. }
    destruct rs as [|r0 [|r2 [|r4 [|r6 [|r8 [|]]]]]]; try discriminate Hn.
    exists r0, r2, r4, r6, r8. split; [done|].
    destruct (Hwin 0%nat) as (? & [= <-] & H0); [simpl; lia|].
    destruct (Hwin 1%nat) as (? & [= <-] & H2); [simpl; lia|].
    destruct (Hwin 2%nat) as (? & [= <-] & H4); [simpl; lia|].
    destruct (Hwin 3%nat) as (? & [= <-] & H6); [simpl; lia|].
    destruct (Hwin 4%nat) as (? & [= <-] & H8); [simpl; lia|].
    repeat split; try done.
    + rewrite py_slice_length by lia. lia.
    + rewrite py_slice_length by lia. lia.
Qed.

Lemma chunk_coverage_witness :
  chunk_float_exact 4 2 (-1) (-2) ∧
  ∃ rs,
    chunked_alignment (py_str "ACGTACGTAC") (py_str "ACGTACGTAC") 4 2 2 (-1) (-2)
      = Ok rs ∧
    len rs = 5.
Proof.
  assert (chunk_float_exact 4 2 (-1) (-2)) as Hfe by (vm_compute; reflexivity).
  split; [exact Hfe|].
  destruct (proj1 chunk_coverage (py_str "ACGTACGTAC") (py_str "ACGTACGTAC") 4 2 2 (-1) (-2))
    as (rs & Hrs & Hlen & _); [lia|lia|exact Hfe|].
  exists rs. split; [exact Hrs|]. rewrite Hlen. reflexivity.
Defined.

(** C2, amended: for sequences and scores within [float_exact],
    [smith_waterman] returns a result whose [norm_score] is [0] when the
    aligned strings are empty and otherwise
    [100 × (matches×match + mismatches×mismatch + gaps×gap) /
    (L × max(match, 1))], [L] the length of the aligned strings; for
    [match ≥ 1] the divisor is [L × match].  Both operands of that
    division, [100 × |matches×match + mismatches×mismatch + gaps×gap|]
    and [L × max(match, 1)], are below [2 ^ 53]. *)
Theorem norm_score_formula (a b : str) (match_ mismatch gap : Z) :
  float_exact a b match_ mismatch gap →
  ∃ r,
    smith_waterman a b match_ mismatch gap = Ok r ∧
    let L := len (aligned_a r) in
    let raw :=
      count_pairs is_match (aligned_a r) (aligned_b r) * match_
      + count_pairs is_mismatch (aligned_a r) (aligned_b r) * mismatch
      + count_pairs is_gap (aligned_a r) (aligned_b r) * gap in
    (L = 0 → norm_score r = 0%Q) ∧
    (L ≠ 0 →
       norm_score r
       = (100 * inject_Z raw / inject_Z (L * Z.max match_ 1))%Q) ∧
    (L ≠ 0 → 1 ≤ match_ →
       norm_score r = (100 * inject_Z raw / inject_Z (L * match_))%Q) ∧
    100 * Z.abs raw < float_int_limit ∧
    0 ≤ L * Z.max match_ 1 < float_int_limit.
Proof.
  intros Hfe.
  destruct (smith_waterman_fuel_spec a b match_ mismatch gap
              (length a + length b))
    as (st & sa & sb & t1 & t2 & _ & _ & _ & Hr & _); [done|].
  pose proof (float_exact_operands _ _ _ _ _ _ Hfe Hr) as (_ & Hnum & Hden).
  eexists. split; [exact Hr|]. simpl in *.
  unfold percent_value, pos_score. repeat split; try lia.
  - intros ->. done.
  - intros HL. by rewrite decide_False.
  - intros HL Hm. rewrite decide_False by done. by rewrite Z.max_l by lia.
Qed.

Lemma norm_score_formula_witness :
  float_exact (py_str "GATTACA") (py_str "GCATGCU") 2 (-1) (-2) ∧
  ∃ r,
    smith_waterman (py_str "GATTACA") (py_str "GCATGCU") 2 (-1) (-2) = Ok r ∧
    norm_score r = (100 * inject_Z 4 / inject_Z (2 * 2))%Q.
Proof.
  assert (float_exact (py_str "GATTACA") (py_str "GCATGCU") 2 (-1) (-2))
    as Hfe by (vm_compute; reflexivity).
  split; [exact Hfe|].
  destruct (norm_score_formula (py_str "GATTACA") (py_str "GCATGCU") 2 (-1) (-2)
              Hfe)
    as (r & Hr & _ & _ & H & _).
  exists r. split; [exact Hr|].
  assert (Ok r = smith_waterman (py_str "GATTACA") (py_str "GCATGCU") 2 (-1) (-2))
    as Heq by (symmetry; exact Hr).
  vm_compute in Heq. injection Heq as ->.
  apply H; [vm_compute; discriminate|lia].
Defined.

(** C5: for every pair of sequences and all scores, the two aligned
    strings [needleman_wunsch] returns have the same length, which is at
    least [max(len(seq1), len(seq2))]; and within [float_exact] the two
    aligned strings [smith_waterman] returns have the same length. *)
Theorem aligned_lengths (seq1 seq2 : str) (match_ mismatch gap : Z) :
  (∃ r,
     needleman_wunsch seq1 seq2 match_ mismatch gap = Ok r ∧
     len (aligned_seq1 r) = len (aligned_seq2 r) ∧
     Z.max (len seq1) (len seq2) ≤ len (aligned_seq1 r)) ∧
  (float_exact seq1 seq2 match_ mismatch gap →
   ∃ r,
     smith_waterman seq1 seq2 match_ mismatch gap = Ok r ∧
     len (aligned_a r) = len (aligned_b r)).
Proof.
  split.
  - destruct (needleman_wunsch_fuel_spec seq1 seq2 match_ mismatch gap
                (length seq1 + length seq2))
      as (r & S & P & _ & Hr & _ & Hlen & H1 & H2); [done|].
    exists r. split; [done|].
    apply gap_insertion_length in H1, H2. len_lia.
  - intros _.
    destruct (smith_waterman_fuel_spec seq1 seq2 match_ mismatch gap
                (length seq1 + length seq2))
      as (st & sa & sb & t1 & t2 & _ & _ & _ & Hr & Hlen & _); [done|].
    eexists. split; [exact Hr|]. simpl. unfold len.
    by rewrite !length_reverse, Hlen.
Qed.

Lemma aligned_lengths_witness :
  float_exact (py_str "GATTACA") (py_str "GCATGCU") 2 (-1) (-2) ∧
  ∃ r,
    smith_waterman (py_str "GATTACA") (py_str "GCATGCU") 2 (-1) (-2) = Ok r ∧
    len (aligned_a r) = len (aligned_b r).
Proof.
  assert (float_exact (py_str "GATTACA") (py_str "GCATGCU") 2 (-1) (-2))
    as Hfe by (vm_compute; reflexivity).
  split; [exact Hfe|].
  exact (proj2 (aligned_lengths (py_str "GATTACA") (py_str "GCATGCU")
                  2 (-1) (-2)) Hfe).
Defined.

(** C6: for sequences and scores within [float_exact], the score
    [smith_waterman] returns is at least [0], and at least the match score
    when the two sequences have a character in common. *)
Theorem local_score_bounds (a b : str) (match_ mismatch gap : Z) :
  float_exact a b match_ mismatch gap →
  ∃ r,
    smith_waterman a b match_ mismatch gap = Ok r ∧
    0 ≤ score r ∧
    ((∃ c, c ∈ a ∧ c ∈ b) → match_ ≤ score r).
Proof.
  intros _.
  destruct (smith_waterman_fuel_spec a b match_ mismatch gap
              (length a + length b))
    as (st & sa & sb & t1 & t2 & _ & Hinv & _ & Hr & _); [done|].
  eexists. split; [exact Hr|]. simpl. split.
  - destruct Hinv as [_ _ _ _ [_ [[-> _]|[? _]]]]; lia.
  - intros (c & [p Hp]%list_elem_of_lookup & [q Hq]%list_elem_of_lookup).
    pose proof (lookup_lt_Some _ _ _ Hp). pose proof (lookup_lt_Some _ _ _ Hq).
    pose proof Hinv as [_ _ _ Hrec _].
    destruct (Hrec (Z.of_nat p + 1) (Z.of_nat q + 1))
      as (d & u & l & c1 & c2 & Hd & _ & _ & H1 & H2 & Hb & _);
      [len_lia|len_lia|unfold scanned_before; len_lia|].
    replace (Z.to_nat (Z.of_nat p + 1 - 1)) with p in H1 by lia.
    replace (Z.to_nat (Z.of_nat q + 1 - 1)) with q in H2 by lia.
    rewrite Hp in H1. rewrite Hq in H2.
    injection H1 as <-. injection H2 as <-.
    rewrite decide_True in Hb by done.
    apply (sw_cell_nonneg _ _ _ _ _ _ _ _ _ Hinv) in Hd; [|len_lia..].
    apply (sw_cell_le_best _ _ _ _ _ _ _ _ _ Hinv) in Hb; [|len_lia..].
    lia.
Qed.

Lemma local_score_bounds_witness :
  float_exact (py_str "GATTACA") (py_str "GCATGCU") 2 (-1) (-2) ∧
  ∃ r,
    smith_waterman (py_str "GATTACA") (py_str "GCATGCU") 2 (-1) (-2) = Ok r ∧
    0 ≤ score r ∧ 2 ≤ score r.
Proof.
  assert (float_exact (py_str "GATTACA") (py_str "GCATGCU") 2 (-1) (-2))
    as Hfe by (vm_compute; reflexivity).
  split; [exact Hfe|].
  destruct (local_score_bounds (py_str "GATTACA") (py_str "GCATGCU") 2 (-1) (-2)
              Hfe)
    as (r & Hr & H0 & Hc).
  exists r. split; [exact Hr|]. split; [exact H0|].
  apply Hc. exists "G"%char. split; vm_compute; constructor.
Defined.

(** C8: the matrix construction of [smith_waterman] ends with a best
    position whose cell holds the best score; no cell of the matrix holds
    more, and every cell scanned before it, row by row and left to right,
    holds less.  Within [float_exact] the call returns a result, whose
    [end_a], [end_b] are that position, from which the traceback starts,
    and whose [score] is that score. *)
Theorem best_cell_first_maximum (a b : str) (match_ mismatch gap : Z) :
  ∃ st,
    sw_fill a b match_ mismatch gap = Ok st ∧
    py_getitem2 (sw_scores st) (sw_best_pos st).1 (sw_best_pos st).2
    = Ok (sw_best_score st) ∧
    (∀ i j v, 0 ≤ i ≤ len a → 0 ≤ j ≤ len b →
       py_getitem2 (sw_scores st) i j = Ok v → v ≤ sw_best_score st) ∧
    (∀ i j v, 0 ≤ i ≤ len a → 0 ≤ j ≤ len b →
       scanned_before i j (sw_best_pos st).1 (sw_best_pos st).2 →
       py_getitem2 (sw_scores st) i j = Ok v → v < sw_best_score st) ∧
    (float_exact a b match_ mismatch gap →
     ∃ r,
       smith_waterman a b match_ mismatch gap = Ok r ∧
       (end_a r, end_b r) = sw_best_pos st ∧
       score r = sw_best_score st).
Proof.
  destruct (smith_waterman_fuel_spec a b match_ mismatch gap
              (length a + length b))
    as (st & sa & sb & t1 & t2 & Hfill & Hinv & _ & Hr & _); [done|].
  exists st. split; [done|].
  pose proof (sw_best_pos_range _ _ _ _ _ _ _ _ Hinv) as [Hi Hj].
  pose proof Hinv as [_ _ Hborder _ [Hmax Hbest]].
  destruct (sw_best_pos st) as [I J] eqn:Hpos. simpl in *.
  split; [|split; [|split]].
  - apply py_getitem2_Some; [lia..|].
    destruct Hbest as [[-> [= -> ->]]|(_ & _ & _ & _ & Hcell & _)]; [|done].
    apply Hborder; len_lia.
  - intros i j v ?? Hv%py_getitem2_Ok; [|lia..].
    by eapply sw_cell_le_best.
  - unfold scanned_before.
    intros i j v ?? Hlt Hv%py_getitem2_Ok; [|lia..].
    destruct Hbest as [[_ [= -> ->]]|(Hpos' & _ & _ & _ & _ & Hfirst)]; [lia|].
    destruct (decide (i = 0 ∨ j = 0)).
    + rewrite Hborder in Hv by done. injection Hv. lia.
    + apply (Hfirst i j); [lia|lia|unfold scanned_before; lia|done].
  - intros _. eexists. split; [exact Hr|]. done.
Qed.

Lemma best_cell_first_maximum_witness :
  float_exact (py_str "GATTACA") (py_str "GCATGCU") 2 (-1) (-2) ∧
  ∃ st r,
    sw_fill (py_str "GATTACA") (py_str "GCATGCU") 2 (-1) (-2) = Ok st ∧
    smith_waterman (py_str "GATTACA") (py_str "GCATGCU") 2 (-1) (-2) = Ok r ∧
    (end_a r, end_b r) = sw_best_pos st ∧
    score r = sw_best_score st.
Proof.
  assert (float_exact (py_str "GATTACA") (py_str "GCATGCU") 2 (-1) (-2))
    as Hfe by (vm_compute; reflexivity).
  split; [exact Hfe|].
  destruct (best_cell_first_maximum (py_str "GATTACA") (py_str "GCATGCU")
              2 (-1) (-2)) as (st & Hst & _ & _ & _ & Hres).
  destruct (Hres Hfe) as (r & Hr & Hend & Hsc).
  exists st, r. repeat split; assumption.
Defined.

(** ** Properties of [smith_waterman] *)

(** X7: within [float_exact], the coordinates [smith_waterman] returns
    satisfy [0 ≤ start_a ≤ end_a ≤ len(a)] and
    [0 ≤ start_b ≤ end_b ≤ len(b)], and the aligned strings are the rows
    of an alignment of [a[start_a:end_a]] with [b[start_b:end_b]] whose
    score is the returned score; so each aligned string is its slice with
    gaps inserted. *)
Theorem local_alignment_spans_coordinates
    (a b : str) (match_ mismatch gap : Z) :
  float_exact a b match_ mismatch gap →
  ∃ r moves,
    smith_waterman a b match_ mismatch gap = Ok r ∧
    0 ≤ start_a r ≤ end_a r ∧ end_a r ≤ len a ∧
    0 ≤ start_b r ≤ end_b r ∧ end_b r ≤ len b ∧
    run_moves match_ mismatch gap moves
      (py_slice a (start_a r) (end_a r)) (py_slice b (start_b r) (end_b r))
      = Some (aligned_a r, aligned_b r, score r) ∧
    gap_insertion (py_slice a (start_a r) (end_a r)) (aligned_a r) ∧
    gap_insertion (py_slice b (start_b r) (end_b r)) (aligned_b r).
Proof.
  intros _.
  destruct (smith_waterman_full a b match_ mismatch gap)
    as (st & sa & sb & t1 & t2 & moves & _ & Hr & Hsa & Hea & Hsb & Heb
        & Hrun & _).
  eexists _, moves. split; [exact Hr|]. simpl.
  do 4 (split; [done|]). split; [done|].
  apply run_moves_rows in Hrun as (? & ? & _). done.
Qed.

Lemma local_alignment_spans_coordinates_witness :
  float_exact (py_str "GATTACA") (py_str "GCATGCU") 2 (-1) (-2) ∧
  ∃ r,
    smith_waterman (py_str "GATTACA") (py_str "GCATGCU") 2 (-1) (-2) = Ok r ∧
    0 ≤ start_a r ≤ end_a r ∧ end_a r ≤ 7 ∧
    gap_insertion (py_slice (py_str "GATTACA") (start_a r) (end_a r))
      (aligned_a r).
Proof.
  assert (float_exact (py_str "GATTACA") (py_str "GCATGCU") 2 (-1) (-2))
    as Hfe by (vm_compute; reflexivity).
  split; [exact Hfe|].
  destruct (local_alignment_spans_coordinates
              (py_str "GATTACA") (py_str "GCATGCU") 2 (-1) (-2) Hfe)
    as (r & moves & Hr & Hsa & Hea & _ & _ & _ & Hg & _).
  exists r. split; [exact Hr|]. split; [exact Hsa|]. split; [exact Hea|].
  exact Hg.
Defined.

(** X8: within [float_exact] and with a gap penalty that is not positive,
    no alignment of any slice of [a] with any slice of [b] scores more
    than the score [smith_waterman] returns. *)
Theorem local_alignment_optimal (a b : str) (match_ mismatch gap : Z) :
  gap ≤ 0 →
  float_exact a b match_ mismatch gap →
  ∃ r,
    smith_waterman a b match_ mismatch gap = Ok r ∧
    ∀ lo1 hi1 lo2 hi2 moves t1 t2 sc,
      run_moves match_ mismatch gap moves
        (py_slice a lo1 hi1) (py_slice b lo2 hi2) = Some (t1, t2, sc) →
      sc ≤ score r.
Proof.
  intros Hgap _.
  destruct (smith_waterman_full a b match_ mismatch gap)
    as (st & sa & sb & t1 & t2 & moves & Hinv & Hr & _).
  eexists. split; [exact Hr|]. simpl.
  intros lo1 hi1 lo2 hi2 moves' u1 u2 sc Hrun.
  destruct (py_slice_stretch a lo1 hi1) as (p & r1 & Hp & H1).
  destruct (py_slice_stretch b lo2 hi2) as (q & r2 & Hq & H2).
  by eapply (sw_best_bound a b match_ mismatch gap st Hinv moves' p q).
Qed.

Lemma local_alignment_optimal_witness :
  float_exact (py_str "GATTACA") (py_str "GCATGCU") 2 (-1) (-2) ∧
  ∃ r,
    smith_waterman (py_str "GATTACA") (py_str "GCATGCU") 2 (-1) (-2) = Ok r ∧
    4 ≤ score r.
Proof.
  assert (float_exact (py_str "GATTACA") (py_str "GCATGCU") 2 (-1) (-2))
    as Hfe by (vm_compute; reflexivity).
  split; [exact Hfe|].
  destruct (local_alignment_optimal (py_str "GATTACA") (py_str "GCATGCU")
              2 (-1) (-2)) as (r & Hr & Hopt); [lia|exact Hfe|].
  exists r. split; [exact Hr|].
  apply (Hopt 1 3 2 4 [MDiag; MDiag] (py_str "AT") (py_str "AT")).
  reflexivity.
Defined.

(** X9: within [float_exact], [smith_waterman] returns empty aligned
    strings exactly when the score it returns is [0], and then all four
    coordinates are [0]. *)
Theorem local_empty_iff_zero_score (a b : str) (match_ mismatch gap : Z) :
  float_exact a b match_ mismatch gap →
  ∃ r,
    smith_waterman a b match_ mismatch gap = Ok r ∧
    (aligned_a r = [] ↔ score r = 0) ∧
    (aligned_b r = [] ↔ score r = 0) ∧
    (score r = 0 →
     start_a r = 0 ∧ end_a r = 0 ∧ start_b r = 0 ∧ end_b r = 0).
Proof.
  intros _.
  destruct (smith_waterman_full a b match_ mismatch gap)
    as (st & sa & sb & t1 & t2 & moves & Hinv & Hr & Hsa & _ & Hsb & _
        & Hrun & Hnil).
  apply run_moves_rows in Hrun as (_ & _ & Hl1 & Hl2).
  rewrite !length_reverse in *.
  assert (t2 = [] ↔ t1 = []) as H21.
  { destruct t1, t2; simpl in *; try done; lia. }
  eexists. split; [exact Hr|]. simpl.
  split; [|split].
  - rewrite <- Hnil. split; intros H.
    + by rewrite <- (reverse_involutive t1), H.
    + by rewrite H.
  - rewrite <- Hnil, <- H21. split; intros H.
    + by rewrite <- (reverse_involutive t2), H.
    + by rewrite H.
  - intros Hz.
    destruct Hinv as [_ _ _ _ [_ [[_ Hpos]|[? _]]]]; [|lia].
    rewrite Hpos in *. simpl in *. lia.
Qed.

Lemma local_empty_iff_zero_score_witness :
  float_exact (py_str "AAA") (py_str "CCC") 2 (-1) (-2) ∧
  ∃ r,
    smith_waterman (py_str "AAA") (py_str "CCC") 2 (-1) (-2) = Ok r ∧
    (aligned_a r = [] ↔ score r = 0).
Proof.
  assert (float_exact (py_str "AAA") (py_str "CCC") 2 (-1) (-2))
    as Hfe by (vm_compute; reflexivity).
  split; [exact Hfe|].
  destruct (local_empty_iff_zero_score (py_str "AAA") (py_str "CCC")
              2 (-1) (-2) Hfe) as (r & Hr & Ha & _).
  exists r. split; [exact Hr|exact Ha].
Defined.

(** X10: within [float_exact], in the result of [smith_waterman] every
    column is counted once, as a match, a mismatch or a gap; [identity]
    and [coverage] lie between [0] and [100]; [norm_score] is at most
    [100] when the match score is at least [1] and neither the mismatch
    score nor the gap penalty exceeds it; and the operands of these
    percentages, the number of columns, [100 × |matches×match +
    mismatches×mismatch + gaps×gap|] and [L × max(match, 1)], are below
    [2 ^ 53]. *)
Theorem local_percentages_bounds (a b : str) (match_ mismatch gap : Z) :
  float_exact a b match_ mismatch gap →
  ∃ r,
    smith_waterman a b match_ mismatch gap = Ok r ∧
    count_pairs is_match (aligned_a r) (aligned_b r)
    + count_pairs is_mismatch (aligned_a r) (aligned_b r)
    + count_pairs is_gap (aligned_a r) (aligned_b r) = len (aligned_a r) ∧
    (0 <= identity r)%Q ∧ (identity r <= 100)%Q ∧
    (0 <= coverage r)%Q ∧ (coverage r <= 100)%Q ∧
    (1 ≤ match_ → mismatch ≤ match_ → gap ≤ match_ →
     (norm_score r <= 100)%Q) ∧
    100 * len (aligned_a r) < float_int_limit ∧
    100 * Z.abs
            (count_pairs is_match (aligned_a r) (aligned_b r) * match_
             + count_pairs is_mismatch (aligned_a r) (aligned_b r) * mismatch
             + count_pairs is_gap (aligned_a r) (aligned_b r) * gap)
    < float_int_limit ∧
    0 ≤ len (aligned_a r) * Z.max match_ 1 < float_int_limit.
Proof.
  intros Hfe.
  destruct (smith_waterman_full a b match_ mismatch gap)
    as (st & sa & sb & t1 & t2 & moves & _ & Hr & Hsa & Hea & _ & _ & Hrun & _).
  pose proof (float_exact_operands _ _ _ _ _ _ Hfe Hr) as (HL & Hnum & Hden).
  apply run_moves_rows in Hrun as (Hg1 & _ & Hl1 & Hl2).
  pose proof (tallies_partition (reverse t1) (reverse t2) ltac:(lia)) as Htal.
  pose proof (count_pairs_bounds is_match (reverse t1) (reverse t2)) as Hm.
  pose proof (count_pairs_bounds is_mismatch (reverse t1) (reverse t2)) as Hx.
  pose proof (count_pairs_bounds is_gap (reverse t1) (reverse t2)) as Hg.
  eexists. split; [exact Hr|]. simpl in *.
  split; [done|].
  split; [apply percent_value_range; lia|].
  split; [apply percent_value_range; lia|].
  assert (len (ungap (reverse t1)) ≤ len a) as Hcov.
  { apply gap_insertion_ungap_length in Hg1.
    pose proof (py_slice_length a sa (sw_best_pos st).1) as Hsl.
    unfold len in *. lia. }
  split; [apply percent_value_range; unfold len in *; lia|].
  split; [apply percent_value_range; unfold len in *; lia|].
  split.
  - intros Hmatch Hmis Hgap. apply percent_value_upper. intros HL'.
    rewrite Z.max_l by lia. unfold pos_score. split; nia.
  - split; [|done].
    pose proof (score_magnitude_bounds match_ mismatch gap) as (HM & _).
    unfold float_exact in Hfe. revert Hfe HM HL.
    generalize (score_magnitude match_ mismatch gap) as M.
    generalize (len (reverse t1)) as L. generalize (len a + len b) as n.
    intros n L M Hfe HM HL. nia.
Qed.

Lemma local_percentages_bounds_witness :
  float_exact (py_str "GATTACA") (py_str "GCATGCU") 2 (-1) (-2) ∧
  ∃ r,
    smith_waterman (py_str "GATTACA") (py_str "GCATGCU") 2 (-1) (-2) = Ok r ∧
    (norm_score r <= 100)%Q.
Proof.
  assert (float_exact (py_str "GATTACA") (py_str "GCATGCU") 2 (-1) (-2))
    as Hfe by (vm_compute; reflexivity).
  split; [exact Hfe|].
  destruct (local_percentages_bounds (py_str "GATTACA") (py_str "GCATGCU")
              2 (-1) (-2) Hfe) as (r & Hr & _ & _ & _ & _ & _ & Hn & _).
  exists r. split; [exact Hr|]. apply Hn; lia.
Defined.

(** X11: within [float_exact], for sequences that contain no ['-'], the
    positional score [matches×match + mismatches×mismatch + gaps×gap] of
    the returned alignment is the returned score, and the aligned part of
    [a] without its gaps is [a[start_a:end_a]], so that [coverage] is
    [100 × (end_a - start_a) / len(a)]. *)
Theorem local_score_is_positional (a b : str) (match_ mismatch gap : Z) :
  gap_char ∉ a → gap_char ∉ b →
  float_exact a b match_ mismatch gap →
  ∃ r,
    smith_waterman a b match_ mismatch gap = Ok r ∧
    count_pairs is_match (aligned_a r) (aligned_b r) * match_
    + count_pairs is_mismatch (aligned_a r) (aligned_b r) * mismatch
    + count_pairs is_gap (aligned_a r) (aligned_b r) * gap = score r ∧
    ungap (aligned_a r) = py_slice a (start_a r) (end_a r) ∧
    ungap (aligned_b r) = py_slice b (start_b r) (end_b r) ∧
    coverage r = percent_value (end_a r - start_a r) (len a) (len a).
Proof.
  intros Ha Hb _.
  destruct (smith_waterman_full a b match_ mismatch gap)
    as (st & sa & sb & t1 & t2 & moves & _ & Hr & Hsa & Hea & _ & _ & Hrun & _).
  assert (gap_char ∉ py_slice a sa (sw_best_pos st).1) as Ha'
    by (intros H; apply Ha; by eapply py_slice_subseteq).
  assert (gap_char ∉ py_slice b sb (sw_best_pos st).2) as Hb'
    by (intros H; apply Hb; by eapply py_slice_subseteq).
  pose proof (run_moves_pos_score _ _ _ _ _ _ _ _ _ Hrun Ha' Hb') as Hpos.
  apply run_moves_rows in Hrun as (Hg1 & Hg2 & _).
  apply gap_insertion_ungap in Hg1; [|done].
  apply gap_insertion_ungap in Hg2; [|done].
  eexists. split; [exact Hr|]. simpl.
  split; [exact Hpos|]. split; [done|]. split; [done|].
  rewrite Hg1, py_slice_length by lia. f_equal. lia.
Qed.

Lemma local_score_is_positional_witness :
  float_exact (py_str "GATTACA") (py_str "GCATGCU") 2 (-1) (-2) ∧
  ∃ r,
    smith_waterman (py_str "GATTACA") (py_str "GCATGCU") 2 (-1) (-2) = Ok r ∧
    ungap (aligned_a r) = py_slice (py_str "GATTACA") (start_a r) (end_a r).
Proof.
  assert (float_exact (py_str "GATTACA") (py_str "GCATGCU") 2 (-1) (-2))
    as Hfe by (vm_compute; reflexivity).
  split; [exact Hfe|].
  destruct (local_score_is_positional (py_str "GATTACA") (py_str "GCATGCU")
              2 (-1) (-2)) as (r & Hr & _ & Hu & _).
  - vm_compute. intros H.
    repeat (apply elem_of_cons in H as [H|H]; [discriminate H|]).
    by apply not_elem_of_nil in H.
  - vm_compute. intros H.
    repeat (apply elem_of_cons in H as [H|H]; [discriminate H|]).
    by apply not_elem_of_nil in H.
  - exact Hfe.
  - exists r. split; [exact Hr|exact Hu].
Defined.

(** X13: within [float_exact], when the match score is at least [0], the
    mismatch score does not exceed it and the gap penalty is at most [0],
    the score [smith_waterman] returns is at most the match score times
    the length of the shorter sequence. *)
Theorem local_score_upper_bound (a b : str) (match_ mismatch gap : Z) :
  0 ≤ match_ → mismatch ≤ match_ → gap ≤ 0 →
  float_exact a b match_ mismatch gap →
  ∃ r,
    smith_waterman a b match_ mismatch gap = Ok r ∧
    score r ≤ match_ * Z.min (len a) (len b).
Proof.
  intros Hm Hx Hg _.
  destruct (smith_waterman_full a b match_ mismatch gap)
    as (st & sa & sb & t1 & t2 & moves & _ & Hr & Hsa & Hea & Hsb & Heb
        & Hrun & _).
  apply (run_moves_upper _ _ _ Hm Hx Hg) in Hrun.
  rewrite !py_slice_length in Hrun by lia.
  eexists. split; [exact Hr|]. simpl. nia.
Qed.

Lemma local_score_upper_bound_witness :
  float_exact (py_str "GATTACA") (py_str "GCATGCU") 2 (-1) (-2) ∧
  ∃ r,
    smith_waterman (py_str "GATTACA") (py_str "GCATGCU") 2 (-1) (-2) = Ok r ∧
    score r ≤ 14.
Proof.
  assert (float_exact (py_str "GATTACA") (py_str "GCATGCU") 2 (-1) (-2))
    as Hfe by (vm_compute; reflexivity).
  split; [exact Hfe|].
  apply (local_score_upper_bound (py_str "GATTACA") (py_str "GCATGCU")
           2 (-1) (-2)); [lia|lia|lia|exact Hfe].
Defined.

(** X14: within [float_exact], when the match score is positive, the
    mismatch score does not exceed it and the gap penalty is at most [0],
    [smith_waterman] on a sequence and itself returns the whole sequence
    aligned with itself: both aligned strings are the sequence, the score
    is its length times the match score, and the coordinates are [0] and
    its length. *)
Theorem local_self_alignment (seq : str) (match_ mismatch gap : Z) :
  0 < match_ → mismatch ≤ match_ → gap ≤ 0 →
  float_exact seq seq match_ mismatch gap →
  ∃ r,
    smith_waterman seq seq match_ mismatch gap = Ok r ∧
    aligned_a r = seq ∧ aligned_b r = seq ∧
    score r = len seq * match_ ∧
    start_a r = 0 ∧ end_a r = len seq ∧
    start_b r = 0 ∧ end_b r = len seq.
Proof.
  intros Hm Hx Hg _.
  destruct (smith_waterman_full seq seq match_ mismatch gap)
    as (st & sa & sb & t1 & t2 & moves & Hinv & Hr & Hsa & Hea & Hsb & Heb
        & Hrun & _).
  pose proof (run_moves_upper match_ mismatch gap ltac:(lia) Hx Hg
                _ _ _ _ _ _ Hrun) as Hup.
  pose proof (run_moves_identity match_ mismatch gap seq) as Hid.
  assert (match_ * len seq ≤ sw_best_score st) as Hlow.
  { eapply (sw_best_bound seq seq match_ mismatch gap st Hinv _ 0%nat 0%nat
              seq seq [] []); [done| | |lia|lia|exact Hid];
      by rewrite app_nil_r. }
  rewrite !py_slice_length in Hup by lia.
  destruct (py_slice_full_length seq sa (sw_best_pos st).1) as [-> Hea'];
    [lia|lia|rewrite py_slice_length by lia; nia|].
  destruct (py_slice_full_length seq sb (sw_best_pos st).2) as [-> Heb'];
    [lia|lia|rewrite py_slice_length by lia; nia|].
  rewrite Hea', Heb', py_slice_whole in Hrun.
  destruct (run_moves_full_score match_ mismatch gap ltac:(lia) Hx Hg
              _ _ _ _ _ _ Hm Hrun eq_refl) as [H1 H2]; [nia|].
  eexists. split; [exact Hr|]. simpl.
  rewrite H1, H2, Hea', Heb'. repeat split; try done. nia.
Qed.

Lemma local_self_alignment_witness :
  float_exact (py_str "GATTACA") (py_str "GATTACA") 2 (-1) (-2) ∧
  ∃ r,
    smith_waterman (py_str "GATTACA") (py_str "GATTACA") 2 (-1) (-2) = Ok r ∧
    aligned_a r = py_str "GATTACA" ∧ aligned_b r = py_str "GATTACA" ∧
    score r = len (py_str "GATTACA") * 2 ∧
    start_a r = 0 ∧ end_a r = len (py_str "GATTACA") ∧
    start_b r = 0 ∧ end_b r = len (py_str "GATTACA").
Proof.
  assert (float_exact (py_str "GATTACA") (py_str "GATTACA") 2 (-1) (-2))
    as Hfe by (vm_compute; reflexivity).
  split; [exact Hfe|].
  apply local_self_alignment; [lia|lia|lia|exact Hfe].
Defined.

(** ** Properties of [chunked_alignment] *)

(** X15: with valid parameters within [chunk_float_exact], the
    coordinates of the [k]-th result of [chunked_alignment] lie inside the
    [k]-th window and inside the genomes: for
    [offset = k × (chunk_size - overlap)],
    [offset ≤ start_a ≤ end_a ≤ min(offset + chunk_size, len(a))], and
    the same for [b]; and each window is within [float_exact]. *)
Theorem chunk_coordinates_in_window
    (a b : str) (chunk_size overlap match_ mismatch gap : Z) :
  0 < chunk_size → 0 ≤ overlap < chunk_size →
  chunk_float_exact chunk_size match_ mismatch gap →
  ∃ rs,
    chunked_alignment a b chunk_size overlap match_ mismatch gap = Ok rs ∧
    ∀ (k : nat) res, rs !! k = Some res →
      let offset := Z.of_nat k * (chunk_size - overlap) in
      0 ≤ offset < Z.min (len a) (len b) ∧
      offset ≤ start_a res ≤ end_a res ∧
      end_a res ≤ Z.min (offset + chunk_size) (len a) ∧
      offset ≤ start_b res ≤ end_b res ∧
      end_b res ≤ Z.min (offset + chunk_size) (len b) ∧
      float_exact (py_slice a offset (offset + chunk_size))
        (py_slice b offset (offset + chunk_size)) match_ mismatch gap.
Proof.
  intros Hcs Hov Hfe.
  destruct (chunked_alignment_spec a b chunk_size overlap match_ mismatch gap)
    as (rs & Hrs & Hlen & Hwin); [lia..|].
  exists rs. split; [done|]. intros k res Hk offset.
  pose proof (lookup_lt_Some _ _ _ Hk) as Hlt.
  destruct (Hwin k Hlt) as (res' & Hres' & r & Hr & ->).
  rewrite Hk in Hres'. injection Hres' as ->.
  fold offset in Hr.
  assert (0 ≤ offset < Z.min (len a) (len b)) as Hoff.
  { pose proof (ceil_div_bounds (Z.min (len a) (len b)) (chunk_size - overlap)
                  ltac:(lia)) as Hb.
    rewrite <- Hlen in Hb. unfold offset, len in *. nia. }
  apply smith_waterman_coordinates in Hr as (Hsa & Hea & Hsb & Heb).
  rewrite py_slice_length in Hea, Heb by lia.
  simpl. repeat split; try lia.
  apply chunk_float_exact_window; [done|lia..].
Qed.

Lemma chunk_coordinates_in_window_witness :
  chunk_float_exact 4 2 (-1) (-2) ∧
  ∃ rs,
    chunked_alignment (py_str "ACGTACGTAC") (py_str "ACGTACGTAC") 4 2 2 (-1) (-2)
      = Ok rs ∧
    ∀ res, rs !! 4%nat = Some res → 8 ≤ start_a res ∧ end_a res ≤ 10.
Proof.
  assert (chunk_float_exact 4 2 (-1) (-2)) as Hfe by (vm_compute; reflexivity).
  split; [exact Hfe|].
  destruct (chunk_coordinates_in_window
              (py_str "ACGTACGTAC") (py_str "ACGTACGTAC") 4 2 2 (-1) (-2))
    as (rs & Hrs & Hco); [lia|lia|exact Hfe|].
  exists rs. split; [exact Hrs|].
  intros res Hres. destruct (Hco 4%nat res Hres) as (_ & H1 & H2 & _).
  change (len (py_str "ACGTACGTAC")) with 10 in H2. lia.
Defined.

(** X16: with valid parameters within [chunk_float_exact],
    [chunked_alignment] returns the empty list exactly when one of the
    two genomes is empty. *)
Theorem chunk_results_empty_iff
    (a b : str) (chunk_size overlap match_ mismatch gap : Z) :
  0 < chunk_size → 0 ≤ overlap < chunk_size →
  chunk_float_exact chunk_size match_ mismatch gap →
  ∃ rs,
    chunked_alignment a b chunk_size overlap match_ mismatch gap = Ok rs ∧
    (rs = [] ↔ a = [] ∨ b = []).
Proof.
  intros Hcs Hov _.
  destruct (chunked_alignment_spec a b chunk_size overlap match_ mismatch gap)
    as (rs & Hrs & Hlen & _); [lia..|].
  exists rs. split; [done|].
  pose proof (ceil_div_bounds (Z.min (len a) (len b)) (chunk_size - overlap)
                ltac:(lia)) as Hb.
  rewrite <- Hlen in Hb. split.
  - intros ->. unfold len in Hb. simpl in Hb.
    destruct a, b; auto. unfold len in Hb. simpl in Hb. lia.
  - intros Hab. destruct rs; [done|].
    assert (Z.min (len a) (len b) = 0) as H0
      by (destruct Hab as [-> | ->]; unfold len; simpl; lia).
    unfold len in *. simpl length in Hb. nia.
Qed.

Lemma chunk_results_empty_iff_witness :
  chunk_float_exact 4 2 (-1) (-2) ∧
  chunked_alignment [] (py_str "ACGT") 4 2 2 (-1) (-2) = Ok [].
Proof.
  assert (chunk_float_exact 4 2 (-1) (-2)) as Hfe by (vm_compute; reflexivity).
  split; [exact Hfe|].
  destruct (chunk_results_empty_iff [] (py_str "ACGT") 4 2 2 (-1) (-2))
    as (rs & Hrs & Hiff); [lia|lia|exact Hfe|].
  rewrite Hrs. f_equal. apply Hiff. left. reflexivity.
Defined.
